(** * stl::arc / stl::weak_arc: reference-counted handles and their control block

    A shallow embedding of [include/stl/arc.hpp].  The heap of control blocks
    is a finite map, every method of the control block is a computation in a
    small state/trace/error monad over that heap, and the handle classes
    [arc<T>], [arc<T[]>], [weak_arc<T>], [weak_arc<T[]>] are functions on the
    handle's single data member [_block].  On top of that sits a program
    semantics in which handle objects have an identity, so that the
    [this != &other] tests of the assignment operators, and the order in
    which they release one block and read the other object, can be
    expressed.  Programs are sequential: one statement after the other. *)

From Stdlib Require Import ZArith Lia List.
From stdpp Require Import gmap list fin_maps.

Local Open Scope Z_scope.
#[local] Set Warnings "-clear-no-such-hyp".

(** ** Memory *)

(** Allocation identifiers, as returned by [new] / [new[]].  Every call of
    the allocator hands out an identifier that was never used before. *)
Abbreviation addr := nat (only parsing).

(** Identity of a handle object (the address of the [arc] or [weak_arc]
    variable itself). *)
Abbreviation hid := nat (only parsing).

(** [std::size_t] is an unsigned 64-bit integer; arithmetic on
    [std::atomic<std::size_t>] wraps around. *)
Definition size_modulus : Z := 2 ^ 64.
Definition wrap (z : Z) : Z := z mod size_modulus.

(** The part of the control block that differs between the two
    specialisations: [T _object] stored inline for [arc<T>], and
    [element_type* _data; std::size_t _size] for [arc<T[]>].  A null
    [_data] is [None]. *)
Inductive payload : Type :=
| inline_object
| array_buffer (_data : option addr) (_size : Z).

Record control_block : Type := mk_block {
  _ref_count : Z;
  _weak_count : Z;
  _payload : payload
}.

(** What an execution does to the outside world: allocator calls, the
    atomic read-modify-write operations on the two counters (with the value
    the operation returned, i.e. the value before the update), destructor
    calls on the inline payload, and deallocations.

    The constructors and the destructor of the payload type [T], and of the
    elements of an array, are code of the client and not of this header.
    [ev_destroy_object] and [ev_delete_array] record that the header calls
    them; what their bodies do (for a [T] that itself holds handles: the
    destruction of those handles) is not part of the embedding and comes on
    top of what is recorded here. *)
Inductive event : Type :=
| ev_new_block (b : addr)
| ev_new_array (d : addr)
| ev_ref_add (b : addr) (old : Z)
| ev_ref_sub (b : addr) (old : Z)
| ev_weak_add (b : addr) (old : Z)
| ev_weak_sub (b : addr) (old : Z)
| ev_destroy_object (b : addr)
| ev_delete_array (d : addr)
| ev_delete_block (b : addr).

Global Instance payload_eq_dec : EqDecision payload.
Proof. solve_decision. Defined.
Global Instance control_block_eq_dec : EqDecision control_block.
Proof. solve_decision. Defined.
Global Instance event_eq_dec : EqDecision event.
Proof. solve_decision. Defined.

Record memory : Type := mk_memory {
  blocks : gmap nat control_block;   (* live control blocks *)
  buffers : gset nat;                (* live [new element_type[n]] buffers *)
  next : nat                         (* next allocation identifier *)
}.

(** ** The monad of the control-block methods

    A computation takes the memory and either yields a result, the new
    memory and the events it produced, or is undefined ([None]): access to a
    control block that has been deallocated, or [delete[]] of a buffer that
    is not live. *)
Definition M (A : Type) : Type := memory → option (A * memory * list event).

Definition ret {A} (a : A) : M A := λ m, Some (a, m, []).

Definition bind {A B} (c : M A) (k : A → M B) : M B := λ m,
  match c m with
  | None => None
  | Some (a, m1, e1) =>
      match k a m1 with
      | None => None
      | Some (b, m2, e2) => Some (b, m2, e1 ++ e2)
      end
  end.

Notation "'let*' x ':=' c 'in' k" := (bind c (λ x, k))
  (at level 10, x pattern, c at level 100, k at level 200).
Notation "c1 ;;; c2" := (bind c1 (λ _, c2))
  (at level 100, c2 at level 200, right associativity).

Definition undefined {A} : M A := λ _, None.
Definition emit (e : event) : M unit := λ m, Some (tt, m, [e]).

(** Reading and writing [*this] for a control block at address [b]. *)
Definition load (b : addr) : M control_block := λ m,
  match blocks m !! b with
  | Some c => Some (c, m, [])
  | None => None
  end.

Definition store (b : addr) (c : control_block) : M unit := λ m,
  match blocks m !! b with
  | Some _ => Some (tt, mk_memory (<[b := c]> (blocks m)) (buffers m) (next m), [])
  | None => None
  end.

(** [operator new] for a control block: a fresh identifier. *)
Definition alloc_block (c : control_block) : M addr := λ m,
  Some (next m,
        mk_memory (<[next m := c]> (blocks m)) (buffers m) (S (next m)),
        [ev_new_block (next m)]).

(** [new element_type[n]]: a fresh identifier for the buffer. *)
Definition alloc_array : M addr := λ m,
  Some (next m,
        mk_memory (blocks m) ({[next m]} ∪ buffers m) (S (next m)),
        [ev_new_array (next m)]).

(** [delete[] d]: calls the element destructors and frees the buffer.
    The call is recorded; the bodies of the element destructors are the
    client's. *)
Definition delete_array (d : addr) : M unit := λ m,
  if decide (d ∈ buffers m)
  then Some (tt, mk_memory (blocks m) (buffers m ∖ {[d]}) (next m), [ev_delete_array d])
  else None.

(** [operator delete] for the control block at [b]. *)
Definition free_block (b : addr) : M unit := λ m,
  match blocks m !! b with
  | Some _ => Some (tt, mk_memory (delete b (blocks m)) (buffers m) (next m),
                    [ev_delete_block b])
  | None => None
  end.

(** ** Control block methods *)

(** [arc<T>::control_block::control_block(Args&&...)] inside
    [new control_block(...)]: both counters start at 1. *)
Definition new_control_block : M addr :=
  alloc_block (mk_block 1 1 inline_object).

(** [arc<T[]>::control_block::control_block(std::size_t n)] inside
    [new control_block(n)]: the block is allocated, then the member
    initialiser [_data(new element_type[n])] runs. *)
Definition new_array_control_block (n : Z) : M addr :=
  let* b := alloc_block (mk_block 1 1 (array_buffer None 0)) in
  let* d := alloc_array in
  store b (mk_block 1 1 (array_buffer (Some d) n)) ;;;
  ret b.

(** [~control_block() = default] of [arc<T>]: destroys the member
    [_object], that is, calls [~T].  The call is recorded; the body of
    [~T] is the client's. *)
Definition destroy_object_block (b : addr) : M unit :=
  emit (ev_destroy_object b).

(** [~control_block()] of [arc<T[]>]: [if (_data) delete[] _data;]. *)
Definition destroy_array_block (data : option addr) : M unit :=
  match data with
  | Some d => delete_array d
  | None => ret tt
  end.

(** [delete this]: destructor of the block's own specialisation, then
    deallocation. *)
Definition delete_this (b : addr) : M unit :=
  let* c := load b in
  match _payload c with
  | inline_object => destroy_object_block b
  | array_buffer data _ => destroy_array_block data
  end ;;;
  free_block b.

(** [_ref_count.fetch_add(1)] *)
Definition add_ref (b : addr) : M unit :=
  let* c := load b in
  store b (mk_block (wrap (_ref_count c + 1)) (_weak_count c) (_payload c)) ;;;
  emit (ev_ref_add b (_ref_count c)).

(** [_weak_count.fetch_add(1)] *)
Definition add_weak_ref (b : addr) : M unit :=
  let* c := load b in
  store b (mk_block (_ref_count c) (wrap (_weak_count c + 1)) (_payload c)) ;;;
  emit (ev_weak_add b (_weak_count c)).

(** [if (_weak_count.fetch_sub(1) == 1) delete this;] *)
Definition release_weak_ref (b : addr) : M unit :=
  let* c := load b in
  store b (mk_block (_ref_count c) (wrap (_weak_count c - 1)) (_payload c)) ;;;
  emit (ev_weak_sub b (_weak_count c)) ;;;
  if _weak_count c =? 1 then delete_this b else ret tt.

(** [arc<T>::control_block::release_ref]:
    [if (_ref_count.fetch_sub(1) == 1) release_weak_ref();] *)
Definition release_ref_object (b : addr) : M unit :=
  let* c := load b in
  store b (mk_block (wrap (_ref_count c - 1)) (_weak_count c) (_payload c)) ;;;
  emit (ev_ref_sub b (_ref_count c)) ;;;
  if _ref_count c =? 1 then release_weak_ref b else ret tt.

(** [arc<T[]>::control_block::release_ref]: on the last strong release the
    buffer is freed and [_data] is nulled before the weak unit is released. *)
Definition release_ref_array (b : addr) : M unit :=
  let* c := load b in
  store b (mk_block (wrap (_ref_count c - 1)) (_weak_count c) (_payload c)) ;;;
  emit (ev_ref_sub b (_ref_count c)) ;;;
  if _ref_count c =? 1 then
    match _payload c with
    | array_buffer (Some d) n =>
        delete_array d ;;;
        let* c' := load b in
        store b (mk_block (_ref_count c') (_weak_count c') (array_buffer None n))
    | _ => ret tt
    end ;;;
    release_weak_ref b
  else ret tt.

(** The static type of a handle selects the specialisation; a handle of
    type [arc<T>] only ever points to a block with an inline object and a
    handle of type [arc<T[]>] to one with an array buffer, so the selection
    can be read off the block. *)
Definition release_ref (b : addr) : M unit :=
  let* c := load b in
  match _payload c with
  | inline_object => release_ref_object b
  | array_buffer _ _ => release_ref_array b
  end.

(** [_ref_count.load()] *)
Definition ref_count (b : addr) : M Z :=
  let* c := load b in ret (_ref_count c).

(** ** Handle methods

    A handle is its only data member, [_block]: [None] is [nullptr].  The
    primary templates [arc<T>], [weak_arc<T>] and the specialisations
    [arc<T[]>], [weak_arc<T[]>] have the same text for every method below
    except construction from arguments, [get()] and the element accessors,
    so one definition stands for both; where they differ there is one
    definition each. *)

(** Pointers handed out by [get()]. *)
Inductive pointer : Type :=
| nullptr
| object_of (b : addr)      (* [&_block->_object] *)
| array_at (d : addr).      (* the value of [_block->_data] *)

Global Instance pointer_eq_dec : EqDecision pointer.
Proof. solve_decision. Defined.

(** [arc() noexcept : _block(nullptr) {}], also [weak_arc()]. *)
Definition arc_default : option addr := None.
Definition weak_default : option addr := None.

(** [explicit arc(Args&&... args) : _block(new control_block(args...))],
    for a pack [args...] for which overload resolution selects this
    constructor template: not the empty pack, for which the non-template
    [arc()] is selected, and not a single [arc<T>] for which the copy or
    the move constructor is selected. *)
Definition arc_make : M (option addr) :=
  let* b := new_control_block in ret (Some b).

(** [explicit arc(std::size_t n) : _block(new control_block(n))] *)
Definition arc_make_array (n : Z) : M (option addr) :=
  let* b := new_array_control_block n in ret (Some b).

(** [arc(const arc& other)]: [_block(other._block)], then
    [if (_block) _block->add_ref();].  The private constructor
    [arc(control_block* block)] has the same body. *)
Definition arc_copy (other : option addr) : M (option addr) :=
  match other with
  | Some b => add_ref b ;;; ret (Some b)
  | None => ret None
  end.

Definition arc_from_block (block : option addr) : M (option addr) :=
  match block with
  | Some b => add_ref b ;;; ret (Some b)
  | None => ret None
  end.

(** [arc(arc&& other) : _block(std::exchange(other._block, nullptr))]:
    the new handle's [_block] and the new value of [other._block]. *)
Definition arc_move (other : option addr) : option addr * option addr :=
  (other, None).

(** [~arc()] *)
Definition arc_destroy (this : option addr) : M unit :=
  match this with
  | Some b => release_ref b
  | None => ret tt
  end.

(** [use_count()]: [_block ? _block->ref_count() : 0], the same text in
    all four classes. *)
Definition use_count (this : option addr) : M Z :=
  match this with
  | Some b => ref_count b
  | None => ret 0
  end.

(** [unique()] *)
Definition unique (this : option addr) : M bool :=
  let* n := use_count this in ret (n =? 1).

(** [arc<T>::get()]: [_block ? &_block->_object : nullptr]. *)
Definition get_object (this : option addr) : pointer :=
  match this with
  | Some b => object_of b
  | None => nullptr
  end.

(** [arc<T[]>::get()]: [_block ? _block->_data : nullptr]. *)
Definition get_array (this : option addr) : M pointer :=
  match this with
  | Some b =>
      let* c := load b in
      match _payload c with
      | array_buffer (Some d) _ => ret (array_at d)
      | _ => ret nullptr
      end
  | None => ret nullptr
  end.

(** [arc<T>::operator*()]: [return _block->_object;], and
    [arc<T>::operator->()]: [return &_block->_object;].  Neither tests
    [_block]; on a null handle they are undefined. *)
Definition deref (this : option addr) : M pointer :=
  match this with
  | Some b => let* c := load b in ret (object_of b)
  | None => undefined
  end.

Definition arrow (this : option addr) : M pointer :=
  match this with
  | Some b => let* c := load b in ret (object_of b)
  | None => undefined
  end.

(** [arc<T[]>::operator[](index)]: [return _block->_data[index];], with
    no test of [_block], of [_data] or of the index.  Yields the buffer
    and the position of the element. *)
Definition index (this : option addr) (i : Z) : M (addr * Z) :=
  match this with
  | Some b =>
      let* c := load b in
      match _payload c with
      | array_buffer (Some d) n => if (0 <=? i) && (i <? n) then ret (d, i) else undefined
      | _ => undefined
      end
  | None => undefined
  end.

(** [explicit operator bool()]: [_block != nullptr]. *)
Definition to_bool (this : option addr) : bool :=
  match this with
  | Some _ => true
  | None => false
  end.

(** [weak_arc(const arc<T>& shared)] and [weak_arc(const weak_arc& other)]:
    [_block(src._block)], then [if (_block) _block->add_weak_ref();]. *)
Definition weak_copy (other : option addr) : M (option addr) :=
  match other with
  | Some b => add_weak_ref b ;;; ret (Some b)
  | None => ret None
  end.

(** [weak_arc(weak_arc&& other)] *)
Definition weak_move (other : option addr) : option addr * option addr :=
  (other, None).

(** [~weak_arc()] *)
Definition weak_destroy (this : option addr) : M unit :=
  match this with
  | Some b => release_weak_ref b
  | None => ret tt
  end.

(** [expired()]: [use_count() == 0]. *)
Definition expired (this : option addr) : M bool :=
  let* n := use_count this in ret (n =? 0).

(** [lock()] in its two phases.  [lock_check] evaluates the condition
    [_block && _block->ref_count() > 0] (the second operand only for a
    non-null [_block]); [lock_construct] runs the branch that was chosen:
    [arc<T>(_block)] or [arc<T>()]. *)
Definition lock_check (this : option addr) : M bool :=
  match this with
  | Some b => let* n := ref_count b in ret (0 <? n)
  | None => ret false
  end.

Definition lock_construct (this : option addr) (taken : bool) : M (option addr) :=
  if taken then arc_from_block this else ret arc_default.

Definition lock (this : option addr) : M (option addr) :=
  let* taken := lock_check this in lock_construct this taken.

(** ** Programs over handle objects

    The state of a program: the memory, and the handle objects that are
    currently within their lifetime, each with the value of its [_block]
    member.  [arc] and [weak_arc] objects live in separate name spaces.
    The handle objects of a state are the complete objects the program
    declares; a handle that is a member of a payload belongs to the
    payload type and lives and dies with the payload. *)
Record state : Type := mk_state {
  mem : memory;
  arcs : gmap nat (option nat);
  weaks : gmap nat (option nat)
}.

Definition init : state := mk_state (mk_memory ∅ ∅ 0%nat) ∅ ∅.

(** ** Assignment

    The assignment operators work on two objects, [*this] and [other]:
    they compare the addresses of the two, and they read [other._block]
    only after the block that [*this] held has been released.  They are
    therefore functions of the state, given the names of the two objects;
    every read of a member goes to the state as it is at that point, and
    reading an object that is not alive is undefined. *)

(** [arc::operator=(const arc& other)]:
    [if (this != &other) { if (_block) _block->release_ref();
       _block = other._block; if (_block) _block->add_ref(); }] *)
Definition arc_assign (this other : hid) (s : state) : option (state * list event) :=
  match arcs s !! this with
  | None => None
  | Some blk =>
      if bool_decide (this = other) then Some (s, [])
      else
        match arc_destroy blk (mem s) with
        | None => None
        | Some (_, m1, e1) =>
            let s1 := mk_state m1 (arcs s) (weaks s) in
            match arcs s1 !! other with
            | None => None
            | Some blk' =>
                match (match blk' with Some b => add_ref b | None => ret tt end) (mem s1) with
                | None => None
                | Some (_, m2, e2) =>
                    Some (mk_state m2 (<[this := blk']> (arcs s1)) (weaks s1), e1 ++ e2)
                end
            end
        end
  end.

(** [arc::operator=(arc&& other)]:
    [if (this != &other) { if (_block) _block->release_ref();
       _block = std::exchange(other._block, nullptr); }] *)
Definition arc_move_assign (this other : hid) (s : state) : option (state * list event) :=
  match arcs s !! this with
  | None => None
  | Some blk =>
      if bool_decide (this = other) then Some (s, [])
      else
        match arc_destroy blk (mem s) with
        | None => None
        | Some (_, m1, e1) =>
            let s1 := mk_state m1 (arcs s) (weaks s) in
            match arcs s1 !! other with
            | None => None
            | Some blk' =>
                Some (mk_state m1 (<[this := blk']> (<[other := None]> (arcs s1))) (weaks s1),
                      e1)
            end
        end
  end.

(** [weak_arc::operator=(const weak_arc& other)]:
    [if (this != &other) { if (_block) _block->release_weak_ref();
       _block = other._block; if (_block) _block->add_weak_ref(); }] *)
Definition weak_assign (this other : hid) (s : state) : option (state * list event) :=
  match weaks s !! this with
  | None => None
  | Some blk =>
      if bool_decide (this = other) then Some (s, [])
      else
        match weak_destroy blk (mem s) with
        | None => None
        | Some (_, m1, e1) =>
            let s1 := mk_state m1 (arcs s) (weaks s) in
            match weaks s1 !! other with
            | None => None
            | Some blk' =>
                match (match blk' with Some b => add_weak_ref b | None => ret tt end) (mem s1) with
                | None => None
                | Some (_, m2, e2) =>
                    Some (mk_state m2 (arcs s1) (<[this := blk']> (weaks s1)), e1 ++ e2)
                end
            end
        end
  end.

(** [weak_arc::operator=(weak_arc&& other)]:
    [if (this != &other) { if (_block) _block->release_weak_ref();
       _block = std::exchange(other._block, nullptr); }] *)
Definition weak_move_assign (this other : hid) (s : state) : option (state * list event) :=
  match weaks s !! this with
  | None => None
  | Some blk =>
      if bool_decide (this = other) then Some (s, [])
      else
        match weak_destroy blk (mem s) with
        | None => None
        | Some (_, m1, e1) =>
            let s1 := mk_state m1 (arcs s) (weaks s) in
            match weaks s1 !! other with
            | None => None
            | Some blk' =>
                Some (mk_state m1 (arcs s1) (<[this := blk']> (<[other := None]> (weaks s1))),
                      e1)
            end
        end
  end.

(** One statement of a client program.  The first argument names the
    object constructed, assigned to or destroyed. *)
Inductive op : Type :=
| op_arc_default (h : hid)                 (* [arc<T> h;] *)
| op_make_arc (h : hid)                    (* [arc<T> h(args...);], see [arc_make] *)
| op_make_arc_array (h : hid) (n : Z)      (* [arc<T[]> h(n);] *)
| op_arc_copy (h src : hid)                (* [arc<T> h(src);] *)
| op_arc_move (h src : hid)                (* [arc<T> h(std::move(src));] *)
| op_arc_assign (dst src : hid)            (* [dst = src;] *)
| op_arc_move_assign (dst src : hid)       (* [dst = std::move(src);] *)
| op_arc_destroy (h : hid)                 (* end of the lifetime of [h] *)
| op_weak_default (w : hid)                (* [weak_arc<T> w;] *)
| op_weak_from_arc (w src : hid)           (* [weak_arc<T> w(src);], [src] an [arc] *)
| op_weak_copy (w src : hid)               (* [weak_arc<T> w(src);] *)
| op_weak_move (w src : hid)               (* [weak_arc<T> w(std::move(src));] *)
| op_weak_assign (dst src : hid)
| op_weak_move_assign (dst src : hid)
| op_weak_destroy (w : hid)
| op_lock (h w : hid).                     (* [arc<T> h = w.lock();] *)

Definition exec {A} (c : M A) (s : state) (k : A → memory → state)
  : option (state * list event) :=
  match c (mem s) with
  | Some (a, m, ev) => Some (k a m, ev)
  | None => None
  end.

(** A statement is undefined when it names an object outside its lifetime
    (or constructs one where an object already lives), or when the method
    it runs is undefined. *)
Definition step (o : op) (s : state) : option (state * list event) :=
  match o with
  | op_arc_default h =>
      match arcs s !! h with
      | None => Some (mk_state (mem s) (<[h := arc_default]> (arcs s)) (weaks s), [])
      | Some _ => None
      end
  | op_make_arc h =>
      match arcs s !! h with
      | None => exec arc_make s (λ blk m, mk_state m (<[h := blk]> (arcs s)) (weaks s))
      | Some _ => None
      end
  | op_make_arc_array h n =>
      match arcs s !! h with
      | None => exec (arc_make_array n) s
                  (λ blk m, mk_state m (<[h := blk]> (arcs s)) (weaks s))
      | Some _ => None
      end
  | op_arc_copy h src =>
      match arcs s !! h, arcs s !! src with
      | None, Some other =>
          exec (arc_copy other) s (λ blk m, mk_state m (<[h := blk]> (arcs s)) (weaks s))
      | _, _ => None
      end
  | op_arc_move h src =>
      match arcs s !! h, arcs s !! src with
      | None, Some other =>
          let '(blk, other') := arc_move other in
          Some (mk_state (mem s) (<[h := blk]> (<[src := other']> (arcs s))) (weaks s), [])
      | _, _ => None
      end
  | op_arc_assign dst src => arc_assign dst src s
  | op_arc_move_assign dst src => arc_move_assign dst src s
  | op_arc_destroy h =>
      match arcs s !! h with
      | Some this =>
          exec (arc_destroy this) s (λ _ m, mk_state m (delete h (arcs s)) (weaks s))
      | None => None
      end
  | op_weak_default w =>
      match weaks s !! w with
      | None => Some (mk_state (mem s) (arcs s) (<[w := weak_default]> (weaks s)), [])
      | Some _ => None
      end
  | op_weak_from_arc w src =>
      match weaks s !! w, arcs s !! src with
      | None, Some shared =>
          exec (weak_copy shared) s (λ blk m, mk_state m (arcs s) (<[w := blk]> (weaks s)))
      | _, _ => None
      end
  | op_weak_copy w src =>
      match weaks s !! w, weaks s !! src with
      | None, Some other =>
          exec (weak_copy other) s (λ blk m, mk_state m (arcs s) (<[w := blk]> (weaks s)))
      | _, _ => None
      end
  | op_weak_move w src =>
      match weaks s !! w, weaks s !! src with
      | None, Some other =>
          let '(blk, other') := weak_move other in
          Some (mk_state (mem s) (arcs s) (<[w := blk]> (<[src := other']> (weaks s))), [])
      | _, _ => None
      end
  | op_weak_assign dst src => weak_assign dst src s
  | op_weak_move_assign dst src => weak_move_assign dst src s
  | op_weak_destroy w =>
      match weaks s !! w with
      | Some this =>
          exec (weak_destroy this) s (λ _ m, mk_state m (arcs s) (delete w (weaks s)))
      | None => None
      end
  | op_lock h w =>
      match arcs s !! h, weaks s !! w with
      | None, Some this =>
          exec (lock this) s (λ blk m, mk_state m (<[h := blk]> (arcs s)) (weaks s))
      | _, _ => None
      end
  end.

(** The value a [const] method returns in a state. *)
Definition observe {A} (c : M A) (s : state) : option A :=
  match c (mem s) with
  | Some (a, _, _) => Some a
  | None => None
  end.

(** [arc<T> h = w.lock();] when other threads run between the evaluation
    of the condition and the construction of the result: [lock_begin] is
    the first phase, whose outcome the thread keeps, and [lock_end] the
    second phase, run in whatever state the program is in by then. *)
Definition lock_begin (w : hid) (s : state) : option bool :=
  match weaks s !! w with
  | Some this => observe (lock_check this) s
  | None => None
  end.

Definition lock_end (h w : hid) (taken : bool) (s : state)
  : option (state * list event) :=
  match arcs s !! h, weaks s !! w with
  | None, Some this =>
      exec (lock_construct this taken) s
        (λ blk m, mk_state m (<[h := blk]> (arcs s)) (weaks s))
  | _, _ => None
  end.

(** A program is run statement by statement; the trace is the
    concatenation of the statements' events. *)
Fixpoint run (p : list op) (s : state) : option (state * list event) :=
  match p with
  | [] => Some (s, [])
  | o :: p' =>
      match step o s with
      | Some (s1, e1) =>
          match run p' s1 with
          | Some (s2, e2) => Some (s2, e1 ++ e2)
          | None => None
          end
      | None => None
      end
  end.

(** ** Counting the handles that refer to a block *)

Definition holders (hs : gmap nat (option nat)) (b : nat) : nat :=
  size (filter (λ kv, kv.2 = Some b) hs).

Definition ind (P : Prop) `{Decision P} : nat := if decide P then 1%nat else 0%nat.

(** Updating one control block in place. *)
Definition upd (b : nat) (c : control_block) (m : memory) : memory :=
  mk_memory (<[b := c]> (blocks m)) (buffers m) (next m).

(** The buffer a block owns, the events of its destructor, and the block's
    payload once [release_ref] has dropped the buffer. *)
Definition owned_buffer (p : payload) : gset nat :=
  match p with
  | array_buffer (Some d) _ => {[d]}
  | _ => ∅
  end.

Definition dtor_events (b : nat) (p : payload) : list event :=
  match p with
  | inline_object => [ev_destroy_object b]
  | array_buffer (Some d) _ => [ev_delete_array d]
  | array_buffer None _ => []
  end.

Definition drop_events (p : payload) : list event :=
  match p with
  | array_buffer (Some d) _ => [ev_delete_array d]
  | _ => []
  end.

Definition dropped (p : payload) : payload :=
  match p with
  | array_buffer _ n => array_buffer None n
  | inline_object => inline_object
  end.

(** Prefixing the trace of an outcome. *)
Definition prefix_events {A} (e : list event) (r : option (A * memory * list event))
  : option (A * memory * list event) :=
  match r with
  | Some (a, m, ev) => Some (a, m, e ++ ev)
  | None => None
  end.

(** ** The counting invariant

    [block_ok s b]: the counters of the block at [b] agree with the handle
    objects that are alive.  [_ref_count] is the number of [arc] objects
    whose [_block] is [b]; [_weak_count] is the number of such [weak_arc]
    objects plus one unit held collectively by the [arc] objects; an array
    block holds its buffer exactly as long as an [arc] refers to it.  No
    handle refers to an address without a live block. *)
Definition block_ok (s : state) (b : nat) : Prop :=
  match blocks (mem s) !! b with
  | Some c =>
      _ref_count c = Z.of_nat (holders (arcs s) b) ∧
      _weak_count c =
        Z.of_nat (holders (weaks s) b + ind (holders (arcs s) b ≠ 0%nat)) ∧
      1 ≤ _weak_count c ∧
      _ref_count c < size_modulus ∧ _weak_count c < size_modulus ∧
      owned_buffer (_payload c) ⊆ buffers (mem s) ∧
      match _payload c with
      | inline_object => True
      | array_buffer (Some _) _ => holders (arcs s) b ≠ 0%nat
      | array_buffer None _ => holders (arcs s) b = 0%nat
      end
  | None => holders (arcs s) b = 0%nat ∧ holders (weaks s) b = 0%nat
  end.

Record Inv (s : state) : Prop := mk_Inv {
  inv_blocks : ∀ b, block_ok s b;
  inv_unique : ∀ b1 b2 c1 c2 d,
    blocks (mem s) !! b1 = Some c1 → blocks (mem s) !! b2 = Some c2 →
    d ∈ owned_buffer (_payload c1) → d ∈ owned_buffer (_payload c2) → b1 = b2;
  inv_fresh_blocks : ∀ b c, blocks (mem s) !! b = Some c → (b < next (mem s))%nat;
  inv_fresh_buffers : ∀ d, d ∈ buffers (mem s) → (d < next (mem s))%nat
}.

(** The handle objects of a program all occupy memory, so there are fewer
    of them than [std::size_t] has values. *)
Definition bounded (s : state) : Prop :=
  Z.of_nat (size (arcs s) + size (weaks s)) < size_modulus - 1.

(** The number of handle objects alive in a state. *)
Definition handles (s : state) : nat := (size (arcs s) + size (weaks s))%nat.

(** ** Phases of a statement

    Every statement first releases what its target held (destructors and
    the first half of the assignment operators) and then acquires
    (constructors and the second half of the assignment operators). *)
Definition is_release (o : op) : bool :=
  match o with
  | op_arc_destroy _ | op_weak_destroy _ => true
  | _ => false
  end.

Definition is_acquire (o : op) : bool :=
  match o with
  | op_arc_default _ | op_make_arc _ | op_make_arc_array _ _ | op_arc_copy _ _
  | op_arc_move _ _ | op_weak_default _ | op_weak_from_arc _ _ | op_weak_copy _ _
  | op_weak_move _ _ | op_lock _ _ => true
  | _ => false
  end.

(** Events that neither decrement a counter nor destroy or free anything. *)
Definition quiet (e : event) : bool :=
  match e with
  | ev_new_block _ | ev_new_array _ | ev_ref_add _ _ | ev_weak_add _ _ => true
  | _ => false
  end.

(** The possible outcomes of a release in a state that satisfies the
    invariant: the memory afterwards and the events. *)
Inductive released (s : state) : memory → list event → Prop :=
| rel_none : released s (mem s) []
| rel_strong b c :
    blocks (mem s) !! b = Some c → holders (arcs s) b ≠ 0%nat → _ref_count c ≠ 1 →
    released s (upd b (mk_block (_ref_count c - 1) (_weak_count c) (_payload c)) (mem s))
      [ev_ref_sub b (_ref_count c)]
| rel_strong_last b c :
    blocks (mem s) !! b = Some c → holders (arcs s) b ≠ 0%nat →
    _ref_count c = 1 → _weak_count c ≠ 1 →
    released s
      (mk_memory (<[b := mk_block 0 (_weak_count c - 1) (dropped (_payload c))]>
                    (blocks (mem s)))
         (buffers (mem s) ∖ owned_buffer (_payload c)) (next (mem s)))
      (ev_ref_sub b 1 :: drop_events (_payload c) ++ [ev_weak_sub b (_weak_count c)])
| rel_strong_free b c :
    blocks (mem s) !! b = Some c → holders (arcs s) b ≠ 0%nat →
    _ref_count c = 1 → _weak_count c = 1 →
    released s
      (mk_memory (delete b (blocks (mem s)))
         (buffers (mem s) ∖ owned_buffer (_payload c)) (next (mem s)))
      (ev_ref_sub b 1 :: drop_events (_payload c) ++
       ev_weak_sub b 1 :: dtor_events b (dropped (_payload c)) ++ [ev_delete_block b])
| rel_weak b c :
    blocks (mem s) !! b = Some c → holders (weaks s) b ≠ 0%nat → _weak_count c ≠ 1 →
    released s (upd b (mk_block (_ref_count c) (_weak_count c - 1) (_payload c)) (mem s))
      [ev_weak_sub b (_weak_count c)]
| rel_weak_free b c :
    blocks (mem s) !! b = Some c → holders (weaks s) b ≠ 0%nat →
    _weak_count c = 1 → holders (arcs s) b = 0%nat →
    released s
      (mk_memory (delete b (blocks (mem s)))
         (buffers (mem s) ∖ owned_buffer (_payload c)) (next (mem s)))
      (ev_weak_sub b 1 :: dtor_events b (_payload c) ++ [ev_delete_block b]).

(** The possible outcomes of an acquisition. *)
Inductive acquired (m : memory) : memory → list event → Prop :=
| acq_none : acquired m m []
| acq_new :
    acquired m
      (mk_memory (<[next m := mk_block 1 1 inline_object]> (blocks m))
         (buffers m) (S (next m)))
      [ev_new_block (next m)]
| acq_new_array n :
    acquired m
      (mk_memory
         (<[next m := mk_block 1 1 (array_buffer (Some (S (next m))) n)]>
            (blocks m))
         ({[S (next m)]} ∪ buffers m) (S (S (next m))))
      [ev_new_block (next m); ev_new_array (S (next m))]
| acq_strong b c :
    blocks m !! b = Some c → _ref_count c ≠ 0 →
    acquired m
      (upd b (mk_block (wrap (_ref_count c + 1)) (_weak_count c) (_payload c)) m)
      [ev_ref_add b (_ref_count c)]
| acq_weak b c :
    blocks m !! b = Some c →
    acquired m
      (upd b (mk_block (_ref_count c) (wrap (_weak_count c + 1)) (_payload c)) m)
      [ev_weak_add b (_weak_count c)].

(** States a program can reach.  The bound on the length of the program
    stands for the finiteness of the address space: it keeps the number of
    handle objects below the number of values of [std::size_t]. *)
Definition reachable (s : state) : Prop :=
  ∃ p tr, run p init = Some (s, tr) ∧ Z.of_nat (length p) < size_modulus - 1.

(** ** Traces *)

(** How often an event occurs in a trace. *)
Definition occurrences (e : event) (tr : list event) : nat :=
  length (filter (λ x, x = e) tr).

(** What the trace of a program says about the state it has reached:
    deallocated blocks and buffers stay deallocated and were deallocated
    once; allocated ones are still there or have a deallocation event. *)
Record trace_ok (s : state) (tr : list event) : Prop := mk_trace_ok {
  tr_block_gone : ∀ b, ev_delete_block b ∈ tr →
    blocks (mem s) !! b = None ∧ (b < next (mem s))%nat;
  tr_block_once : ∀ b, (occurrences (ev_delete_block b) tr ≤ 1)%nat;
  tr_block_weak : ∀ b,
    occurrences (ev_delete_block b) tr = occurrences (ev_weak_sub b 1) tr;
  tr_block_new : ∀ b, ev_new_block b ∈ tr →
    is_Some (blocks (mem s) !! b) ∨ ev_delete_block b ∈ tr;
  tr_object_gone : ∀ b, ev_destroy_object b ∈ tr → ev_delete_block b ∈ tr;
  tr_object_once : ∀ b, (occurrences (ev_destroy_object b) tr ≤ 1)%nat;
  tr_array_gone : ∀ d, ev_delete_array d ∈ tr →
    (d < next (mem s))%nat ∧
    ∀ b c n, blocks (mem s) !! b = Some c → _payload c ≠ array_buffer (Some d) n;
  tr_array_once : ∀ d, (occurrences (ev_delete_array d) tr ≤ 1)%nat;
  tr_array_new : ∀ d, ev_new_array d ∈ tr →
    (∃ b c n, blocks (mem s) !! b = Some c ∧ _payload c = array_buffer (Some d) n) ∨
    ev_delete_array d ∈ tr
}.

(** ** Small concrete states, used as test inputs *)

(** After [arc<T> h0(args...);]. *)
Definition one_arc : state :=
  mk_state (mk_memory {[0%nat := mk_block 1 1 inline_object]} ∅ 1%nat)
    {[0%nat := Some 0%nat]} ∅.

(** After [arc<T> h0(args...); arc<T> h1(h0);]. *)
Definition two_arcs : state :=
  mk_state (mk_memory {[0%nat := mk_block 2 1 inline_object]} ∅ 1%nat)
    (<[1%nat := Some 0%nat]> {[0%nat := Some 0%nat]}) ∅.

(** After [arc<T> h0(args...); weak_arc<T> w0(h0);]. *)
Definition arc_and_weak : state :=
  mk_state (mk_memory {[0%nat := mk_block 1 2 inline_object]} ∅ 1%nat)
    {[0%nat := Some 0%nat]} {[0%nat := Some 0%nat]}.

(** After [arc<T> h0(args...); arc<T> h1(h0); weak_arc<T> w0(h0);
    weak_arc<T> w1;]. *)
Definition two_arcs_two_weaks : state :=
  mk_state (mk_memory {[0%nat := mk_block 2 2 inline_object]} ∅ 1%nat)
    (<[1%nat := Some 0%nat]> {[0%nat := Some 0%nat]})
    (<[1%nat := None]> {[0%nat := Some 0%nat]}).

(** ** Cloning programs *)

(** [arc<T> h(src_0); arc<T> h+1(src_1); ...]: one copy construction per
    entry of [srcs], into consecutively named new objects. *)
Fixpoint copies (h : nat) (srcs : list nat) : list op :=
  match srcs with
  | [] => []
  | src :: rest => op_arc_copy h src :: copies (S h) rest
  end.

(** Every copy is taken from the first handle [lo] or from a copy made
    before it. *)
Fixpoint valid_sources (lo h : nat) (srcs : list nat) : Prop :=
  match srcs with
  | [] => True
  | src :: rest => (lo ≤ src < h)%nat ∧ valid_sources lo (S h) rest
  end.

(** The statement that creates the first handle, for either
    specialisation. *)
Definition is_make (o : op) (h : nat) : Prop :=
  o = op_make_arc h ∨ ∃ n, o = op_make_arc_array h n.

(** ** Well-formed statements

    A statement respects the lifetimes of the handle objects when it
    constructs objects only under unused names and names only living
    objects otherwise. *)
Definition op_ok (o : op) (s : state) : Prop :=
  match o with
  | op_arc_default h | op_make_arc h | op_make_arc_array h _ => arcs s !! h = None
  | op_arc_copy h src | op_arc_move h src =>
      arcs s !! h = None ∧ is_Some (arcs s !! src)
  | op_arc_assign dst src | op_arc_move_assign dst src =>
      is_Some (arcs s !! dst) ∧ is_Some (arcs s !! src)
  | op_arc_destroy h => is_Some (arcs s !! h)
  | op_weak_default w => weaks s !! w = None
  | op_weak_from_arc w src => weaks s !! w = None ∧ is_Some (arcs s !! src)
  | op_weak_copy w src | op_weak_move w src =>
      weaks s !! w = None ∧ is_Some (weaks s !! src)
  | op_weak_assign dst src | op_weak_move_assign dst src =>
      is_Some (weaks s !! dst) ∧ is_Some (weaks s !! src)
  | op_weak_destroy w => is_Some (weaks s !! w)
  | op_lock h w => arcs s !! h = None ∧ is_Some (weaks s !! w)
  end.

(** ** Free functions, comparison, and classes of statements *)

(** The argument pack of [make_arc<T>(args...)], as far as it decides
    which constructor of [arc<T>] the direct-initialisation
    [arc<T>(std::forward<Args>(args)...)] selects. *)
Inductive pack : Type :=
| pack_empty                          (* [make_arc<T>()] *)
| pack_object                         (* arguments from which [T] is constructed *)
| pack_arc (other : option addr)      (* one [arc<T>] for which [arc(const arc&)] is selected *)
| pack_arc_rvalue (other : option addr).  (* one [arc<T>] rvalue: [arc(arc&&)] *)

(** [make_arc<T>(args...)]: [return arc<T>(std::forward<Args>(args)...);].
    With an empty pack both [arc()] and the constructor template
    [arc(Args&&...)] are candidates and the non-template [arc()] wins, so
    the result is a null handle.  With one [arc<T>] the copy or the move
    constructor is selected ahead of the template when the conversions are
    equally good or [T] cannot be constructed from it; after the move
    constructor the argument object is null, see [arc_move].  In all other
    cases the template allocates a control block.  The result is
    constructed in place. *)
Definition make_arc (p : pack) : M (option addr) :=
  match p with
  | pack_empty => ret arc_default
  | pack_object => arc_make
  | pack_arc other => arc_copy other
  | pack_arc_rvalue other => ret (arc_move other).1
  end.

(** [make_arc<T[]>(n)]: [return arc<T>(n);], where [arc<T[]>(std::size_t)]
    is the only constructor that takes a size. *)
Definition make_arc_array (n : Z) : M (option addr) := arc_make_array n.

(** [operator==(const arc& other)]: [return get() == other.get();], for
    [arc<T>] and for [arc<T[]>]. *)
Definition equal_object (this other : option addr) : bool :=
  bool_decide (get_object this = get_object other).

Definition equal_array (this other : option addr) : M bool :=
  let* p := get_array this in
  let* q := get_array other in
  ret (bool_decide (p = q)).

(** The statements that only involve [weak_arc] objects, apart from the
    [arc] a weak handle is constructed from. *)
Definition is_weak_op (o : op) : bool :=
  match o with
  | op_weak_default _ | op_weak_from_arc _ _ | op_weak_copy _ _ | op_weak_move _ _
  | op_weak_assign _ _ | op_weak_move_assign _ _ | op_weak_destroy _ => true
  | _ => false
  end.

(** Every live buffer is held by a control block. *)
Definition buffers_owned (m : memory) : Prop :=
  ∀ d, d ∈ buffers m →
    ∃ b c n, blocks m !! b = Some c ∧ _payload c = array_buffer (Some d) n.

(** After [arc<T[]> h0(3); arc<T[]> h1(2); arc<T[]> h2(h0);]. *)
Definition two_arrays : state :=
  mk_state
    (mk_memory
       (<[2%nat := mk_block 1 1 (array_buffer (Some 3%nat) 2)]>
          {[0%nat := mk_block 2 1 (array_buffer (Some 1%nat) 3)]})
       {[1%nat; 3%nat]} 4%nat)
    (<[2%nat := Some 0%nat]> (<[1%nat := Some 2%nat]> {[0%nat := Some 0%nat]})) ∅.

(** The events a [weak_arc] member function can produce: updates of the
    weak counter, and what [delete this] in [release_weak_ref] does. *)
Definition weak_event (e : event) : bool :=
  match e with
  | ev_weak_add _ _ | ev_weak_sub _ _ | ev_destroy_object _ | ev_delete_block _ => true
  | _ => false
  end.

(** A transition that leaves the strong side alone: the [arc] objects, the
    buffers, and the strong counter and the payload of every block to
    which an [arc] refers. *)
Definition strong_side_kept (s s' : state) (ev : list event) : Prop :=
  arcs s' = arcs s ∧ buffers (mem s') = buffers (mem s) ∧
  (∀ e, e ∈ ev → weak_event e = true) ∧
  (∀ b c, blocks (mem s) !! b = Some c → holders (arcs s) b ≠ 0%nat →
     (ev_destroy_object b ∉ ev) ∧ (ev_delete_block b ∉ ev) ∧
     ∃ c', blocks (mem s') !! b = Some c' ∧
           _ref_count c' = _ref_count c ∧ _payload c' = _payload c).

(** The events that only update a counter. *)
Definition counter_event (e : event) : bool :=
  match e with
  | ev_ref_add _ _ | ev_ref_sub _ _ | ev_weak_add _ _ | ev_weak_sub _ _ => true
  | _ => false
  end.

(** After [arc<T> h0(args...); arc<T> h1;]. *)
Definition arc_and_null : state :=
  mk_state (mk_memory {[0%nat := mk_block 1 1 inline_object]} ∅ 1%nat)
    (<[1%nat := None]> {[0%nat := Some 0%nat]}) ∅.

(** A transition that only updates weak counters: the handle objects of
    the strong side, the buffers, the set of allocated blocks, and the
    strong counter and payload of every block stay as they are. *)
Definition weak_counters_only (s s' : state) (ev : list event) : Prop :=
  arcs s' = arcs s ∧ buffers (mem s') = buffers (mem s) ∧
  (∀ e, e ∈ ev → ∃ b k, e = ev_weak_add b k ∨ e = ev_weak_sub b k) ∧
  (∀ b, match blocks (mem s) !! b, blocks (mem s') !! b with
        | Some c, Some c' => _ref_count c' = _ref_count c ∧ _payload c' = _payload c
        | None, None => True
        | _, _ => False
        end).

(** * Properties *)

Section holders.
Implicit Types (hs : gmap nat (option nat)) (h b : nat) (v : option nat).

Lemma holders_empty b : holders ∅ b = 0%nat.
Proof. unfold holders. by rewrite map_filter_empty, map_size_empty. Qed.

Lemma holders_delete hs h v b :
  hs !! h = Some v →
  holders hs b = (holders (delete h hs) b + ind (v = Some b))%nat.
Proof.
  intros Hh. unfold holders, ind. rewrite map_filter_delete.
  case_decide as Hv.
  - rewrite map_size_delete_Some; [|].
    + assert (size (filter (λ kv, kv.2 = Some b) hs) ≠ 0%nat); [|lia].
      apply (map_size_ne_0_lookup_2 _ h).
      exists v. by apply map_lookup_filter_Some.
    + exists v. by apply map_lookup_filter_Some.
  - rewrite map_size_delete_None; [lia|].
    apply map_lookup_filter_None. right. intros x Hx. simpl. congruence.
Qed.

Lemma holders_insert_fresh hs h v b :
  hs !! h = None →
  holders (<[h := v]> hs) b = (holders hs b + ind (v = Some b))%nat.
Proof.
  intros Hh.
  rewrite (holders_delete (<[h := v]> hs) h v b) by apply lookup_insert_eq.
  by rewrite delete_insert_id.
Qed.

Lemma holders_insert hs h v v' b :
  hs !! h = Some v →
  (holders (<[h := v']> hs) b + ind (v = Some b) =
   holders hs b + ind (v' = Some b))%nat.
Proof.
  intros Hh. rewrite (holders_delete hs h v b Hh).
  rewrite <- (insert_delete_eq hs).
  rewrite holders_insert_fresh by apply lookup_delete_eq. lia.
Qed.

Lemma holders_pos hs h b : hs !! h = Some (Some b) → (0 < holders hs b)%nat.
Proof.
  intros Hh. rewrite (holders_delete hs h (Some b) b Hh).
  unfold ind. rewrite decide_True by done. lia.
Qed.

Lemma holders_le_size hs b : (holders hs b ≤ size hs)%nat.
Proof. apply map_subseteq_size, map_filter_subseteq. Qed.

Lemma holders_exists hs b :
  holders hs b ≠ 0%nat → ∃ h, hs !! h = Some (Some b).
Proof.
  unfold holders. intros Hne.
  apply map_size_ne_0_lookup in Hne as [h [v Hv]].
  apply map_lookup_filter_Some in Hv as [Hv Heq]. simpl in Heq. subst v. eauto.
Qed.
End holders.

(** ** The control block methods, step by step *)

Lemma bind_ret {A B} (a : A) (k : A → M B) m : bind (ret a) k m = k a m.
Proof. unfold bind, ret. by destruct (k a m) as [[[??]?]|]. Qed.

Lemma bind_load {B} b c (k : control_block → M B) m :
  blocks m !! b = Some c → bind (load b) k m = k c m.
Proof. intros Hb. unfold bind, load. rewrite Hb. by destruct (k c m) as [[[??]?]|]. Qed.

Lemma bind_store {B} b c c0 (k : unit → M B) m :
  blocks m !! b = Some c0 → bind (store b c) k m = k tt (upd b c m).
Proof.
  intros Hb. unfold bind, store. rewrite Hb. fold (upd b c m).
  by destruct (k tt (upd b c m)) as [[[??]?]|].
Qed.

Lemma bind_emit {B} e (k : unit → M B) m :
  bind (emit e) k m = prefix_events [e] (k tt m).
Proof. done. Qed.

Lemma bind_delete_array {B} d (k : unit → M B) m :
  d ∈ buffers m →
  bind (delete_array d) k m =
    prefix_events [ev_delete_array d]
      (k tt (mk_memory (blocks m) (buffers m ∖ {[d]}) (next m))).
Proof. intros Hd. unfold bind, delete_array. by rewrite decide_True. Qed.

Lemma bind_assoc {A B C} (c : M A) (k : A → M B) (k' : B → M C) m :
  bind (bind c k) k' m = bind c (λ a, bind (k a) k') m.
Proof.
  unfold bind. destruct (c m) as [[[a m1] e1]|]; [|done].
  destruct (k a m1) as [[[b m2] e2]|]; [|done].
  destruct (k' b m2) as [[[c' m3] e3]|]; [|done].
  by rewrite app_assoc.
Qed.

Lemma upd_lookup b c m : blocks (upd b c m) !! b = Some c.
Proof. apply lookup_insert_eq. Qed.

Lemma wrap_small z : 0 ≤ z < size_modulus → wrap z = z.
Proof. intros. unfold wrap. by apply Z.mod_small. Qed.

Lemma add_ref_Some m b c :
  blocks m !! b = Some c →
  add_ref b m =
    Some (tt, upd b (mk_block (wrap (_ref_count c + 1)) (_weak_count c) (_payload c)) m,
          [ev_ref_add b (_ref_count c)]).
Proof.
  intros Hb. unfold add_ref.
  rewrite (bind_load _ _ _ _ Hb), (bind_store _ _ _ _ _ Hb). done.
Qed.

Lemma add_weak_ref_Some m b c :
  blocks m !! b = Some c →
  add_weak_ref b m =
    Some (tt, upd b (mk_block (_ref_count c) (wrap (_weak_count c + 1)) (_payload c)) m,
          [ev_weak_add b (_weak_count c)]).
Proof.
  intros Hb. unfold add_weak_ref.
  rewrite (bind_load _ _ _ _ Hb), (bind_store _ _ _ _ _ Hb). done.
Qed.

Lemma ref_count_Some m b c :
  blocks m !! b = Some c → ref_count b m = Some (_ref_count c, m, []).
Proof. intros Hb. unfold ref_count. by rewrite (bind_load _ _ _ _ Hb). Qed.

Lemma delete_this_Some m b c :
  blocks m !! b = Some c →
  owned_buffer (_payload c) ⊆ buffers m →
  delete_this b m =
    Some (tt, mk_memory (delete b (blocks m)) (buffers m ∖ owned_buffer (_payload c)) (next m),
          dtor_events b (_payload c) ++ [ev_delete_block b]).
Proof.
  intros Hb Hbuf. unfold delete_this. rewrite (bind_load _ _ _ _ Hb).
  destruct (_payload c) as [|[d|] n]; simpl in *.
  - unfold destroy_object_block. rewrite bind_emit. unfold free_block.
    rewrite Hb. simpl. by rewrite difference_empty_L.
  - rewrite bind_delete_array by set_solver. unfold free_block. simpl.
    by rewrite Hb.
  - rewrite bind_ret. unfold free_block. rewrite Hb.
    by rewrite difference_empty_L.
Qed.

Lemma release_weak_ref_keep m b c :
  blocks m !! b = Some c → _weak_count c ≠ 1 →
  release_weak_ref b m =
    Some (tt, upd b (mk_block (_ref_count c) (wrap (_weak_count c - 1)) (_payload c)) m,
          [ev_weak_sub b (_weak_count c)]).
Proof.
  intros Hb Hw. unfold release_weak_ref.
  rewrite (bind_load _ _ _ _ Hb), (bind_store _ _ _ _ _ Hb), bind_emit.
  apply Z.eqb_neq in Hw. by rewrite Hw.
Qed.

Lemma release_weak_ref_last m b c :
  blocks m !! b = Some c → _weak_count c = 1 →
  owned_buffer (_payload c) ⊆ buffers m →
  release_weak_ref b m =
    Some (tt, mk_memory (delete b (blocks m)) (buffers m ∖ owned_buffer (_payload c)) (next m),
          ev_weak_sub b 1 :: dtor_events b (_payload c) ++ [ev_delete_block b]).
Proof.
  intros Hb Hw Hbuf. unfold release_weak_ref.
  rewrite (bind_load _ _ _ _ Hb), (bind_store _ _ _ _ _ Hb), bind_emit.
  rewrite Hw. simpl.
  erewrite delete_this_Some; [|apply upd_lookup|done]. simpl.
  by rewrite delete_insert_eq.
Qed.

Lemma release_ref_keep m b c :
  blocks m !! b = Some c → _ref_count c ≠ 1 →
  release_ref b m =
    Some (tt, upd b (mk_block (wrap (_ref_count c - 1)) (_weak_count c) (_payload c)) m,
          [ev_ref_sub b (_ref_count c)]).
Proof.
  intros Hb Hr. unfold release_ref. rewrite (bind_load _ _ _ _ Hb).
  apply Z.eqb_neq in Hr.
  destruct (_payload c) eqn:Hp.
  - unfold release_ref_object.
    rewrite (bind_load _ _ _ _ Hb), (bind_store _ _ _ _ _ Hb), bind_emit.
    by rewrite Hr, Hp.
  - unfold release_ref_array.
    rewrite (bind_load _ _ _ _ Hb), (bind_store _ _ _ _ _ Hb), bind_emit.
    by rewrite Hr, Hp.
Qed.

Lemma release_ref_last m b c :
  blocks m !! b = Some c → _ref_count c = 1 →
  owned_buffer (_payload c) ⊆ buffers m →
  release_ref b m =
    prefix_events (ev_ref_sub b 1 :: drop_events (_payload c))
      (release_weak_ref b
         (mk_memory (<[b := mk_block 0 (_weak_count c) (dropped (_payload c))]> (blocks m))
                    (buffers m ∖ owned_buffer (_payload c)) (next m))).
Proof.
  intros Hb Hr Hbuf. unfold release_ref. rewrite (bind_load _ _ _ _ Hb).
  destruct (_payload c) as [|[d|] n] eqn:Hp; simpl in *.
  - unfold release_ref_object.
    rewrite (bind_load _ _ _ _ Hb), (bind_store _ _ _ _ _ Hb), bind_emit.
    rewrite Hr, Hp. simpl. change (wrap (1 - 1)) with 0. unfold upd.
    by rewrite difference_empty_L.
  - unfold release_ref_array.
    rewrite (bind_load _ _ _ _ Hb), (bind_store _ _ _ _ _ Hb), bind_emit.
    rewrite Hr, Hp. simpl. change (wrap (1 - 1)) with 0.
    rewrite bind_assoc, bind_delete_array by (simpl; set_solver).
    rewrite bind_assoc. erewrite bind_load by (simpl; apply lookup_insert_eq).
    erewrite bind_store by (simpl; apply lookup_insert_eq).
    unfold upd. simpl. rewrite insert_insert_eq.
    by destruct (release_weak_ref b _) as [[[[] m'] ev]|].
  - unfold release_ref_array.
    rewrite (bind_load _ _ _ _ Hb), (bind_store _ _ _ _ _ Hb), bind_emit.
    rewrite Hr, Hp. simpl. change (wrap (1 - 1)) with 0.
    rewrite bind_ret. unfold upd.
    by rewrite difference_empty_L.
Qed.

(** ** Preservation of the counting invariant *)

Lemma inv_block s b c :
  Inv s → blocks (mem s) !! b = Some c →
  _ref_count c = Z.of_nat (holders (arcs s) b) ∧
  _weak_count c = Z.of_nat (holders (weaks s) b + ind (holders (arcs s) b ≠ 0%nat)) ∧
  1 ≤ _weak_count c ∧
  _ref_count c < size_modulus ∧ _weak_count c < size_modulus ∧
  owned_buffer (_payload c) ⊆ buffers (mem s) ∧
  match _payload c with
  | inline_object => True
  | array_buffer (Some _) _ => holders (arcs s) b ≠ 0%nat
  | array_buffer None _ => holders (arcs s) b = 0%nat
  end.
Proof. intros [Hb _ _ _] Hc. specialize (Hb b). unfold block_ok in Hb. by rewrite Hc in Hb. Qed.

Lemma inv_arc_live s h b :
  Inv s → arcs s !! h = Some (Some b) → is_Some (blocks (mem s) !! b).
Proof.
  intros [Hb _ _ _] Hh. specialize (Hb b). unfold block_ok in Hb.
  destruct (blocks (mem s) !! b); [eauto|].
  apply holders_pos in Hh. lia.
Qed.

Lemma inv_weak_live s w b :
  Inv s → weaks s !! w = Some (Some b) → is_Some (blocks (mem s) !! b).
Proof.
  intros [Hb _ _ _] Hh. specialize (Hb b). unfold block_ok in Hb.
  destruct (blocks (mem s) !! b); [eauto|].
  apply holders_pos in Hh. lia.
Qed.

Lemma inv_frame s A' W' :
  Inv s →
  (∀ b, holders A' b = holders (arcs s) b ∧ holders W' b = holders (weaks s) b) →
  Inv (mk_state (mem s) A' W').
Proof.
  intros [Hblk Huniq Hfb Hfd] Hfr. split; simpl; try done.
  intros b. specialize (Hblk b). destruct (Hfr b) as [Ha Hw].
  unfold block_ok in *. simpl. by rewrite Ha, Hw.
Qed.

Lemma inv_upd s b c c' F' A' W' :
  Inv s → blocks (mem s) !! b = Some c →
  (∀ b', b' ≠ b →
     holders A' b' = holders (arcs s) b' ∧ holders W' b' = holders (weaks s) b') →
  F' ⊆ buffers (mem s) →
  buffers (mem s) ∖ F' ⊆ owned_buffer (_payload c) →
  owned_buffer (_payload c') ⊆ owned_buffer (_payload c) →
  block_ok (mk_state (mk_memory (<[b := c']> (blocks (mem s))) F' (next (mem s))) A' W') b →
  Inv (mk_state (mk_memory (<[b := c']> (blocks (mem s))) F' (next (mem s))) A' W').
Proof.
  intros HI Hc Hfr HF Hgone Hown Hok.
  pose proof HI as [Hblk Huniq Hfb Hfd]. split; simpl.
  - intros b'. destruct (decide (b' = b)) as [->|Hne]; [done|].
    specialize (Hblk b'). destruct (Hfr b' Hne) as [Ha Hw].
    unfold block_ok in *. simpl. rewrite lookup_insert_ne by done.
    rewrite Ha, Hw. destruct (blocks (mem s) !! b') as [c1|] eqn:Hc1; [|done].
    destruct Hblk as (? & ? & ? & ? & ? & Hbuf & ?). repeat split; try done.
    intros d Hd. destruct (decide (d ∈ F')) as [|Hnot]; [done|].
    exfalso. apply Hne. apply (Huniq b' b c1 c d); try done.
    apply Hgone. set_solver.
  - intros b1 b2 c1 c2 d H1 H2 Hd1 Hd2.
    assert (∀ bx cx, <[b := c']> (blocks (mem s)) !! bx = Some cx →
              d ∈ owned_buffer (_payload cx) →
              ∃ cy, blocks (mem s) !! bx = Some cy ∧ d ∈ owned_buffer (_payload cy)) as Hold.
    { intros bx cx Hx Hdx. destruct (decide (bx = b)) as [->|Hne].
      - rewrite lookup_insert_eq in Hx. simplify_eq. exists c. split; [done|]. set_solver.
      - rewrite lookup_insert_ne in Hx by done. eauto. }
    destruct (Hold _ _ H1 Hd1) as (cy1 & ? & ?).
    destruct (Hold _ _ H2 Hd2) as (cy2 & ? & ?).
    by apply (Huniq b1 b2 cy1 cy2 d).
  - intros b' c1 H1. destruct (decide (b' = b)) as [->|Hne].
    + by apply (Hfb b c).
    + rewrite lookup_insert_ne in H1 by done. by apply (Hfb b' c1).
  - intros d Hd. apply Hfd. set_solver.
Qed.

Lemma inv_free s b c F' A' W' :
  Inv s → blocks (mem s) !! b = Some c →
  (∀ b', b' ≠ b →
     holders A' b' = holders (arcs s) b' ∧ holders W' b' = holders (weaks s) b') →
  F' ⊆ buffers (mem s) →
  buffers (mem s) ∖ F' ⊆ owned_buffer (_payload c) →
  holders A' b = 0%nat → holders W' b = 0%nat →
  Inv (mk_state (mk_memory (delete b (blocks (mem s))) F' (next (mem s))) A' W').
Proof.
  intros HI Hc Hfr HF Hgone HA HW.
  pose proof HI as [Hblk Huniq Hfb Hfd]. split; simpl.
  - intros b'. unfold block_ok. simpl.
    destruct (decide (b' = b)) as [->|Hne].
    { by rewrite lookup_delete_eq. }
    specialize (Hblk b'). destruct (Hfr b' Hne) as [Ha Hw].
    unfold block_ok in *. rewrite lookup_delete_ne by done.
    rewrite Ha, Hw. destruct (blocks (mem s) !! b') as [c1|] eqn:Hc1; [|done].
    destruct Hblk as (? & ? & ? & ? & ? & Hbuf & ?). repeat split; try done.
    intros d Hd. destruct (decide (d ∈ F')) as [|Hnot]; [done|].
    exfalso. apply Hne. apply (Huniq b' b c1 c d); try done.
    apply Hgone. set_solver.
  - intros b1 b2 c1 c2 d H1 H2 Hd1 Hd2.
    apply lookup_delete_Some in H1 as [_ H1]. apply lookup_delete_Some in H2 as [_ H2].
    by apply (Huniq b1 b2 c1 c2 d).
  - intros b' c1 H1. apply lookup_delete_Some in H1 as [_ H1]. by apply (Hfb b' c1).
  - intros d Hd. apply Hfd. set_solver.
Qed.

Lemma inv_next_unused s :
  Inv s →
  blocks (mem s) !! next (mem s) = None ∧
  holders (arcs s) (next (mem s)) = 0%nat ∧ holders (weaks s) (next (mem s)) = 0%nat.
Proof.
  intros [Hblk _ Hfb _].
  assert (blocks (mem s) !! next (mem s) = None) as Hn.
  { destruct (blocks (mem s) !! next (mem s)) as [c|] eqn:Hc; [|done].
    apply Hfb in Hc. lia. }
  specialize (Hblk (next (mem s))). unfold block_ok in Hblk. rewrite Hn in Hblk.
  tauto.
Qed.

Lemma inv_new s c F' N' A' W' :
  Inv s →
  (∀ b', b' ≠ next (mem s) →
     holders A' b' = holders (arcs s) b' ∧ holders W' b' = holders (weaks s) b') →
  buffers (mem s) ⊆ F' → (next (mem s) < N')%nat →
  (∀ d, d ∈ F' → (d < N')%nat) →
  (∀ d, d ∈ owned_buffer (_payload c) → (d ∉ buffers (mem s)) ∧ (next (mem s) < d)%nat) →
  block_ok (mk_state (mk_memory (<[next (mem s) := c]> (blocks (mem s))) F' N') A' W')
    (next (mem s)) →
  Inv (mk_state (mk_memory (<[next (mem s) := c]> (blocks (mem s))) F' N') A' W').
Proof.
  intros HI Hfr HF HN HF' Hown Hok.
  pose proof (inv_next_unused _ HI) as (Hnone & _ & _).
  pose proof HI as [Hblk Huniq Hfb Hfd]. split; simpl.
  - intros b'. destruct (decide (b' = next (mem s))) as [->|Hne]; [done|].
    specialize (Hblk b'). destruct (Hfr b' Hne) as [Ha Hw].
    unfold block_ok in *. simpl. rewrite lookup_insert_ne by done.
    rewrite Ha, Hw. destruct (blocks (mem s) !! b') as [c1|] eqn:Hc1; [|done].
    destruct Hblk as (? & ? & ? & ? & ? & Hbuf & ?). repeat split; try done.
    set_solver.
  - intros b1 b2 c1 c2 d H1 H2 Hd1 Hd2.
    destruct (decide (b1 = next (mem s))) as [->|Hne1];
      destruct (decide (b2 = next (mem s))) as [->|Hne2]; try done.
    + rewrite lookup_insert_eq in H1. rewrite lookup_insert_ne in H2 by done.
      simplify_eq. destruct (Hown d Hd1) as [Hnot _]. exfalso. apply Hnot.
      pose proof (inv_block _ _ _ HI H2) as (_ & _ & _ & _ & _ & Hbuf & _). set_solver.
    + rewrite lookup_insert_eq in H2. rewrite lookup_insert_ne in H1 by done.
      simplify_eq. destruct (Hown d Hd2) as [Hnot _]. exfalso. apply Hnot.
      pose proof (inv_block _ _ _ HI H1) as (_ & _ & _ & _ & _ & Hbuf & _). set_solver.
    + rewrite lookup_insert_ne in H1, H2 by done. by apply (Huniq b1 b2 c1 c2 d).
  - intros b' c1 H1. destruct (decide (b' = next (mem s))) as [->|Hne]; [lia|].
    rewrite lookup_insert_ne in H1 by done. apply Hfb in H1. lia.
  - done.
Qed.

(** What [release_ref] and [release_weak_ref] do on a block that satisfies
    the invariant, with the wrap-around resolved. *)
Lemma release_weak_ref_inv s b c :
  Inv s → blocks (mem s) !! b = Some c →
  release_weak_ref b (mem s) =
    if decide (_weak_count c = 1)
    then Some (tt, mk_memory (delete b (blocks (mem s)))
                     (buffers (mem s) ∖ owned_buffer (_payload c)) (next (mem s)),
               ev_weak_sub b 1 :: dtor_events b (_payload c) ++ [ev_delete_block b])
    else Some (tt, upd b (mk_block (_ref_count c) (_weak_count c - 1) (_payload c)) (mem s),
               [ev_weak_sub b (_weak_count c)]).
Proof.
  intros HI Hc.
  pose proof (inv_block _ _ _ HI Hc) as (Hr & Hw & Hw1 & Hrlt & Hwlt & Hbuf & Hp).
  destruct (decide (_weak_count c = 1)) as [Hone|Hone].
  - by apply release_weak_ref_last.
  - rewrite (release_weak_ref_keep _ _ _ Hc Hone). by rewrite wrap_small by lia.
Qed.

Lemma release_ref_inv s b c :
  Inv s → blocks (mem s) !! b = Some c → holders (arcs s) b ≠ 0%nat →
  release_ref b (mem s) =
    if decide (_ref_count c = 1) then
      if decide (_weak_count c = 1) then
        Some (tt, mk_memory (delete b (blocks (mem s)))
                    (buffers (mem s) ∖ owned_buffer (_payload c)) (next (mem s)),
              ev_ref_sub b 1 :: drop_events (_payload c) ++
              ev_weak_sub b 1 :: dtor_events b (dropped (_payload c)) ++ [ev_delete_block b])
      else
        Some (tt, mk_memory
                    (<[b := mk_block 0 (_weak_count c - 1) (dropped (_payload c))]>
                       (blocks (mem s)))
                    (buffers (mem s) ∖ owned_buffer (_payload c)) (next (mem s)),
              ev_ref_sub b 1 :: drop_events (_payload c) ++ [ev_weak_sub b (_weak_count c)])
    else
      Some (tt, upd b (mk_block (_ref_count c - 1) (_weak_count c) (_payload c)) (mem s),
            [ev_ref_sub b (_ref_count c)]).
Proof.
  intros HI Hc Hpos.
  pose proof (inv_block _ _ _ HI Hc) as (Hr & Hw & Hw1 & Hrlt & Hwlt & Hbuf & Hp).
  destruct (decide (_ref_count c = 1)) as [Hone|Hone].
  - rewrite (release_ref_last _ _ _ Hc Hone Hbuf).
    assert (owned_buffer (dropped (_payload c)) = ∅) as Hd.
    { by destruct (_payload c) as [|[d|] n]. }
    destruct (decide (_weak_count c = 1)) as [Hwone|Hwone].
    + erewrite release_weak_ref_last; [|simpl; apply lookup_insert_eq|done|simpl; set_solver].
      simpl. rewrite delete_insert_eq, Hd, difference_empty_L. done.
    + erewrite release_weak_ref_keep; [|simpl; apply lookup_insert_eq|done].
      simpl. unfold upd. simpl. rewrite insert_insert_eq.
      by rewrite wrap_small by lia.
  - rewrite (release_ref_keep _ _ _ Hc Hone). by rewrite wrap_small by lia.
Qed.

Lemma dropped_owned p : owned_buffer (dropped p) = ∅.
Proof. by destruct p as [|[d|] n]. Qed.

Ltac frame_holders :=
  intros; unfold ind;
  repeat match goal with
  | |- context [holders (<[?h := ?v]> ?hs) ?b] =>
      rewrite (holders_insert_fresh hs h v b) by
        (first [done | by rewrite lookup_insert_ne by congruence | by rewrite lookup_delete_eq])
  | H : ?hs !! ?h = Some ?v |- context [holders (delete ?h ?hs) ?b] =>
      let E := fresh "E" in
      pose proof (holders_delete hs h v b H) as E;
      generalize dependent (holders (delete h hs) b); intros
  | H : ?hs !! ?h = Some ?v |- context [holders (<[?h := ?v']> ?hs) ?b] =>
      let E := fresh "E" in
      pose proof (holders_insert hs h v v' b H) as E;
      generalize dependent (holders (<[h := v']> hs) b); intros
  end;
  unfold ind in *; repeat case_decide; simplify_eq; try lia; try (split; lia).

Lemma inv_attach_strong s h b c :
  Inv s → arcs s !! h = None → blocks (mem s) !! b = Some c →
  holders (arcs s) b ≠ 0%nat →
  Z.of_nat (size (arcs s)) + 1 < size_modulus →
  Inv (mk_state (upd b (mk_block (wrap (_ref_count c + 1)) (_weak_count c) (_payload c)) (mem s))
         (<[h := Some b]> (arcs s)) (weaks s)).
Proof.
  intros HI Hh Hc Hpos Hbound.
  pose proof (inv_block _ _ _ HI Hc) as (Hr & Hw & Hw1 & Hrlt & Hwlt & Hbuf & Hp).
  pose proof (holders_le_size (arcs s) b) as Hle.
  unfold upd. eapply inv_upd; try done.
  - frame_holders.
  - set_solver.
  - unfold block_ok. simpl. rewrite lookup_insert_eq. simpl.
    rewrite wrap_small by lia.
    rewrite holders_insert_fresh by done. unfold ind in *.
    rewrite decide_True by done.
    repeat case_decide; try lia.
    repeat split; try lia; try done.
    destruct (_payload c) as [|[d|] n]; try done; lia.
Qed.

Lemma inv_attach_weak s w b c :
  Inv s → weaks s !! w = None → blocks (mem s) !! b = Some c →
  Z.of_nat (size (weaks s)) + 2 < size_modulus →
  Inv (mk_state (upd b (mk_block (_ref_count c) (wrap (_weak_count c + 1)) (_payload c)) (mem s))
         (arcs s) (<[w := Some b]> (weaks s))).
Proof.
  intros HI Hh Hc Hbound.
  pose proof (inv_block _ _ _ HI Hc) as (Hr & Hw & Hw1 & Hrlt & Hwlt & Hbuf & Hp).
  pose proof (holders_le_size (weaks s) b) as Hle.
  unfold upd. eapply inv_upd; try done.
  - frame_holders.
  - set_solver.
  - unfold block_ok. simpl. rewrite lookup_insert_eq. simpl.
    unfold ind in *.
    rewrite wrap_small by (case_decide; lia).
    rewrite holders_insert_fresh by done. unfold ind in *.
    rewrite (decide_True (P := Some b = Some b)) by done.
    repeat case_decide; try lia; repeat split; try lia; try done.
Qed.

Lemma inv_detach_strong s h b m' ev :
  Inv s → arcs s !! h = Some (Some b) →
  release_ref b (mem s) = Some (tt, m', ev) →
  Inv (mk_state m' (delete h (arcs s)) (weaks s)).
Proof.
  intros HI Hh Hrel.
  destruct (inv_arc_live _ _ _ HI Hh) as [c Hc].
  pose proof (holders_pos _ _ _ Hh) as Hpos.
  pose proof (inv_block _ _ _ HI Hc) as (Hr & Hw & Hw1 & Hrlt & Hwlt & Hbuf & Hp).
  pose proof (holders_delete _ _ _ b Hh) as Hdel. unfold ind in Hdel.
  rewrite decide_True in Hdel by done.
  rewrite (release_ref_inv _ _ _ HI Hc) in Hrel by lia.
  destruct (decide (_ref_count c = 1)) as [Hone|Hone];
    [destruct (decide (_weak_count c = 1)) as [Hwone|Hwone]|];
    simplify_eq.
  - eapply inv_free; try done.
    + frame_holders.
    + set_solver.
    + set_solver.
    + lia.
    + unfold ind in Hw. case_decide; lia.
  - eapply inv_upd; try done.
    + frame_holders.
    + set_solver.
    + set_solver.
    + simpl. rewrite dropped_owned. set_solver.
    + unfold block_ok. simpl. rewrite lookup_insert_eq. simpl.
      rewrite dropped_owned. unfold ind in *.
      repeat case_decide; try lia.
      repeat split; try lia; try set_solver.
      destruct (_payload c) as [|[d|] n]; simpl; try done; lia.
  - unfold upd. eapply inv_upd; try done.
    + frame_holders.
    + set_solver.
    + unfold block_ok. simpl. rewrite lookup_insert_eq. simpl.
      unfold ind in *.
      repeat case_decide; try lia; repeat split; try lia; try done.
      destruct (_payload c) as [|[d|] n]; simpl; try done; lia.
Qed.

Lemma inv_detach_weak s w b m' ev :
  Inv s → weaks s !! w = Some (Some b) →
  release_weak_ref b (mem s) = Some (tt, m', ev) →
  Inv (mk_state m' (arcs s) (delete w (weaks s))).
Proof.
  intros HI Hh Hrel.
  destruct (inv_weak_live _ _ _ HI Hh) as [c Hc].
  pose proof (holders_pos _ _ _ Hh) as Hpos.
  pose proof (inv_block _ _ _ HI Hc) as (Hr & Hw & Hw1 & Hrlt & Hwlt & Hbuf & Hp).
  pose proof (holders_delete _ _ _ b Hh) as Hdel. unfold ind in Hdel.
  rewrite decide_True in Hdel by done.
  rewrite (release_weak_ref_inv _ _ _ HI Hc) in Hrel.
  destruct (decide (_weak_count c = 1)) as [Hwone|Hwone]; simplify_eq.
  - eapply inv_free; try done.
    + frame_holders.
    + set_solver.
    + set_solver.
    + unfold ind in Hw. case_decide; lia.
    + unfold ind in Hw. case_decide; lia.
  - unfold upd. eapply inv_upd; try done.
    + frame_holders.
    + set_solver.
    + unfold block_ok. simpl. rewrite lookup_insert_eq. simpl.
      unfold ind in *.
      repeat case_decide; try lia; repeat split; try lia; try done.
Qed.

Lemma inv_init : Inv init.
Proof.
  split; simpl; done.
Qed.

(** ** Statements, one by one *)

Lemma exec_Some {A} (c : M A) s k s' ev :
  exec c s k = Some (s', ev) → ∃ a m, c (mem s) = Some (a, m, ev) ∧ s' = k a m.
Proof.
  unfold exec. destruct (c (mem s)) as [[[a m] e]|]; [|done].
  intros ?; simplify_eq. eauto.
Qed.

Lemma state_eta s : mk_state (mem s) (arcs s) (weaks s) = s.
Proof. by destruct s. Qed.

Lemma arc_copy_Some b c m :
  blocks m !! b = Some c →
  arc_copy (Some b) m =
    Some (Some b, upd b (mk_block (wrap (_ref_count c + 1)) (_weak_count c) (_payload c)) m,
          [ev_ref_add b (_ref_count c)]).
Proof. intros Hc. unfold arc_copy, bind. by rewrite (add_ref_Some _ _ _ Hc). Qed.

Lemma arc_copy_undefined b m : blocks m !! b = None → arc_copy (Some b) m = None.
Proof. intros Hc. unfold arc_copy, add_ref, bind, load. by rewrite Hc. Qed.

Lemma arc_from_block_copy blk : arc_from_block blk = arc_copy blk.
Proof. done. Qed.

Lemma weak_copy_Some b c m :
  blocks m !! b = Some c →
  weak_copy (Some b) m =
    Some (Some b, upd b (mk_block (_ref_count c) (wrap (_weak_count c + 1)) (_payload c)) m,
          [ev_weak_add b (_weak_count c)]).
Proof. intros Hc. unfold weak_copy, bind. by rewrite (add_weak_ref_Some _ _ _ Hc). Qed.

Lemma weak_copy_undefined b m : blocks m !! b = None → weak_copy (Some b) m = None.
Proof. intros Hc. unfold weak_copy, add_weak_ref, bind, load. by rewrite Hc. Qed.

Lemma lock_Some b c m :
  blocks m !! b = Some c →
  lock (Some b) m =
    if 0 <? _ref_count c
    then Some (Some b,
               upd b (mk_block (wrap (_ref_count c + 1)) (_weak_count c) (_payload c)) m,
               [ev_ref_add b (_ref_count c)])
    else Some (None, m, []).
Proof.
  intros Hc. unfold lock, lock_check.
  rewrite bind_assoc. unfold ref_count. rewrite bind_assoc, (bind_load _ _ _ _ Hc).
  rewrite !bind_ret. unfold lock_construct.
  destruct (0 <? _ref_count c); [|done].
  rewrite arc_from_block_copy. by apply arc_copy_Some.
Qed.

Lemma lock_null m : lock None m = Some (None, m, []).
Proof. done. Qed.

Lemma step_arc_assign_self s h :
  step (op_arc_assign h h) s =
    match arcs s !! h with Some _ => Some (s, []) | None => None end.
Proof.
  simpl. unfold arc_assign. destruct (arcs s !! h) as [this|] eqn:Hh; [|done].
  by rewrite bool_decide_eq_true_2.
Qed.

Lemma step_arc_move_assign_self s h :
  step (op_arc_move_assign h h) s =
    match arcs s !! h with Some _ => Some (s, []) | None => None end.
Proof.
  simpl. unfold arc_move_assign. destruct (arcs s !! h) as [this|] eqn:Hh; [|done].
  by rewrite bool_decide_eq_true_2.
Qed.

Lemma step_weak_assign_self s h :
  step (op_weak_assign h h) s =
    match weaks s !! h with Some _ => Some (s, []) | None => None end.
Proof.
  simpl. unfold weak_assign. destruct (weaks s !! h) as [this|] eqn:Hh; [|done].
  by rewrite bool_decide_eq_true_2.
Qed.

Lemma step_weak_move_assign_self s h :
  step (op_weak_move_assign h h) s =
    match weaks s !! h with Some _ => Some (s, []) | None => None end.
Proof.
  simpl. unfold weak_move_assign. destruct (weaks s !! h) as [this|] eqn:Hh; [|done].
  by rewrite bool_decide_eq_true_2.
Qed.

(** Assignment between distinct objects is destruction of the target
    followed by construction in its place. *)
Lemma step_arc_assign_ne s dst src :
  dst ≠ src →
  step (op_arc_assign dst src) s = run [op_arc_destroy dst; op_arc_copy dst src] s.
Proof.
  intros Hne. simpl. unfold arc_assign, exec.
  destruct (arcs s !! dst) as [this|] eqn:Hd; [|done].
  rewrite bool_decide_eq_false_2 by done.
  destruct (arc_destroy this (mem s)) as [[[[] m1] e1]|]; [|done]. simpl.
  rewrite lookup_delete_eq, lookup_delete_ne by done.
  destruct (arcs s !! src) as [[b|]|] eqn:Hs; [| |done].
  - unfold arc_copy, bind, ret.
    destruct (add_ref b m1) as [[[[] m2] e2]|]; [|done]. simpl.
    by rewrite insert_delete_eq, !app_nil_r.
  - simpl. by rewrite insert_delete_eq, !app_nil_r.
Qed.

Lemma step_arc_move_assign_ne s dst src :
  dst ≠ src →
  step (op_arc_move_assign dst src) s = run [op_arc_destroy dst; op_arc_move dst src] s.
Proof.
  intros Hne. simpl. unfold arc_move_assign, exec.
  destruct (arcs s !! dst) as [this|] eqn:Hd; [|done].
  rewrite bool_decide_eq_false_2 by done.
  destruct (arc_destroy this (mem s)) as [[[[] m1] e1]|]; [|done]. simpl.
  rewrite lookup_delete_eq, lookup_delete_ne by done.
  destruct (arcs s !! src) as [other|] eqn:Hs; [|done]. simpl.
  rewrite <- delete_insert_ne by done.
  by rewrite insert_delete_eq, !app_nil_r.
Qed.

Lemma step_weak_assign_ne s dst src :
  dst ≠ src →
  step (op_weak_assign dst src) s = run [op_weak_destroy dst; op_weak_copy dst src] s.
Proof.
  intros Hne. simpl. unfold weak_assign, exec.
  destruct (weaks s !! dst) as [this|] eqn:Hd; [|done].
  rewrite bool_decide_eq_false_2 by done.
  destruct (weak_destroy this (mem s)) as [[[[] m1] e1]|]; [|done]. simpl.
  rewrite lookup_delete_eq, lookup_delete_ne by done.
  destruct (weaks s !! src) as [[b|]|] eqn:Hs; [| |done].
  - unfold weak_copy, bind, ret.
    destruct (add_weak_ref b m1) as [[[[] m2] e2]|]; [|done]. simpl.
    by rewrite insert_delete_eq, !app_nil_r.
  - simpl. by rewrite insert_delete_eq, !app_nil_r.
Qed.

Lemma step_weak_move_assign_ne s dst src :
  dst ≠ src →
  step (op_weak_move_assign dst src) s = run [op_weak_destroy dst; op_weak_move dst src] s.
Proof.
  intros Hne. simpl. unfold weak_move_assign, exec.
  destruct (weaks s !! dst) as [this|] eqn:Hd; [|done].
  rewrite bool_decide_eq_false_2 by done.
  destruct (weak_destroy this (mem s)) as [[[[] m1] e1]|]; [|done]. simpl.
  rewrite lookup_delete_eq, lookup_delete_ne by done.
  destruct (weaks s !! src) as [other|] eqn:Hs; [|done]. simpl.
  rewrite <- delete_insert_ne by done.
  by rewrite insert_delete_eq, !app_nil_r.
Qed.

Lemma step_inv_arc_destroy s h s' ev :
  Inv s → step (op_arc_destroy h) s = Some (s', ev) → Inv s'.
Proof.
  intros HI Hstep. simpl in Hstep.
  destruct (arcs s !! h) as [[b|]|] eqn:Hh; [| |done].
  - apply exec_Some in Hstep as ([] & m & Hrel & ->). simpl in Hrel.
    by eapply inv_detach_strong.
  - apply exec_Some in Hstep as ([] & m & Hrel & ->).
    unfold arc_destroy, ret in Hrel. simplify_eq.
    apply inv_frame; [done|]. frame_holders.
Qed.

Lemma step_inv_weak_destroy s w s' ev :
  Inv s → step (op_weak_destroy w) s = Some (s', ev) → Inv s'.
Proof.
  intros HI Hstep. simpl in Hstep.
  destruct (weaks s !! w) as [[b|]|] eqn:Hh; [| |done].
  - apply exec_Some in Hstep as ([] & m & Hrel & ->). simpl in Hrel.
    by eapply inv_detach_weak.
  - apply exec_Some in Hstep as ([] & m & Hrel & ->).
    unfold weak_destroy, ret in Hrel. simplify_eq.
    apply inv_frame; [done|]. frame_holders.
Qed.

Lemma step_inv_arc_copy s h src s' ev :
  Inv s → step (op_arc_copy h src) s = Some (s', ev) → bounded s' → Inv s'.
Proof.
  intros HI Hstep Hbnd. simpl in Hstep.
  destruct (arcs s !! h) eqn:Hh; [done|].
  destruct (arcs s !! src) as [[b|]|] eqn:Hs; [| |done].
  - destruct (inv_arc_live _ _ _ HI Hs) as [c Hc].
    apply exec_Some in Hstep as (blk & m & Hcp & ->).
    rewrite (arc_copy_Some _ _ _ Hc) in Hcp. simplify_eq.
    unfold bounded in Hbnd. simpl in Hbnd.
    rewrite map_size_insert_None in Hbnd by done.
    apply inv_attach_strong; try done.
    + apply holders_pos in Hs. lia.
    + lia.
  - apply exec_Some in Hstep as (blk & m & Hcp & ->).
    unfold arc_copy, ret in Hcp. simplify_eq.
    apply inv_frame; [done|]. frame_holders.
Qed.

Lemma step_inv_arc_move s h src s' ev :
  Inv s → step (op_arc_move h src) s = Some (s', ev) → Inv s'.
Proof.
  intros HI Hstep. simpl in Hstep.
  destruct (arcs s !! h) eqn:Hh; [done|].
  destruct (arcs s !! src) as [other|] eqn:Hs; [|done].
  simplify_eq. apply inv_frame; [done|].
  assert (h ≠ src) by congruence.
  intros b. split; [|done].
  rewrite holders_insert_fresh by (by rewrite lookup_insert_ne).
  pose proof (holders_insert _ _ _ None b Hs) as E.
  unfold ind in *. repeat case_decide; simplify_eq; lia.
Qed.

Lemma step_inv_weak_copy s w src s' ev :
  Inv s → step (op_weak_copy w src) s = Some (s', ev) → bounded s' → Inv s'.
Proof.
  intros HI Hstep Hbnd. simpl in Hstep.
  destruct (weaks s !! w) eqn:Hh; [done|].
  destruct (weaks s !! src) as [[b|]|] eqn:Hs; [| |done].
  - destruct (inv_weak_live _ _ _ HI Hs) as [c Hc].
    apply exec_Some in Hstep as (blk & m & Hcp & ->).
    rewrite (weak_copy_Some _ _ _ Hc) in Hcp. simplify_eq.
    unfold bounded in Hbnd. simpl in Hbnd.
    rewrite map_size_insert_None in Hbnd by done.
    apply inv_attach_weak; try done. lia.
  - apply exec_Some in Hstep as (blk & m & Hcp & ->).
    unfold weak_copy, ret in Hcp. simplify_eq.
    apply inv_frame; [done|]. frame_holders.
Qed.

Lemma step_inv_weak_move s w src s' ev :
  Inv s → step (op_weak_move w src) s = Some (s', ev) → Inv s'.
Proof.
  intros HI Hstep. simpl in Hstep.
  destruct (weaks s !! w) eqn:Hh; [done|].
  destruct (weaks s !! src) as [other|] eqn:Hs; [|done].
  simplify_eq. apply inv_frame; [done|].
  assert (w ≠ src) by congruence.
  intros b. split; [done|].
  rewrite holders_insert_fresh by (by rewrite lookup_insert_ne).
  pose proof (holders_insert _ _ _ None b Hs) as E.
  unfold ind in *. repeat case_decide; simplify_eq; lia.
Qed.

Lemma step_handles o s s' ev :
  step o s = Some (s', ev) → (handles s' ≤ handles s + 1)%nat.
Proof.
  unfold handles.
  assert (∀ (hs : gmap nat (option nat)) h v, (size (<[h := v]> hs) ≤ size hs + 1)%nat) as Hins.
  { intros hs h v. destruct (hs !! h) eqn:E.
    - rewrite map_size_insert_Some by eauto. lia.
    - rewrite map_size_insert_None by done. lia. }
  assert (∀ (hs : gmap nat (option nat)) h v, is_Some (hs !! h) →
            size (<[h := v]> hs) = size hs) as Hins'.
  { intros hs h v ?. by rewrite map_size_insert_Some. }
  assert (∀ (hs : gmap nat (option nat)) h, (size (delete h hs) ≤ size hs)%nat) as Hdel.
  { intros hs h. apply map_subseteq_size, delete_subseteq. }
  intros Hstep. destruct o; simpl in Hstep;
    unfold arc_assign, arc_move_assign, weak_assign, weak_move_assign in Hstep;
    simpl in Hstep;
    repeat match type of Hstep with
    | context [match ?x !! ?k with _ => _ end] => destruct (x !! k) as [[?|]|] eqn:?; try done
    | context [bool_decide ?P] => destruct (bool_decide P); try done
    | context [match arc_destroy ?b ?m with _ => _ end] =>
        destruct (arc_destroy b m) as [[[[] ?] ?]|]; try done
    | context [match weak_destroy ?b ?m with _ => _ end] =>
        destruct (weak_destroy b m) as [[[[] ?] ?]|]; try done
    | context [match add_ref ?b ?m with _ => _ end] =>
        destruct (add_ref b m) as [[[[] ?] ?]|]; try done
    | context [match add_weak_ref ?b ?m with _ => _ end] =>
        destruct (add_weak_ref b m) as [[[[] ?] ?]|]; try done
    | context [ret () ?m] => unfold ret in Hstep
    end;
    try (apply exec_Some in Hstep as (? & ? & _ & ->)); simplify_eq; simpl;
    repeat match goal with
    | |- context [size (<[?h := ?v]> ?hs)] =>
        first [rewrite (Hins' hs h v) by (first [by eauto | apply lookup_insert_is_Some'; eauto])
              | pose proof (Hins hs h v); generalize dependent (size (<[h := v]> hs)); intros]
    | H : context [size (<[?h := ?v]> ?hs)] |- _ =>
        rewrite (Hins' hs h v) in H by eauto
    | |- context [size (delete ?h ?hs)] =>
        pose proof (Hdel hs h); generalize dependent (size (delete h hs)); intros
    end; try lia.
Qed.

Lemma arc_make_eq m :
  arc_make m =
    Some (Some (next m),
          mk_memory (<[next m := mk_block 1 1 inline_object]> (blocks m)) (buffers m)
            (S (next m)),
          [ev_new_block (next m)]).
Proof. done. Qed.

Lemma arc_make_array_eq n m :
  arc_make_array n m =
    Some (Some (next m),
          mk_memory (<[next m := mk_block 1 1 (array_buffer (Some (S (next m))) n)]> (blocks m))
            ({[S (next m)]} ∪ buffers m) (S (S (next m))),
          [ev_new_block (next m); ev_new_array (S (next m))]).
Proof.
  unfold arc_make_array, new_array_control_block, bind, alloc_block, alloc_array, store, ret.
  simpl. rewrite lookup_insert_eq. simpl. by rewrite insert_insert_eq.
Qed.

Lemma run_cons o p s :
  run (o :: p) s =
    match step o s with
    | Some (s1, e1) =>
        match run p s1 with
        | Some (s2, e2) => Some (s2, e1 ++ e2)
        | None => None
        end
    | None => None
    end.
Proof. done. Qed.

Lemma run_two o1 o2 s s' ev :
  run [o1; o2] s = Some (s', ev) →
  ∃ s1 e1 e2, step o1 s = Some (s1, e1) ∧ step o2 s1 = Some (s', e2) ∧ ev = e1 ++ e2.
Proof.
  simpl. destruct (step o1 s) as [[s1 e1]|]; [|done].
  destruct (step o2 s1) as [[s2 e2]|] eqn:H2; [|done].
  intros ?; simplify_eq. rewrite app_nil_r.
  by exists s1, e1, e2.
Qed.

Lemma step_inv o s s' ev :
  Inv s → step o s = Some (s', ev) → bounded s' → Inv s'.
Proof.
  intros HI Hstep Hbnd. destruct o.
  - (* arc_default *)
    simpl in Hstep. destruct (arcs s !! h) eqn:Hh; [done|]. simplify_eq.
    apply inv_frame; [done|]. frame_holders.
  - (* make_arc *)
    simpl in Hstep. destruct (arcs s !! h) eqn:Hh; [done|].
    apply exec_Some in Hstep as (blk & m & Hmk & ->).
    rewrite arc_make_eq in Hmk. simplify_eq.
    destruct (inv_next_unused _ HI) as (Hnone & Ha0 & Hw0).
    apply inv_new; simpl.
    + done.
    + frame_holders.
    + done.
    + lia.
    + intros d Hd. apply (inv_fresh_buffers _ HI) in Hd. lia.
    + set_solver.
    + unfold block_ok. simpl. rewrite lookup_insert_eq. simpl.
      rewrite holders_insert_fresh by done. rewrite Ha0, Hw0. unfold ind.
      repeat case_decide; try done; try lia.
      all: unfold size_modulus; repeat split; try lia; set_solver.
  - (* make_arc_array *)
    simpl in Hstep. destruct (arcs s !! h) eqn:Hh; [done|].
    apply exec_Some in Hstep as (blk & m & Hmk & ->).
    rewrite arc_make_array_eq in Hmk. simplify_eq.
    destruct (inv_next_unused _ HI) as (Hnone & Ha0 & Hw0).
    apply inv_new; simpl.
    + done.
    + frame_holders.
    + set_solver.
    + lia.
    + intros d Hd. apply elem_of_union in Hd as [Hd|Hd].
      * apply elem_of_singleton in Hd. lia.
      * apply (inv_fresh_buffers _ HI) in Hd. lia.
    + intros d Hd. apply elem_of_singleton in Hd. subst d. split; [|lia].
      intros Hd. apply (inv_fresh_buffers _ HI) in Hd. lia.
    + unfold block_ok. simpl. rewrite lookup_insert_eq. simpl.
      rewrite holders_insert_fresh by done. rewrite Ha0, Hw0. unfold ind.
      repeat case_decide; try done; try lia.
      all: unfold size_modulus; repeat split; try lia; set_solver.
  - by eapply step_inv_arc_copy.
  - by eapply step_inv_arc_move.
  - (* arc_assign *)
    destruct (decide (dst = src)) as [->|Hne].
    + rewrite step_arc_assign_self in Hstep.
      destruct (arcs s !! src); by simplify_eq.
    + rewrite step_arc_assign_ne in Hstep by done.
      apply run_two in Hstep as (s1 & e1 & e2 & H1 & H2 & _).
      eapply step_inv_arc_copy; [|done..]. by eapply step_inv_arc_destroy.
  - (* arc_move_assign *)
    destruct (decide (dst = src)) as [->|Hne].
    + rewrite step_arc_move_assign_self in Hstep.
      destruct (arcs s !! src); by simplify_eq.
    + rewrite step_arc_move_assign_ne in Hstep by done.
      apply run_two in Hstep as (s1 & e1 & e2 & H1 & H2 & _).
      eapply step_inv_arc_move; [|done..]. by eapply step_inv_arc_destroy.
  - by eapply step_inv_arc_destroy.
  - (* weak_default *)
    simpl in Hstep. destruct (weaks s !! w) eqn:Hh; [done|]. simplify_eq.
    apply inv_frame; [done|]. frame_holders.
  - (* weak_from_arc *)
    simpl in Hstep.
    destruct (weaks s !! w) eqn:Hh; [done|].
    destruct (arcs s !! src) as [[b|]|] eqn:Hs; [| |done].
    + destruct (inv_arc_live _ _ _ HI Hs) as [c Hc].
      apply exec_Some in Hstep as (blk & m & Hcp & ->).
      rewrite (weak_copy_Some _ _ _ Hc) in Hcp. simplify_eq.
      unfold bounded in Hbnd. simpl in Hbnd.
      rewrite map_size_insert_None in Hbnd by done.
      apply inv_attach_weak; try done. lia.
    + apply exec_Some in Hstep as (blk & m & Hcp & ->).
      unfold weak_copy, ret in Hcp. simplify_eq.
      apply inv_frame; [done|]. frame_holders.
  - by eapply step_inv_weak_copy.
  - by eapply step_inv_weak_move.
  - (* weak_assign *)
    destruct (decide (dst = src)) as [->|Hne].
    + rewrite step_weak_assign_self in Hstep.
      destruct (weaks s !! src); by simplify_eq.
    + rewrite step_weak_assign_ne in Hstep by done.
      apply run_two in Hstep as (s1 & e1 & e2 & H1 & H2 & _).
      eapply step_inv_weak_copy; [|done..]. by eapply step_inv_weak_destroy.
  - (* weak_move_assign *)
    destruct (decide (dst = src)) as [->|Hne].
    + rewrite step_weak_move_assign_self in Hstep.
      destruct (weaks s !! src); by simplify_eq.
    + rewrite step_weak_move_assign_ne in Hstep by done.
      apply run_two in Hstep as (s1 & e1 & e2 & H1 & H2 & _).
      eapply step_inv_weak_move; [|done..]. by eapply step_inv_weak_destroy.
  - by eapply step_inv_weak_destroy.
  - (* lock *)
    simpl in Hstep.
    destruct (arcs s !! h) eqn:Hh; [done|].
    destruct (weaks s !! w) as [[b|]|] eqn:Hs; [| |done].
    + destruct (inv_weak_live _ _ _ HI Hs) as [c Hc].
      apply exec_Some in Hstep as (blk & m & Hcp & ->).
      rewrite (lock_Some _ _ _ Hc) in Hcp.
      pose proof (inv_block _ _ _ HI Hc) as (Hr & _).
      destruct (0 <? _ref_count c) eqn:Hpos; simplify_eq.
      * apply Z.ltb_lt in Hpos.
        unfold bounded in Hbnd. simpl in Hbnd.
        rewrite map_size_insert_None in Hbnd by done.
        apply inv_attach_strong; try done; lia.
      * apply inv_frame; [done|]. frame_holders.
    + apply exec_Some in Hstep as (blk & m & Hcp & ->).
      rewrite lock_null in Hcp. simplify_eq.
      apply inv_frame; [done|]. frame_holders.
Qed.

Lemma run_inv p s s' ev :
  Inv s → run p s = Some (s', ev) →
  Z.of_nat (handles s + length p) < size_modulus - 1 →
  Inv s' ∧ (handles s' ≤ handles s + length p)%nat.
Proof.
  revert s ev. induction p as [|o p IH]; intros s ev HI Hrun Hbnd.
  - simpl in Hrun. simplify_eq. split; [done|]. simpl; lia.
  - rewrite run_cons in Hrun.
    destruct (step o s) as [[s1 e1]|] eqn:Hstep; [|done].
    destruct (run p s1) as [[s2 e2]|] eqn:Hrest; [|done]. simplify_eq.
    pose proof (step_handles _ _ _ _ Hstep) as Hsz. simpl in Hbnd.
    assert (Inv s1) as HI1.
    { eapply step_inv; [done..|]. unfold bounded. fold (handles s1). lia. }
    destruct (IH _ _ HI1 Hrest) as [HI2 Hsz2]; [lia|].
    split; [done|]. simpl. lia.
Qed.

(** ** Release and acquisition *)

Lemma step_phases o s s' ev :
  step o s = Some (s', ev) →
  ∃ s1 e1 e2, ev = e1 ++ e2 ∧
    ((s1 = s ∧ e1 = []) ∨ ∃ o1, is_release o1 = true ∧ step o1 s = Some (s1, e1)) ∧
    ((s' = s1 ∧ e2 = []) ∨ ∃ o2, is_acquire o2 = true ∧ step o2 s1 = Some (s', e2)).
Proof.
  intros Hstep.
  assert (is_acquire o = true ∨ is_release o = true ∨
          (∃ dst src, o = op_arc_assign dst src ∨ o = op_arc_move_assign dst src ∨
                      o = op_weak_assign dst src ∨ o = op_weak_move_assign dst src))
    as [Ha|[Hr|(dst & src & Ho)]].
  { destruct o; simpl; try (by left); try (by right; left); right; right;
      do 2 eexists;
      first [by left | by right; left | by right; right; left | by right; right; right]. }
  - exists s, [], ev. split; [done|]. split; [by left|]. right. eauto.
  - exists s', ev, []. rewrite app_nil_r. split; [done|]. split; [|by left]. right. eauto.
  - destruct (decide (dst = src)) as [->|Hne].
    + exists s, [], ev. split; [done|]. split; [by left|]. left.
      destruct Ho as [-> | [-> | [-> | ->]]].
      * rewrite step_arc_assign_self in Hstep. destruct (arcs s !! src); by simplify_eq.
      * rewrite step_arc_move_assign_self in Hstep. destruct (arcs s !! src); by simplify_eq.
      * rewrite step_weak_assign_self in Hstep. destruct (weaks s !! src); by simplify_eq.
      * rewrite step_weak_move_assign_self in Hstep. destruct (weaks s !! src); by simplify_eq.
    + destruct Ho as [-> | [-> | [-> | ->]]].
      * rewrite step_arc_assign_ne in Hstep by done.
        apply run_two in Hstep as (s1 & e1 & e2 & H1 & H2 & ->).
        exists s1, e1, e2. split; [done|]. split; right; eexists; (split; [|done]); done.
      * rewrite step_arc_move_assign_ne in Hstep by done.
        apply run_two in Hstep as (s1 & e1 & e2 & H1 & H2 & ->).
        exists s1, e1, e2. split; [done|]. split; right; eexists; (split; [|done]); done.
      * rewrite step_weak_assign_ne in Hstep by done.
        apply run_two in Hstep as (s1 & e1 & e2 & H1 & H2 & ->).
        exists s1, e1, e2. split; [done|]. split; right; eexists; (split; [|done]); done.
      * rewrite step_weak_move_assign_ne in Hstep by done.
        apply run_two in Hstep as (s1 & e1 & e2 & H1 & H2 & ->).
        exists s1, e1, e2. split; [done|]. split; right; eexists; (split; [|done]); done.
Qed.

Lemma release_released o s s' ev :
  Inv s → is_release o = true → step o s = Some (s', ev) → released s (mem s') ev.
Proof.
  intros HI Hrel Hstep. destruct o; try done; simpl in Hstep.
  - destruct (arcs s !! h) as [[b|]|] eqn:Hh; [| |done].
    + apply exec_Some in Hstep as ([] & m & Hr & ->). simpl in *.
      destruct (inv_arc_live _ _ _ HI Hh) as [c Hc].
      pose proof (holders_pos _ _ _ Hh) as Hpos.
      rewrite (release_ref_inv _ _ _ HI Hc) in Hr by lia.
      destruct (decide (_ref_count c = 1)) as [Hone|Hone];
        [destruct (decide (_weak_count c = 1)) as [Hwone|Hwone]|]; simplify_eq.
      * apply rel_strong_free; try done; lia.
      * apply rel_strong_last; try done; lia.
      * apply rel_strong; try done; lia.
    + apply exec_Some in Hstep as ([] & m & Hr & ->).
      unfold arc_destroy, ret in Hr. simplify_eq. simpl. constructor.
  - destruct (weaks s !! w) as [[b|]|] eqn:Hh; [| |done].
    + apply exec_Some in Hstep as ([] & m & Hr & ->). simpl in *.
      destruct (inv_weak_live _ _ _ HI Hh) as [c Hc].
      pose proof (holders_pos _ _ _ Hh) as Hpos.
      pose proof (inv_block _ _ _ HI Hc) as (Hrc & Hw & Hw1 & Hrlt & Hwlt & Hbuf & Hp).
      rewrite (release_weak_ref_inv _ _ _ HI Hc) in Hr.
      destruct (decide (_weak_count c = 1)) as [Hwone|Hwone]; simplify_eq.
      * apply rel_weak_free; try done; try lia.
        unfold ind in Hw. case_decide; lia.
      * apply rel_weak; try done; lia.
    + apply exec_Some in Hstep as ([] & m & Hr & ->).
      unfold weak_destroy, ret in Hr. simplify_eq. simpl. constructor.
Qed.

Lemma lock_undefined b m : blocks m !! b = None → lock (Some b) m = None.
Proof. intros Hb. unfold lock, lock_check, ref_count, bind, load. by rewrite Hb. Qed.

Lemma acquire_acquired o s s' ev :
  Inv s → is_acquire o = true → step o s = Some (s', ev) →
  acquired (mem s) (mem s') ev.
Proof.
  intros HI Hacq Hstep.
  assert (∀ h b c, arcs s !! h = Some (Some b) → blocks (mem s) !! b = Some c →
            _ref_count c ≠ 0) as Hlive.
  { intros h b c Hh Hc. pose proof (inv_block _ _ _ HI Hc) as (Hr & _).
    apply holders_pos in Hh. lia. }
  destruct o; try done; simpl in Hstep;
    repeat match type of Hstep with
    | context [match ?x !! ?k with _ => _ end] => destruct (x !! k) as [[?|]|] eqn:?; try done
    end;
    try (apply exec_Some in Hstep as (? & ? & Hc & ->));
    simplify_eq; simpl; try (by constructor);
    try match type of Hc with
    | arc_make _ = _ => rewrite arc_make_eq in Hc
    | arc_make_array _ _ = _ => rewrite arc_make_array_eq in Hc
    | arc_copy (Some ?b) _ = _ =>
        destruct (blocks (mem s) !! b) as [c|] eqn:Hb;
        [rewrite (arc_copy_Some _ _ _ Hb) in Hc | by rewrite arc_copy_undefined in Hc]
    | weak_copy (Some ?b) _ = _ =>
        destruct (blocks (mem s) !! b) as [c|] eqn:Hb;
        [rewrite (weak_copy_Some _ _ _ Hb) in Hc | by rewrite weak_copy_undefined in Hc]
    | lock (Some ?b) _ = _ =>
        destruct (blocks (mem s) !! b) as [c|] eqn:Hb;
        [rewrite (lock_Some _ _ _ Hb) in Hc; destruct (0 <? _ref_count c) eqn:Hpos
        | by rewrite lock_undefined in Hc]
    | arc_copy None _ = _ => unfold arc_copy, ret in Hc
    | weak_copy None _ = _ => unfold weak_copy, ret in Hc
    | lock None _ = _ => rewrite lock_null in Hc
    end;
    simplify_eq; try (by constructor).
  - constructor; [done|]. by eapply Hlive.
  - constructor; [done|]. apply Z.ltb_lt in Hpos. lia.
Qed.

Lemma step_core o s s' ev :
  Inv s → step o s = Some (s', ev) →
  ∃ m1 e1 e2, ev = e1 ++ e2 ∧ released s m1 e1 ∧ acquired m1 (mem s') e2.
Proof.
  intros HI Hstep.
  apply step_phases in Hstep as (s1 & e1 & e2 & -> & Hrel & Hacq).
  exists (mem s1), e1, e2. split; [done|]. split.
  - destruct Hrel as [[-> ->]|(o1 & Ho1 & H1)]; [constructor|].
    by eapply release_released.
  - destruct Hacq as [[-> ->]|(o2 & Ho2 & H2)]; [constructor|].
    eapply acquire_acquired; [|done..].
    destruct Hrel as [[-> ->]|(o1 & Ho1 & H1)]; [done|].
    destruct o1; try done.
    + by eapply step_inv_arc_destroy.
    + by eapply step_inv_weak_destroy.
Qed.

Lemma released_loud s m1 e1 e : released s m1 e1 → e ∈ e1 → quiet e = false.
Proof.
  intros Hrel He. destruct Hrel; try destruct (_payload c) as [|[d|] n]; simpl in *;
    set_unfold; naive_solver.
Qed.

Lemma acquired_quiet m1 m' e2 e : acquired m1 m' e2 → e ∈ e2 → quiet e = true.
Proof. intros Hacq He. destruct Hacq; set_unfold; naive_solver. Qed.

Lemma loud_app e e1 e2 s m1 m' :
  released s m1 e1 → acquired m1 m' e2 → quiet e = false →
  e ∈ e1 ++ e2 ↔ e ∈ e1.
Proof.
  intros Hrel Hacq Hq. rewrite elem_of_app. split; [|by left].
  intros [?|He]; [done|]. apply (acquired_quiet _ _ _ _ Hacq) in He. congruence.
Qed.

Lemma released_next s m1 e1 : released s m1 e1 → next m1 = next (mem s).
Proof. by destruct 1. Qed.

Lemma released_blocks s m1 e1 b c1 :
  released s m1 e1 → blocks m1 !! b = Some c1 →
  ∃ c, blocks (mem s) !! b = Some c.
Proof.
  intros Hrel Hb. destruct Hrel as [|b0 c0|b0 c0|b0 c0|b0 c0|b0 c0]; simpl in *; eauto;
    destruct (decide (b = b0)) as [->|Hne]; eauto;
    first [rewrite lookup_insert_ne in Hb by done | rewrite lookup_delete_ne in Hb by done];
    eauto.
Qed.

Lemma acquired_keeps m1 m' e2 b c :
  acquired m1 m' e2 → blocks m1 !! next m1 = None → blocks m1 !! b = Some c →
  ∃ c', blocks m' !! b = Some c' ∧ _payload c' = _payload c.
Proof.
  intros Hacq Hfresh Hb.
  destruct Hacq as [| |n|b0 c0 Hb0 Hr0|b0 c0 Hb0]; simpl; eauto.
  - rewrite lookup_insert_ne by congruence. eauto.
  - rewrite lookup_insert_ne by congruence. eauto.
  - destruct (decide (b = b0)) as [->|Hne].
    + rewrite lookup_insert_eq. simplify_eq. eauto.
    + rewrite lookup_insert_ne by done. eauto.
  - destruct (decide (b = b0)) as [->|Hne].
    + rewrite lookup_insert_eq. simplify_eq. eauto.
    + rewrite lookup_insert_ne by done. eauto.
Qed.

Lemma acquired_gone m1 m' e2 b :
  acquired m1 m' e2 → blocks m1 !! b = None → (b < next m1)%nat →
  blocks m' !! b = None.
Proof.
  intros Hacq Hb Hlt.
  destruct Hacq as [| |n|b0 c0 Hb0 Hr0|b0 c0 Hb0]; simpl; eauto.
  - rewrite lookup_insert_ne by lia. done.
  - rewrite lookup_insert_ne by lia. done.
  - rewrite lookup_insert_ne by congruence. done.
  - rewrite lookup_insert_ne by congruence. done.
Qed.

Lemma acquired_next m1 m' e2 : acquired m1 m' e2 → (next m1 ≤ next m')%nat.
Proof. destruct 1; simpl; lia. Qed.

Lemma released_fresh s m1 e1 :
  Inv s → released s m1 e1 → blocks m1 !! next m1 = None.
Proof.
  intros HI Hrel. rewrite (released_next _ _ _ Hrel).
  destruct (blocks m1 !! next (mem s)) as [c1|] eqn:Hb; [|done].
  destruct (released_blocks _ _ _ _ _ Hrel Hb) as [c Hc].
  apply (inv_fresh_blocks _ HI) in Hc. lia.
Qed.

(** Facts about the events of a release. *)
Lemma released_delete_weak s m1 e1 b :
  released s m1 e1 → ev_delete_block b ∈ e1 ↔ ev_weak_sub b 1 ∈ e1.
Proof.
  intros Hrel. destruct Hrel; try destruct (_payload c) as [|[d|] n]; simpl in *;
    set_unfold; naive_solver.
Qed.

Lemma released_delete_gone s m1 e1 b :
  released s m1 e1 →
  ev_delete_block b ∈ e1 ↔ is_Some (blocks (mem s) !! b) ∧ blocks m1 !! b = None.
Proof.
  intros Hrel.
  destruct Hrel as [|b0 c0 Hb0|b0 c0 Hb0|b0 c0 Hb0|b0 c0 Hb0|b0 c0 Hb0]; simpl.
  - split; [set_solver|]. intros [[c Hc] Hn]. congruence.
  - split; [set_solver|]. intros [[c Hc] Hn].
    destruct (decide (b = b0)) as [->|Hne].
    + by rewrite lookup_insert_eq in Hn.
    + rewrite lookup_insert_ne in Hn by done. congruence.
  - split.
    + destruct (_payload c0) as [|[d|] n]; simpl; set_unfold; naive_solver.
    + intros [[c Hc] Hn]. destruct (decide (b = b0)) as [->|Hne].
      * by rewrite lookup_insert_eq in Hn.
      * rewrite lookup_insert_ne in Hn by done. congruence.
  - split.
    + intros Hin. assert (b = b0) as ->.
      { destruct (_payload c0) as [|[d|] n]; simpl in *; set_unfold; naive_solver. }
      split; [eauto|]. apply lookup_delete_eq.
    + intros [[c Hc] Hn]. destruct (decide (b = b0)) as [->|Hne].
      * rewrite !elem_of_cons, !elem_of_app, !elem_of_cons. set_solver.
      * rewrite lookup_delete_ne in Hn by done. congruence.
  - split; [set_solver|]. intros [[c Hc] Hn].
    destruct (decide (b = b0)) as [->|Hne].
    + by rewrite lookup_insert_eq in Hn.
    + rewrite lookup_insert_ne in Hn by done. congruence.
  - split.
    + intros Hin. assert (b = b0) as ->.
      { destruct (_payload c0) as [|[d|] n]; simpl in *; set_unfold; naive_solver. }
      split; [eauto|]. apply lookup_delete_eq.
    + intros [[c Hc] Hn]. destruct (decide (b = b0)) as [->|Hne].
      * rewrite !elem_of_cons, !elem_of_app, !elem_of_cons. set_solver.
      * rewrite lookup_delete_ne in Hn by done. congruence.
Qed.

Lemma released_destroy_object s m1 e1 b :
  released s m1 e1 →
  ev_destroy_object b ∈ e1 ↔
    ev_delete_block b ∈ e1 ∧
    ∃ c, blocks (mem s) !! b = Some c ∧ _payload c = inline_object.
Proof.
  intros Hrel.
  destruct Hrel as [|b0 c0 Hb0|b0 c0 Hb0|b0 c0 Hb0|b0 c0 Hb0|b0 c0 Hb0]; simpl.
  - set_solver.
  - set_solver.
  - destruct (_payload c0) as [|[d|] n]; simpl; set_unfold; naive_solver.
  - destruct (_payload c0) as [|[d|] n] eqn:Hp; simpl; set_unfold; split;
      try naive_solver;
      intros [Hin (x & Hx & Hpx)]; assert (b = b0) as -> by naive_solver;
      simplify_eq; congruence.
  - set_solver.
  - destruct (_payload c0) as [|[d|] n] eqn:Hp; simpl; set_unfold; split;
      try naive_solver;
      intros [Hin (x & Hx & Hpx)]; assert (b = b0) as -> by naive_solver;
      simplify_eq; congruence.
Qed.

Lemma released_delete_array s m1 e1 d :
  Inv s → released s m1 e1 →
  ev_delete_array d ∈ e1 ↔
    ∃ b c n, blocks (mem s) !! b = Some c ∧ _payload c = array_buffer (Some d) n ∧
             ev_ref_sub b 1 ∈ e1.
Proof.
  intros HI Hrel.
  destruct Hrel as [|b0 c0 Hb0 Hh Hr|b0 c0 Hb0 Hh Hr Hw|b0 c0 Hb0 Hh Hr Hw
                   |b0 c0 Hb0 Hh Hw|b0 c0 Hb0 Hh Hw Hz]; simpl.
  - set_solver.
  - set_unfold. split; [naive_solver|]. intros (b & c & n & Hb & Hp & Hin).
    left. destruct Hin as [Hin|[]]. simplify_eq.
  - destruct (_payload c0) as [|[d0|] n0] eqn:Hp; simpl; set_unfold; split;
      try naive_solver;
      intros (b & c & n & Hb & Hpb & Hin); assert (b = b0) as -> by naive_solver;
      simplify_eq; try (rewrite Hp in Hpb); simplify_eq; eauto.
  - destruct (_payload c0) as [|[d0|] n0] eqn:Hp; simpl; set_unfold; split;
      try naive_solver;
      intros (b & c & n & Hb & Hpb & Hin); assert (b = b0) as -> by naive_solver;
      simplify_eq; try (rewrite Hp in Hpb); simplify_eq; eauto.
  - set_unfold. naive_solver.
  - pose proof (inv_block _ _ _ HI Hb0) as (_ & _ & _ & _ & _ & _ & Hp0).
    destruct (_payload c0) as [|[d0|] n0] eqn:Hp; simpl; set_unfold;
      try done; naive_solver.
Qed.

Lemma released_ref_sub s m1 e1 b k :
  released s m1 e1 → ev_ref_sub b k ∈ e1 →
  ∃ c, blocks (mem s) !! b = Some c ∧ _ref_count c = k ∧ holders (arcs s) b ≠ 0%nat ∧
       (k = 1 → ev_weak_sub b (_weak_count c) ∈ e1).
Proof.
  intros Hrel Hin.
  destruct Hrel as [|b0 c0 Hb0 Hh Hr|b0 c0 Hb0 Hh Hr Hw|b0 c0 Hb0 Hh Hr Hw
                   |b0 c0 Hb0 Hh Hw|b0 c0 Hb0 Hh Hw Hz]; simpl in *.
  - set_solver.
  - set_unfold. destruct Hin as [Hin|[]]. simplify_eq. exists c0. done.
  - assert (b = b0 ∧ k = 1) as [-> ->].
    { destruct (_payload c0) as [|[d0|] n0]; simpl in *; set_unfold; naive_solver. }
    exists c0. repeat split; try done. intros _.
    rewrite elem_of_cons, elem_of_app, list_elem_of_singleton. eauto.
  - assert (b = b0 ∧ k = 1) as [-> ->].
    { destruct (_payload c0) as [|[d0|] n0]; simpl in *; set_unfold; naive_solver. }
    exists c0. repeat split; try done. intros _. rewrite Hw.
    rewrite elem_of_cons, elem_of_app, elem_of_cons. eauto.
  - set_unfold. naive_solver.
  - destruct (_payload c0) as [|[d0|] n0]; simpl in *; set_unfold; naive_solver.
Qed.

Lemma released_weak_sub s m1 e1 b k :
  released s m1 e1 → ev_weak_sub b k ∈ e1 →
  ∃ c, blocks (mem s) !! b = Some c ∧ _weak_count c = k.
Proof.
  intros Hrel Hin.
  destruct Hrel as [|b0 c0 Hb0 Hh Hr|b0 c0 Hb0 Hh Hr Hw|b0 c0 Hb0 Hh Hr Hw
                   |b0 c0 Hb0 Hh Hw|b0 c0 Hb0 Hh Hw Hz]; simpl in *;
    try destruct (_payload c0) as [|[d0|] n0]; simpl in *; set_unfold;
    try done; exists c0; naive_solver.
Qed.

Lemma released_NoDup s m1 e1 : released s m1 e1 → NoDup e1.
Proof.
  intros Hrel.
  destruct Hrel as [|b0 c0 Hb0 Hh Hr|b0 c0 Hb0 Hh Hr Hw|b0 c0 Hb0 Hh Hr Hw
                   |b0 c0 Hb0 Hh Hw|b0 c0 Hb0 Hh Hw Hz]; simpl in *;
    try destruct (_payload c0) as [|[d0|] n0]; simpl in *;
    repeat (apply NoDup_cons; split; [set_unfold; naive_solver|]); apply NoDup_nil_2.
Qed.

Lemma acquired_NoDup m1 m' e2 : acquired m1 m' e2 → NoDup e2.
Proof.
  destruct 1; repeat (apply NoDup_cons; split; [set_unfold; naive_solver|]);
    apply NoDup_nil_2.
Qed.

(** Ownership of buffers across a release and an acquisition. *)
Lemma released_owner_after s m1 e1 b c1 d n :
  Inv s → released s m1 e1 →
  blocks m1 !! b = Some c1 → _payload c1 = array_buffer (Some d) n →
  (∃ c, blocks (mem s) !! b = Some c ∧ _payload c = array_buffer (Some d) n) ∧
  ev_delete_array d ∉ e1.
Proof.
  intros HI Hrel Hb Hp.
  assert (∃ c, blocks (mem s) !! b = Some c ∧ _payload c = array_buffer (Some d) n)
    as (c & Hc & Hpc).
  { destruct Hrel as [|b0 c0 Hb0 Hh Hr|b0 c0 Hb0 Hh Hr Hw|b0 c0 Hb0 Hh Hr Hw
                     |b0 c0 Hb0 Hh Hw|b0 c0 Hb0 Hh Hw Hz]; simpl in *; [by eauto|..];
      destruct (decide (b = b0)) as [->|Hne];
      try (rewrite lookup_insert_eq in Hb); try (rewrite lookup_insert_ne in Hb by done);
      try (rewrite lookup_delete_eq in Hb); try (rewrite lookup_delete_ne in Hb by done);
      simplify_eq; simpl in *; eauto.
    by destruct (_payload c0) as [|[d0|] n0]. }
  split; [eauto|].
  intros Hin. apply (released_delete_array _ _ _ _ HI Hrel) in Hin
    as (b' & c' & n' & Hb' & Hp' & Hsub).
  assert (b' = b) as ->.
  { apply (inv_unique _ HI b' b c' c d); try done.
    - rewrite Hp'. set_solver.
    - rewrite Hpc. set_solver. }
  simplify_eq.
  destruct Hrel as [|b0 c0 Hb0 Hh Hr|b0 c0 Hb0 Hh Hr Hw|b0 c0 Hb0 Hh Hr Hw
                   |b0 c0 Hb0 Hh Hw|b0 c0 Hb0 Hh Hw Hz]; simpl in *.
  - set_solver.
  - set_unfold. naive_solver.
  - assert (b = b0) as ->.
    { destruct (_payload c0) as [|[d0|] n0]; simpl in *; set_unfold; naive_solver. }
    rewrite lookup_insert_eq in Hb. simplify_eq. simpl in *.
    by destruct (_payload c0) as [|[d0|] n0].
  - assert (b = b0) as ->.
    { destruct (_payload c0) as [|[d0|] n0]; simpl in *; set_unfold; naive_solver. }
    by rewrite lookup_delete_eq in Hb.
  - set_unfold. naive_solver.
  - destruct (_payload c0) as [|[d0|] n0]; simpl in *; set_unfold; naive_solver.
Qed.

Lemma released_owner_before s m1 e1 b c d n :
  released s m1 e1 →
  blocks (mem s) !! b = Some c → _payload c = array_buffer (Some d) n →
  (∃ c1, blocks m1 !! b = Some c1 ∧ _payload c1 = array_buffer (Some d) n) ∨
  ev_delete_array d ∈ e1.
Proof.
  intros Hrel Hb Hp.
  destruct Hrel as [|b0 c0 Hb0 Hh Hr|b0 c0 Hb0 Hh Hr Hw|b0 c0 Hb0 Hh Hr Hw
                   |b0 c0 Hb0 Hh Hw|b0 c0 Hb0 Hh Hw Hz]; simpl in *; [by eauto|..];
    (destruct (decide (b = b0)) as [->|Hne];
     [simplify_eq; try rewrite lookup_insert_eq; try rewrite Hp; simpl
     |try rewrite lookup_insert_ne by done; try rewrite lookup_delete_ne by done; eauto]).
  - eauto.
  - right. set_solver.
  - right. set_solver.
  - eauto.
  - right. set_solver.
Qed.

(** ** Events of one statement *)

Section step_events.
Context (o : op) (s s' : state) (ev : list event).
Context (HI : Inv s) (Hstep : step o s = Some (s', ev)).

Lemma step_delete_weak b : ev_delete_block b ∈ ev ↔ ev_weak_sub b 1 ∈ ev.
Proof.
  destruct (step_core _ _ _ _ HI Hstep) as (m1 & e1 & e2 & -> & Hrel & Hacq).
  rewrite !(loud_app _ _ _ _ _ _ Hrel Hacq) by done.
  by eapply released_delete_weak.
Qed.

Lemma step_delete_gone b :
  ev_delete_block b ∈ ev ↔
    is_Some (blocks (mem s) !! b) ∧ blocks (mem s') !! b = None.
Proof.
  destruct (step_core _ _ _ _ HI Hstep) as (m1 & e1 & e2 & -> & Hrel & Hacq).
  rewrite (loud_app _ _ _ _ _ _ Hrel Hacq) by done.
  rewrite (released_delete_gone _ _ _ _ Hrel).
  split; intros [[c Hc] Hnone]; (split; [by eauto|]).
  - apply (acquired_gone _ _ _ _ Hacq Hnone).
    rewrite (released_next _ _ _ Hrel). by eapply inv_fresh_blocks.
  - destruct (blocks m1 !! b) as [c1|] eqn:Hb; [|done].
    destruct (acquired_keeps _ _ _ _ _ Hacq (released_fresh _ _ _ HI Hrel) Hb)
      as (c' & Hc' & _).
    congruence.
Qed.

Lemma step_destroy_object b :
  ev_destroy_object b ∈ ev ↔
    ev_delete_block b ∈ ev ∧
    ∃ c, blocks (mem s) !! b = Some c ∧ _payload c = inline_object.
Proof.
  destruct (step_core _ _ _ _ HI Hstep) as (m1 & e1 & e2 & -> & Hrel & Hacq).
  rewrite !(loud_app _ _ _ _ _ _ Hrel Hacq) by done.
  by eapply released_destroy_object.
Qed.

Lemma step_delete_array d :
  ev_delete_array d ∈ ev ↔
    ∃ b c n, blocks (mem s) !! b = Some c ∧ _payload c = array_buffer (Some d) n ∧
             ev_ref_sub b 1 ∈ ev.
Proof.
  destruct (step_core _ _ _ _ HI Hstep) as (m1 & e1 & e2 & -> & Hrel & Hacq).
  rewrite (loud_app _ _ _ _ _ _ Hrel Hacq) by done.
  rewrite (released_delete_array _ _ _ _ HI Hrel).
  split; intros (b & c & n & Hb & Hp & Hin); exists b, c, n; repeat split; try done.
  - by rewrite (loud_app _ _ _ _ _ _ Hrel Hacq).
  - by rewrite (loud_app _ _ _ _ _ _ Hrel Hacq) in Hin.
Qed.

Lemma step_ref_sub b k :
  ev_ref_sub b k ∈ ev →
  ∃ c, blocks (mem s) !! b = Some c ∧ _ref_count c = k ∧ holders (arcs s) b ≠ 0%nat ∧
       (k = 1 → ev_weak_sub b (_weak_count c) ∈ ev).
Proof.
  destruct (step_core _ _ _ _ HI Hstep) as (m1 & e1 & e2 & -> & Hrel & Hacq).
  rewrite (loud_app _ _ _ _ _ _ Hrel Hacq) by done. intros Hin.
  destruct (released_ref_sub _ _ _ _ _ Hrel Hin) as (c & Hc & Hr & Hh & Hw).
  exists c. repeat split; try done. intros Hk.
  rewrite (loud_app _ _ _ _ _ _ Hrel Hacq) by done. auto.
Qed.

Lemma step_weak_sub b k :
  ev_weak_sub b k ∈ ev → ∃ c, blocks (mem s) !! b = Some c ∧ _weak_count c = k.
Proof.
  destruct (step_core _ _ _ _ HI Hstep) as (m1 & e1 & e2 & -> & Hrel & Hacq).
  rewrite (loud_app _ _ _ _ _ _ Hrel Hacq) by done.
  by eapply released_weak_sub.
Qed.

Lemma step_NoDup : NoDup ev.
Proof.
  destruct (step_core _ _ _ _ HI Hstep) as (m1 & e1 & e2 & -> & Hrel & Hacq).
  apply NoDup_app. split; [by eapply released_NoDup|]. split; [|by eapply acquired_NoDup].
  intros e He1 He2.
  apply (released_loud _ _ _ _ Hrel) in He1.
  apply (acquired_quiet _ _ _ _ Hacq) in He2. congruence.
Qed.

Lemma step_next : (next (mem s) ≤ next (mem s'))%nat.
Proof.
  destruct (step_core _ _ _ _ HI Hstep) as (m1 & e1 & e2 & -> & Hrel & Hacq).
  rewrite <- (released_next _ _ _ Hrel). by eapply acquired_next.
Qed.

Lemma step_gone b :
  blocks (mem s) !! b = None → (b < next (mem s))%nat → blocks (mem s') !! b = None.
Proof.
  intros Hb Hlt.
  destruct (step_core _ _ _ _ HI Hstep) as (m1 & e1 & e2 & -> & Hrel & Hacq).
  apply (acquired_gone _ _ _ _ Hacq).
  - destruct (blocks m1 !! b) as [c1|] eqn:Hb1; [|done].
    destruct (released_blocks _ _ _ _ _ Hrel Hb1). congruence.
  - by rewrite (released_next _ _ _ Hrel).
Qed.

Lemma step_new_block b :
  ev_new_block b ∈ ev → (next (mem s) ≤ b)%nat ∧ is_Some (blocks (mem s') !! b).
Proof.
  destruct (step_core _ _ _ _ HI Hstep) as (m1 & e1 & e2 & -> & Hrel & Hacq).
  rewrite elem_of_app. intros [Hin|Hin].
  { by apply (released_loud _ _ _ _ Hrel) in Hin. }
  rewrite <- (released_next _ _ _ Hrel).
  destruct Hacq; set_unfold; destruct_or?; simplify_eq; try done;
    simpl; rewrite lookup_insert_eq; eauto.
Qed.

Lemma step_new_array d :
  ev_new_array d ∈ ev →
  (next (mem s) ≤ d)%nat ∧
  ∃ b c n, blocks (mem s') !! b = Some c ∧ _payload c = array_buffer (Some d) n.
Proof.
  destruct (step_core _ _ _ _ HI Hstep) as (m1 & e1 & e2 & -> & Hrel & Hacq).
  rewrite elem_of_app. intros [Hin|Hin].
  { by apply (released_loud _ _ _ _ Hrel) in Hin. }
  rewrite <- (released_next _ _ _ Hrel).
  destruct Hacq; set_unfold; destruct_or?; simplify_eq; try done.
  split; [lia|]. eexists _, _, _. simpl. rewrite lookup_insert_eq. done.
Qed.

Lemma step_owner_before b c d n :
  blocks (mem s) !! b = Some c → _payload c = array_buffer (Some d) n →
  (∃ c', blocks (mem s') !! b = Some c' ∧ _payload c' = array_buffer (Some d) n) ∨
  ev_delete_array d ∈ ev.
Proof.
  intros Hb Hp.
  destruct (step_core _ _ _ _ HI Hstep) as (m1 & e1 & e2 & -> & Hrel & Hacq).
  destruct (released_owner_before _ _ _ _ _ _ _ Hrel Hb Hp) as [(c1 & Hc1 & Hp1)|Hin].
  - left.
    destruct (acquired_keeps _ _ _ _ _ Hacq (released_fresh _ _ _ HI Hrel) Hc1)
      as (c' & Hc' & Hp').
    exists c'. split; [done|]. congruence.
  - right. rewrite elem_of_app. by left.
Qed.

Lemma step_owner_after b c' d n :
  blocks (mem s') !! b = Some c' → _payload c' = array_buffer (Some d) n →
  ((∃ c, blocks (mem s) !! b = Some c ∧ _payload c = array_buffer (Some d) n) ∧
   ev_delete_array d ∉ ev) ∨
  (ev_new_array d ∈ ev).
Proof.
  intros Hb Hp.
  destruct (step_core _ _ _ _ HI Hstep) as (m1 & e1 & e2 & -> & Hrel & Hacq).
  assert ((∃ c1, blocks m1 !! b = Some c1 ∧ _payload c1 = array_buffer (Some d) n) ∨
          ev_new_array d ∈ e2) as [(c1 & Hc1 & Hp1)|Hnew].
  { destruct Hacq as [| |n0|b0 c0 Hb0 Hr0|b0 c0 Hb0]; simpl in *; eauto.
    - destruct (decide (b = next m1)) as [->|Hne].
      + rewrite lookup_insert_eq in Hb. by simplify_eq.
      + rewrite lookup_insert_ne in Hb by done. eauto.
    - destruct (decide (b = next m1)) as [->|Hne].
      + rewrite lookup_insert_eq in Hb. simplify_eq. simpl in Hp. simplify_eq.
        right. set_solver.
      + rewrite lookup_insert_ne in Hb by done. eauto.
    - destruct (decide (b = b0)) as [->|Hne].
      + rewrite lookup_insert_eq in Hb. simplify_eq. eauto.
      + rewrite lookup_insert_ne in Hb by done. eauto.
    - destruct (decide (b = b0)) as [->|Hne].
      + rewrite lookup_insert_eq in Hb. simplify_eq. eauto.
      + rewrite lookup_insert_ne in Hb by done. eauto. }
  - left. destruct (released_owner_after _ _ _ _ _ _ _ HI Hrel Hc1 Hp1) as [Hown Hnot].
    split; [done|]. by rewrite (loud_app _ _ _ _ _ _ Hrel Hacq).
  - right. rewrite elem_of_app. by right.
Qed.

End step_events.

(** ** Traces of whole programs *)

Lemma occurrences_app e tr1 tr2 :
  occurrences e (tr1 ++ tr2) = (occurrences e tr1 + occurrences e tr2)%nat.
Proof. unfold occurrences. by rewrite filter_app, length_app. Qed.

Lemma occurrences_zero e tr : e ∉ tr → occurrences e tr = 0%nat.
Proof.
  intros Hnot. unfold occurrences.
  induction tr as [|x tr IH]; [done|].
  rewrite filter_cons. apply not_elem_of_cons in Hnot as [Hne Hnot].
  rewrite decide_False by congruence. by apply IH.
Qed.

Lemma occurrences_pos e tr : e ∈ tr → (1 ≤ occurrences e tr)%nat.
Proof.
  intros Hin. unfold occurrences.
  induction tr as [|x tr IH]; [by apply elem_of_nil in Hin|].
  rewrite filter_cons. destruct (decide (x = e)) as [->|Hne]; simpl; [lia|].
  apply elem_of_cons in Hin as [?|Hin]; [congruence|]. by apply IH.
Qed.

Lemma occurrences_NoDup e tr : NoDup tr → (occurrences e tr ≤ 1)%nat.
Proof.
  intros Hnd. unfold occurrences.
  induction Hnd as [|x tr Hx Hnd IH]; [simpl; lia|].
  rewrite filter_cons. destruct (decide (x = e)) as [->|Hne]; simpl; [|done].
  fold (occurrences e tr). rewrite occurrences_zero by done. lia.
Qed.

Lemma occurrences_NoDup_in e tr : NoDup tr → e ∈ tr → occurrences e tr = 1%nat.
Proof.
  intros Hnd Hin. pose proof (occurrences_NoDup e tr Hnd).
  pose proof (occurrences_pos e tr Hin). lia.
Qed.

Lemma trace_ok_init : trace_ok init [].
Proof.
  split; try (intros ? Hin; by apply elem_of_nil in Hin); intros; simpl; unfold occurrences;
    simpl; lia.
Qed.

Lemma step_trace_ok o s s' tr ev :
  Inv s → trace_ok s tr → step o s = Some (s', ev) → trace_ok s' (tr ++ ev).
Proof.
  intros HI [Hbg Hbo Hbw Hbn Hog Hoo Hag Hao Han] Hstep.
  pose proof (step_NoDup _ _ _ _ HI Hstep) as Hnd.
  pose proof (step_next _ _ _ _ HI Hstep) as Hnext.
  split.
  - intros b. rewrite elem_of_app. intros [Hin|Hin].
    + destruct (Hbg b Hin) as [Hnone Hlt]. split; [|lia].
      by eapply step_gone.
    + apply (step_delete_gone _ _ _ _ HI Hstep) in Hin as [[c Hc] Hnone].
      split; [done|]. apply (inv_fresh_blocks _ HI) in Hc. lia.
  - intros b. rewrite occurrences_app.
    destruct (decide (ev_delete_block b ∈ ev)) as [Hin|Hnot].
    + apply (step_delete_gone _ _ _ _ HI Hstep) in Hin as [[c Hc] Hnone].
      rewrite (occurrences_zero _ tr).
      * pose proof (occurrences_NoDup (ev_delete_block b) ev Hnd). lia.
      * intros Hin. destruct (Hbg b Hin). congruence.
    + rewrite (occurrences_zero _ ev) by done. specialize (Hbo b). lia.
  - intros b. rewrite !occurrences_app, Hbw. f_equal.
    destruct (decide (ev_delete_block b ∈ ev)) as [Hin|Hnot].
    + rewrite (occurrences_NoDup_in _ _ Hnd Hin).
      apply (step_delete_weak _ _ _ _ HI Hstep) in Hin.
      by rewrite (occurrences_NoDup_in _ _ Hnd Hin).
    + rewrite (occurrences_zero _ _ Hnot).
      rewrite (step_delete_weak _ _ _ _ HI Hstep) in Hnot.
      by rewrite (occurrences_zero _ _ Hnot).
  - intros b. rewrite !elem_of_app. intros [Hin|Hin].
    + destruct (Hbn b Hin) as [[c Hc]|Hdel]; [|by eauto].
      destruct (blocks (mem s') !! b) as [c'|] eqn:Hc'; [by eauto|].
      right. right. apply (step_delete_gone _ _ _ _ HI Hstep). eauto.
    + left. by apply (step_new_block _ _ _ _ HI Hstep).
  - intros b. rewrite !elem_of_app. intros [Hin|Hin]; [by eauto|].
    right. by apply (step_destroy_object _ _ _ _ HI Hstep) in Hin as [Hdel _].
  - intros b. rewrite occurrences_app.
    destruct (decide (ev_destroy_object b ∈ ev)) as [Hin|Hnot].
    + apply (step_destroy_object _ _ _ _ HI Hstep) in Hin as [Hdel (c & Hc & _)].
      rewrite (occurrences_zero _ tr).
      * pose proof (occurrences_NoDup (ev_destroy_object b) ev Hnd). lia.
      * intros Hin. apply Hog in Hin. destruct (Hbg b Hin). congruence.
    + rewrite (occurrences_zero _ ev) by done. specialize (Hoo b). lia.
  - intros d. rewrite elem_of_app. intros [Hin|Hin].
    + destruct (Hag d Hin) as [Hlt Hno]. split; [lia|].
      intros b c' n Hb Hp.
      destruct (step_owner_after _ _ _ _ HI Hstep _ _ _ _ Hb Hp)
        as [[(c & Hc & Hpc) _]|Hnew].
      * by apply (Hno b c n).
      * apply (step_new_array _ _ _ _ HI Hstep) in Hnew as [Hle _]. lia.
    + pose proof Hin as Hin'.
      apply (step_delete_array _ _ _ _ HI Hstep) in Hin' as (b0 & c0 & n0 & Hb0 & Hp0 & _).
      assert (d < next (mem s))%nat as Hlt.
      { apply (inv_fresh_buffers _ HI).
        pose proof (inv_block _ _ _ HI Hb0) as (_ & _ & _ & _ & _ & Hbuf & _).
        rewrite Hp0 in Hbuf. set_solver. }
      split; [lia|].
      intros b c' n Hb Hp.
      destruct (step_owner_after _ _ _ _ HI Hstep _ _ _ _ Hb Hp)
        as [[_ Hnot]|Hnew]; [done|].
      apply (step_new_array _ _ _ _ HI Hstep) in Hnew as [Hle _]. lia.
  - intros d. rewrite occurrences_app.
    destruct (decide (ev_delete_array d ∈ ev)) as [Hin|Hnot].
    + apply (step_delete_array _ _ _ _ HI Hstep) in Hin as (b0 & c0 & n0 & Hb0 & Hp0 & _).
      rewrite (occurrences_zero _ tr).
      * pose proof (occurrences_NoDup (ev_delete_array d) ev Hnd). lia.
      * intros Hin. destruct (Hag d Hin) as [_ Hno]. by apply (Hno b0 c0 n0).
    + rewrite (occurrences_zero _ ev) by done. specialize (Hao d). lia.
  - intros d. rewrite !elem_of_app. intros [Hin|Hin].
    + destruct (Han d Hin) as [(b & c & n & Hb & Hp)|Hdel]; [|by eauto].
      destruct (step_owner_before _ _ _ _ HI Hstep _ _ _ _ Hb Hp)
        as [(c' & Hc' & Hp')|Hdel]; [|by eauto].
      left. eauto.
    + left. by apply (step_new_array _ _ _ _ HI Hstep).
Qed.

Lemma run_trace_ok p s s' tr ev :
  Inv s → trace_ok s tr → run p s = Some (s', ev) →
  Z.of_nat (handles s + length p) < size_modulus - 1 →
  trace_ok s' (tr ++ ev).
Proof.
  revert s tr ev. induction p as [|o p IH]; intros s tr ev HI Htr Hrun Hbnd.
  - simpl in Hrun. simplify_eq. by rewrite app_nil_r.
  - rewrite run_cons in Hrun.
    destruct (step o s) as [[s1 e1]|] eqn:Hstep; [|done].
    destruct (run p s1) as [[s2 e2]|] eqn:Hrest; [|done]. simplify_eq.
    pose proof (step_handles _ _ _ _ Hstep) as Hsz. simpl in Hbnd.
    assert (Inv s1) as HI1.
    { eapply step_inv; [done..|]. unfold bounded. fold (handles s1). lia. }
    rewrite app_assoc. apply (IH s1); [done| |done|lia].
    by apply (step_trace_ok o s s1 tr e1).
Qed.

Lemma reachable_inv s : reachable s → Inv s.
Proof.
  intros (p & tr & Hrun & Hbnd).
  eapply run_inv; [apply inv_init|done|]. unfold handles. simpl.
  rewrite !map_size_empty. simpl. lia.
Qed.

Lemma reachable_trace_ok p s tr :
  run p init = Some (s, tr) → Z.of_nat (length p) < size_modulus - 1 → trace_ok s tr.
Proof.
  intros Hrun Hbnd. change tr with ([] ++ tr).
  eapply run_trace_ok; [apply inv_init|apply trace_ok_init|done|].
  unfold handles. simpl. rewrite !map_size_empty. simpl. lia.
Qed.

Lemma holders_sole hs h b :
  hs !! h = Some (Some b) →
  holders hs b = 1%nat ↔ ∀ h', hs !! h' = Some (Some b) → h' = h.
Proof.
  intros Hh. pose proof (holders_delete hs h _ b Hh) as Hdel.
  unfold ind in Hdel. rewrite decide_True in Hdel by done. split.
  - intros Hone h' Hh'. destruct (decide (h' = h)) as [|Hne]; [done|].
    assert (delete h hs !! h' = Some (Some b)) as Hd by (by rewrite lookup_delete_ne).
    apply holders_pos in Hd. lia.
  - intros Huniq. destruct (decide (holders (delete h hs) b = 0%nat)) as [|Hne]; [lia|].
    apply holders_exists in Hne as [h' Hh'].
    apply lookup_delete_Some in Hh' as [Hne Hh']. by apply Huniq in Hh'.
Qed.

(** * The claims *)

(** ** Promotion of a weak handle *)

(** C1.  [lock()] on a weak handle whose block has not been deallocated:
    the check reads [_ref_count] and changes nothing.  If the handle is
    non-null and the value read is nonzero, the result is the handle built
    by the private constructor [arc(control_block* block)] from the same block,
    and that construction performs the increment
    [_ref_count.fetch_add(1)] (by one, modulo the range of [std::size_t]);
    the weak count and the payload are untouched.  If the handle is null
    or the value read is zero, the result is the empty handle, memory is
    unchanged and no counter operation takes place. *)
Theorem lock_promotes_or_is_empty (this : option nat) (m : memory) :
  (∀ b, this = Some b → is_Some (blocks m !! b)) →
  match this with
  | None => lock this m = Some (None, m, [])
  | Some b =>
      ∃ c, blocks m !! b = Some c ∧
        lock_check this m = Some (0 <? _ref_count c, m, []) ∧
        lock this m = lock_construct this (0 <? _ref_count c) m ∧
        (0 < _ref_count c →
           lock this m = arc_from_block (Some b) m ∧
           lock this m =
             Some (Some b,
                   upd b (mk_block (wrap (_ref_count c + 1)) (_weak_count c) (_payload c)) m,
                   [ev_ref_add b (_ref_count c)]) ∧
           (_ref_count c + 1 < size_modulus →
              wrap (_ref_count c + 1) = _ref_count c + 1)) ∧
        (_ref_count c = 0 → lock this m = Some (None, m, []))
  end.
Proof.
  intros Hlive. destruct this as [b|]; [|done].
  destruct (Hlive b eq_refl) as [c Hc]. exists c. split; [done|].
  assert (lock_check (Some b) m = Some (0 <? _ref_count c, m, [])) as Hchk.
  { unfold lock_check, ref_count.
    by rewrite bind_assoc, (bind_load _ _ _ _ Hc), !bind_ret. }
  split; [done|]. split.
  { unfold lock, bind. rewrite Hchk.
    by destruct (lock_construct (Some b) (0 <? _ref_count c) m) as [[[??]?]|]. }
  rewrite (lock_Some _ _ _ Hc). split.
  - intros Hpos. apply Z.ltb_lt in Hpos as Hpos'. rewrite Hpos'.
    rewrite arc_from_block_copy, (arc_copy_Some _ _ _ Hc).
    repeat split. intros Hlt. apply wrap_small. lia.
  - intros Hz. by rewrite Hz.
Qed.

Lemma lock_promotes_or_is_empty_witness :
  ∃ m, lock (Some 0%nat) m =
         Some (Some 0%nat, upd 0%nat (mk_block 3 1 inline_object) m, [ev_ref_add 0%nat 2]).
Proof.
  exists (mk_memory {[0%nat := mk_block 2 1 inline_object]} ∅ 1%nat).
  pose proof (lock_promotes_or_is_empty (Some 0%nat)
                (mk_memory {[0%nat := mk_block 2 1 inline_object]} ∅ 1%nat)) as H.
  destruct H as (c & Hc & _ & _ & Hpos & _).
  - intros b Hb. injection Hb as <-. simpl. rewrite lookup_singleton_eq. eauto.
  - simpl in Hc. rewrite lookup_singleton_eq in Hc. injection Hc as <-.
    destruct Hpos as (_ & Hres & _); [simpl; lia|]. exact Hres.
Defined.

(** ** Empty handles *)

Lemma arc_and_null_reached :
  run [op_make_arc 0%nat; op_arc_default 1%nat] init = Some (arc_and_null, [ev_new_block 0%nat]).
Proof. vm_compute. reflexivity. Qed.




(** Default construction itself: no allocation, no counter operation. *)
Lemma default_construction s h w :
  arcs s !! h = None → weaks s !! w = None →
  step (op_arc_default h) s =
    Some (mk_state (mem s) (<[h := None]> (arcs s)) (weaks s), []) ∧
  step (op_weak_default w) s =
    Some (mk_state (mem s) (arcs s) (<[w := None]> (weaks s)), []).
Proof. intros Hh Hw. simpl. by rewrite Hh, Hw. Qed.

(** C10.  [get()] is total: on an empty handle (one whose [_block] is
    null, so that its boolean conversion is false) it returns the null
    pointer, for both specialisations and in every memory, whereas
    [operator*], [operator->] and [operator[]] on an empty handle are
    undefined. *)
Theorem get_of_empty_handle (m : memory) (i : Z) :
  to_bool None = false ∧
  get_object None = nullptr ∧
  get_array None m = Some (nullptr, m, []) ∧
  get_object arc_default = nullptr ∧
  get_array arc_default m = Some (nullptr, m, []) ∧
  deref None m = None ∧
  arrow None m = None ∧
  index None i m = None.
Proof. done. Qed.

(** On a handle that is not empty, [get()] yields the address of the
    payload as long as the block is there. *)
Lemma get_of_live_handle b c m :
  blocks m !! b = Some c →
  get_object (Some b) = object_of b ∧
  get_array (Some b) m =
    Some (match _payload c with
          | array_buffer (Some d) _ => array_at d
          | _ => nullptr
          end, m, []).
Proof.
  intros Hc. split; [done|]. unfold get_array. rewrite (bind_load _ _ _ _ Hc).
  by destruct (_payload c) as [|[d|] n].
Qed.

(** ** Moves *)

Lemma one_arc_reached : run [op_make_arc 0%nat] init = Some (one_arc, [ev_new_block 0%nat]).
Proof. vm_compute. reflexivity. Qed.

Lemma two_arcs_reached :
  run [op_make_arc 0%nat; op_arc_copy 1%nat 0%nat] init =
    Some (two_arcs, [ev_new_block 0%nat; ev_ref_add 0%nat 1]).
Proof. vm_compute. reflexivity. Qed.

Lemma arc_and_weak_reached :
  run [op_make_arc 0%nat; op_weak_from_arc 0%nat 0%nat] init =
    Some (arc_and_weak, [ev_new_block 0%nat; ev_weak_add 0%nat 1]).
Proof. vm_compute. reflexivity. Qed.



Lemma two_arcs_two_weaks_reached :
  run [op_make_arc 0%nat; op_arc_copy 1%nat 0%nat; op_weak_from_arc 0%nat 0%nat;
       op_weak_default 1%nat] init =
    Some (two_arcs_two_weaks, [ev_new_block 0%nat; ev_ref_add 0%nat 1; ev_weak_add 0%nat 1]).
Proof. vm_compute. reflexivity. Qed.


(** ** Clones *)

(** The state while the clones are being made: [k] handles named
    [h0 .. h0+k-1] refer to the block [b], whose strong count is [k];
    the names from [h0+k] on are unused. *)
Lemma copies_run (h0 b : nat) (srcs : list nat) :
  ∀ (k : nat) (s : state) (c : control_block),
    (0 < k)%nat →
    blocks (mem s) !! b = Some c → _ref_count c = Z.of_nat k →
    (∀ h, (h0 ≤ h < h0 + k)%nat → arcs s !! h = Some (Some b)) →
    (∀ h, (h0 + k ≤ h)%nat → arcs s !! h = None) →
    valid_sources h0 (h0 + k) srcs →
    Z.of_nat (k + length srcs) < size_modulus →
    ∃ s' tr c',
      run (copies (h0 + k) srcs) s = Some (s', tr) ∧
      blocks (mem s') !! b = Some c' ∧
      _ref_count c' = Z.of_nat (k + length srcs) ∧
      _weak_count c' = _weak_count c ∧ _payload c' = _payload c ∧
      (∀ h, (h0 ≤ h < h0 + (k + length srcs))%nat → arcs s' !! h = Some (Some b)).
Proof.
  induction srcs as [|src srcs IH]; intros k s c Hk Hc Hr Hlive Hfree Hsrc Hbnd.
  - exists s, [], c. simpl. rewrite Nat.add_0_r. repeat split; try done.
  - simpl in Hsrc, Hbnd. destruct Hsrc as [Hsrc Hrest].
    simpl copies. rewrite run_cons. simpl step.
    rewrite (Hfree (h0 + k)%nat) by lia. rewrite (Hlive src) by lia.
    unfold exec. rewrite (arc_copy_Some _ _ _ Hc). simpl.
    rewrite Hr, wrap_small by lia.
    set (s1 := mk_state _ _ _).
    destruct (IH (S k) s1 (mk_block (Z.of_nat k + 1) (_weak_count c) (_payload c)))
      as (s' & tr & c' & Hrun & Hc' & Hr' & Hw' & Hp' & Hlive').
    + lia.
    + simpl. apply lookup_insert_eq.
    + simpl. lia.
    + intros h Hh. simpl. destruct (decide (h = (h0 + k)%nat)) as [->|Hne].
      * apply lookup_insert_eq.
      * rewrite lookup_insert_ne by done. apply Hlive. lia.
    + intros h Hh. simpl. rewrite lookup_insert_ne by lia. apply Hfree. lia.
    + by rewrite Nat.add_succ_r.
    + lia.
    + rewrite Nat.add_succ_r in Hrun. rewrite Hrun.
      exists s', (ev_ref_add b (Z.of_nat k) :: tr), c'. simpl in *.
      repeat split; try done.
      * rewrite Hr'. f_equal. lia.
      * intros h Hh. apply Hlive'. lia.
Qed.

(** C7.  One handle is constructed (of either specialisation) and
    [N - 1] copies are made, each from the first handle or from an earlier
    copy, with nothing destroyed in between.  Then the program runs, and
    [use_count()] on each of the [N] handles returns [N].  [N] is a value
    of [std::size_t], the type of the result. *)
Theorem use_count_of_clones (s0 : state) (mk : op) (h0 : nat) (srcs : list nat) :
  let N := S (length srcs) in
  is_make mk h0 →
  (∀ h, (h0 ≤ h)%nat → arcs s0 !! h = None) →
  valid_sources h0 (S h0) srcs →
  Z.of_nat N < size_modulus →
  ∃ s tr,
    run (mk :: copies (S h0) srcs) s0 = Some (s, tr) ∧
    ∀ h, (h0 ≤ h < h0 + N)%nat →
      ∃ this, arcs s !! h = Some this ∧ to_bool this = true ∧
              observe (use_count this) s = Some (Z.of_nat N).
Proof.
  intros N Hmk Hfree Hsrc Hbnd. subst N.
  rewrite run_cons.
  assert (∃ m1 ev c, step mk s0 =
            Some (mk_state m1 (<[h0 := Some (next (mem s0))]> (arcs s0)) (weaks s0), ev) ∧
            blocks m1 !! next (mem s0) = Some c ∧ _ref_count c = 1)
    as (m1 & ev & c & Hstep & Hc & Hone).
  { destruct Hmk as [->|[n ->]]; simpl; rewrite (Hfree h0) by lia; unfold exec.
    - rewrite arc_make_eq. eexists _, _, _. split; [done|]. simpl.
      by rewrite lookup_insert_eq.
    - rewrite arc_make_array_eq. eexists _, _, _. split; [done|]. simpl.
      by rewrite lookup_insert_eq. }
  rewrite Hstep. set (s1 := mk_state _ _ _).
  destruct (copies_run h0 (next (mem s0)) srcs 1 s1 c)
    as (s' & tr & c' & Hrun & Hc' & Hr' & _ & _ & Hlive').
  - lia.
  - done.
  - done.
  - intros h Hh. assert (h = h0) as -> by lia. simpl. apply lookup_insert_eq.
  - intros h Hh. simpl. rewrite lookup_insert_ne by lia. apply Hfree. lia.
  - by rewrite Nat.add_1_r.
  - simpl in Hbnd |- *. lia.
  - rewrite Nat.add_1_r in Hrun. rewrite Hrun. eexists _, _. split; [done|].
    intros h Hh. exists (Some (next (mem s0))). split; [apply Hlive'; lia|].
    split; [done|].
    unfold observe. simpl. rewrite (ref_count_Some _ _ _ Hc'). rewrite Hr'.
    f_equal; lia.
Qed.

Lemma use_count_of_clones_witness :
  ∃ s tr,
    run [op_make_arc 0%nat; op_arc_copy 1%nat 0%nat; op_arc_copy 2%nat 1%nat] init =
      Some (s, tr) ∧
    ∀ h, (0 ≤ h < 0 + 3)%nat →
      ∃ this, arcs s !! h = Some this ∧ to_bool this = true ∧
              observe (use_count this) s = Some 3.
Proof.
  apply (use_count_of_clones init (op_make_arc 0%nat) 0%nat [0%nat; 1%nat]).
  - left. reflexivity.
  - intros h _. reflexivity.
  - simpl. lia.
  - reflexivity.
Defined.

(** ** Round trip through a weak handle *)

(** C6.  In a reachable state, let [h] be a non-null [arc].  Constructing
    a weak handle [w] from [h] and then [arc r = w.lock()], with [h] still
    alive, runs, and [r] is non-null and refers to the block of [h]:
    [get()] on [r] returns what [get()] on [h] returns, and that is not the
    null pointer (for the array specialisation, where [get()] reads
    [_data], this is the buffer the block holds). *)
Theorem weak_round_trip (s : state) (h w r b : nat) :
  reachable s →
  arcs s !! h = Some (Some b) → weaks s !! w = None → arcs s !! r = None →
  ∃ s' tr this_r,
    run [op_weak_from_arc w h; op_lock r w] s = Some (s', tr) ∧
    arcs s' !! h = Some (Some b) ∧
    arcs s' !! r = Some this_r ∧
    to_bool this_r = true ∧
    get_object this_r = get_object (Some b) ∧
    get_object this_r ≠ nullptr ∧
    observe (get_array this_r) s' = observe (get_array (Some b)) s ∧
    observe (get_array this_r) s' = observe (get_array (Some b)) s' ∧
    ∀ c, blocks (mem s) !! b = Some c → _payload c ≠ inline_object →
         ∃ d, observe (get_array this_r) s' = Some (array_at d).
Proof.
  intros Hreach Hh Hw Hr. pose proof (reachable_inv _ Hreach) as HI.
  destruct (inv_arc_live _ _ _ HI Hh) as [c Hc].
  pose proof (inv_block _ _ _ HI Hc) as (Hrc & _ & _ & _ & _ & _ & Hp).
  pose proof (holders_pos _ _ _ Hh) as Hpos.
  assert (h ≠ r) as Hhr by congruence.
  rewrite run_cons. simpl step at 1. rewrite Hw, Hh. unfold exec.
  rewrite (weak_copy_Some _ _ _ Hc).
  set (c1 := mk_block (_ref_count c) (wrap (_weak_count c + 1)) (_payload c)).
  set (s1 := mk_state _ _ _).
  rewrite run_cons. simpl step at 1.
  replace (arcs s1 !! r) with (@None (option nat)) by done.
  replace (weaks s1 !! w) with (Some (Some b)) by (simpl; by rewrite lookup_insert_eq).
  unfold exec.
  rewrite (lock_Some b c1 (mem s1)) by (simpl; apply lookup_insert_eq).
  replace (0 <? _ref_count c1) with true by (symmetry; apply Z.ltb_lt; simpl; lia).
  simpl run.
  eexists _, _, (Some b). split; [done|]. simpl.
  rewrite lookup_insert_ne by done. rewrite lookup_insert_eq.
  repeat split; try done.
  - unfold observe, get_array. simpl.
    erewrite bind_load by (simpl; apply lookup_insert_eq).
    rewrite (bind_load _ _ _ _ Hc). simpl.
    by destruct (_payload c) as [|[d|] n].
  - intros c0 Hc0 Hne. assert (c0 = c) as -> by congruence.
    unfold observe, get_array. simpl.
    erewrite bind_load by (simpl; apply lookup_insert_eq). simpl.
    destruct (_payload c) as [|[d|] n]; [done| |lia].
    by exists d.
Qed.

Lemma weak_round_trip_witness :
  ∃ s' tr this_r,
    run [op_weak_from_arc 0%nat 0%nat; op_lock 1%nat 0%nat] one_arc = Some (s', tr) ∧
    arcs s' !! 1%nat = Some this_r ∧ to_bool this_r = true ∧
    get_object this_r = get_object (Some 0%nat).
Proof.
  destruct (weak_round_trip one_arc 0%nat 0%nat 1%nat 0%nat)
    as (s' & tr & this_r & Hrun & _ & Hr & Hb & Hg & _).
  - exists [op_make_arc 0%nat], [ev_new_block 0%nat].
    split; [vm_compute; reflexivity|]. vm_compute. reflexivity.
  - reflexivity.
  - reflexivity.
  - reflexivity.
  - exists s', tr, this_r. exact (conj Hrun (conj Hr (conj Hb Hg))).
Defined.

(** ** Deallocation of the control block *)

Lemma inv_no_handles_no_block s b :
  Inv s → holders (arcs s) b = 0%nat → holders (weaks s) b = 0%nat →
  blocks (mem s) !! b = None.
Proof.
  intros HI Ha Hw. destruct (blocks (mem s) !! b) as [c|] eqn:Hc; [|done].
  pose proof (inv_block _ _ _ HI Hc) as (_ & Hwc & Hw1 & _).
  rewrite Ha, Hw in Hwc. unfold ind in Hwc. rewrite decide_False in Hwc by lia.
  simpl in Hwc. lia.
Qed.

Lemma inv_handles_block s b :
  Inv s → holders (arcs s) b ≠ 0%nat ∨ holders (weaks s) b ≠ 0%nat →
  is_Some (blocks (mem s) !! b).
Proof.
  intros HI Hh. destruct (blocks (mem s) !! b) as [c|] eqn:Hc; [by eauto|].
  pose proof (inv_blocks _ HI b) as Hb. unfold block_ok in Hb. rewrite Hc in Hb.
  destruct Hb, Hh; lia.
Qed.

(** C4.  Let [s] be the state and [tr] the trace after any program (any
    sequence of constructions, copies, moves, assignments, promotions and
    destructions, over any number of allocations).  For every block [b]:
    [delete this] has run at most once, and as often as
    [_weak_count.fetch_sub(1)] has returned 1; if [b] was allocated by the
    program, then it has been deallocated exactly once when no handle
    refers to it any more, and not at all while a handle refers to it.
    And for the next statement, whatever it is: it deallocates [b] exactly
    if it contains the decrement that takes [_weak_count] of [b] from 1 to
    0 (the counter was 1 before the statement), exactly if [b] was
    allocated before and is not after; and a strong decrement from 1 to 0
    is followed in the same statement by one decrement of [_weak_count]. *)
Theorem control_block_freed_once (p : list op) (s : state) (tr : list event) :
  run p init = Some (s, tr) → Z.of_nat (length p) < size_modulus - 1 →
  (∀ b,
     (occurrences (ev_delete_block b) tr ≤ 1)%nat ∧
     occurrences (ev_delete_block b) tr = occurrences (ev_weak_sub b 1) tr ∧
     (ev_new_block b ∈ tr →
        (holders (arcs s) b = 0%nat ∧ holders (weaks s) b = 0%nat →
           occurrences (ev_delete_block b) tr = 1%nat) ∧
        (holders (arcs s) b ≠ 0%nat ∨ holders (weaks s) b ≠ 0%nat →
           occurrences (ev_delete_block b) tr = 0%nat ∧
           is_Some (blocks (mem s) !! b)))) ∧
  (∀ o s' ev, step o s = Some (s', ev) → ∀ b,
     (ev_delete_block b ∈ ev ↔ ev_weak_sub b 1 ∈ ev) ∧
     (ev_weak_sub b 1 ∈ ev → ∃ c, blocks (mem s) !! b = Some c ∧ _weak_count c = 1) ∧
     (ev_delete_block b ∈ ev ↔
        is_Some (blocks (mem s) !! b) ∧ blocks (mem s') !! b = None) ∧
     (ev_ref_sub b 1 ∈ ev →
        ∃ c, blocks (mem s) !! b = Some c ∧ _ref_count c = 1 ∧
             ev_weak_sub b (_weak_count c) ∈ ev) ∧
     (occurrences (ev_delete_block b) ev ≤ 1)%nat).
Proof.
  intros Hrun Hbnd.
  assert (Inv s) as HI by (apply reachable_inv; by exists p, tr).
  pose proof (reachable_trace_ok _ _ _ Hrun Hbnd) as Htr.
  split.
  - intros b. split; [apply (tr_block_once _ _ Htr)|].
    split; [apply (tr_block_weak _ _ Htr)|].
    intros Hnew. split.
    + intros [Ha Hw].
      pose proof (inv_no_handles_no_block _ _ HI Ha Hw) as Hnone.
      destruct (tr_block_new _ _ Htr b Hnew) as [[c Hc]|Hdel]; [congruence|].
      pose proof (occurrences_pos _ _ Hdel).
      pose proof (tr_block_once _ _ Htr b). lia.
    + intros Hh. pose proof (inv_handles_block _ _ HI Hh) as [c Hc].
      split; [|by eauto]. apply occurrences_zero. intros Hdel.
      destruct (tr_block_gone _ _ Htr b Hdel). congruence.
  - intros o s' ev Hstep b.
    split; [by eapply step_delete_weak|].
    split; [by eapply step_weak_sub|].
    split; [by eapply step_delete_gone|].
    split.
    + intros Hin.
      destruct (step_ref_sub _ _ _ _ HI Hstep _ _ Hin) as (c & Hc & Hr & _ & Hw).
      exists c. auto.
    + apply occurrences_NoDup. by eapply step_NoDup.
Qed.

Lemma control_block_freed_once_witness :
  occurrences (ev_delete_block 0%nat)
    [ev_new_block 0%nat; ev_weak_add 0%nat 1; ev_ref_sub 0%nat 1; ev_weak_sub 0%nat 2;
     ev_weak_sub 0%nat 1; ev_destroy_object 0%nat; ev_delete_block 0%nat] = 1%nat.
Proof.
  destruct (control_block_freed_once
              [op_make_arc 0%nat; op_weak_from_arc 0%nat 0%nat; op_arc_destroy 0%nat;
               op_weak_destroy 0%nat]
              (mk_state (mk_memory ∅ ∅ 1%nat) ∅ ∅)
              [ev_new_block 0%nat; ev_weak_add 0%nat 1; ev_ref_sub 0%nat 1;
               ev_weak_sub 0%nat 2; ev_weak_sub 0%nat 1; ev_destroy_object 0%nat;
               ev_delete_block 0%nat]) as [Hglobal _].
  - vm_compute. reflexivity.
  - vm_compute. reflexivity.
  - destruct (Hglobal 0%nat) as (_ & _ & Hnew).
    destruct Hnew as [Hgone _].
    + apply elem_of_cons. left. reflexivity.
    + apply Hgone. split; reflexivity.
Defined.

(** ** Destruction of the payload *)

Lemma released_single s m1 e1 b b' k :
  released s m1 e1 → ev_ref_sub b' k ∈ e1 → ev_delete_block b ∈ e1 → b = b'.
Proof.
  intros Hrel Hsub Hdel.
  destruct Hrel as [|b0 c0 Hb0 Hh Hr|b0 c0 Hb0 Hh Hr Hw|b0 c0 Hb0 Hh Hr Hw
                   |b0 c0 Hb0 Hh Hw|b0 c0 Hb0 Hh Hw Hz]; simpl in *;
    try destruct (_payload c0) as [|[d0|] n0]; simpl in *; set_unfold; naive_solver.
Qed.

Lemma step_single o s s' ev b b' k :
  Inv s → step o s = Some (s', ev) →
  ev_ref_sub b' k ∈ ev → ev_delete_block b ∈ ev → b = b'.
Proof.
  intros HI Hstep.
  destruct (step_core _ _ _ _ HI Hstep) as (m1 & e1 & e2 & -> & Hrel & Hacq).
  rewrite !(loud_app _ _ _ _ _ _ Hrel Hacq) by done.
  by eapply released_single.
Qed.

(** C2.  Single-object specialisation.  After any program, the destructor
    of a payload has run at most once, and only for a block that has been
    deallocated: as long as the block is there, its payload has not been
    destroyed.  For the next statement and a block [b] with an inline
    payload: the statement destroys the payload exactly if it deallocates
    [b], exactly if [b] is gone afterwards, exactly if it contains the
    decrement that takes [_weak_count] from 1 to 0.  In particular the
    statement that takes [_ref_count] from 1 to 0 while a weak handle on
    [b] exists does not destroy the payload, and [b] stays allocated. *)
Theorem object_destroyed_with_block (p : list op) (s : state) (tr : list event) :
  run p init = Some (s, tr) → Z.of_nat (length p) < size_modulus - 1 →
  (∀ b,
     (occurrences (ev_destroy_object b) tr ≤ 1)%nat ∧
     (ev_destroy_object b ∈ tr →
        ev_delete_block b ∈ tr ∧ blocks (mem s) !! b = None)) ∧
  (∀ o s' ev b c,
     step o s = Some (s', ev) →
     blocks (mem s) !! b = Some c → _payload c = inline_object →
     (ev_destroy_object b ∈ ev ↔ ev_delete_block b ∈ ev) ∧
     (ev_destroy_object b ∈ ev ↔ blocks (mem s') !! b = None) ∧
     (ev_destroy_object b ∈ ev ↔ ev_weak_sub b 1 ∈ ev) ∧
     (ev_destroy_object b ∈ ev → _weak_count c = 1) ∧
     (occurrences (ev_destroy_object b) ev ≤ 1)%nat ∧
     (ev_ref_sub b 1 ∈ ev → holders (weaks s) b ≠ 0%nat →
        _ref_count c = 1 ∧
        (ev_destroy_object b ∉ ev) ∧ is_Some (blocks (mem s') !! b))).
Proof.
  intros Hrun Hbnd.
  assert (Inv s) as HI by (apply reachable_inv; by exists p, tr).
  pose proof (reachable_trace_ok _ _ _ Hrun Hbnd) as Htr.
  split.
  - intros b. split; [apply (tr_object_once _ _ Htr)|].
    intros Hin. apply (tr_object_gone _ _ Htr) in Hin. split; [done|].
    by apply (tr_block_gone _ _ Htr).
  - intros o s' ev b c Hstep Hc Hp.
    assert (ev_destroy_object b ∈ ev ↔ ev_delete_block b ∈ ev) as Hdd.
    { rewrite (step_destroy_object _ _ _ _ HI Hstep). split; [tauto|]. eauto. }
    assert (ev_delete_block b ∈ ev ↔ blocks (mem s') !! b = None) as Hdg.
    { rewrite (step_delete_gone _ _ _ _ HI Hstep). split; [tauto|]. eauto. }
    assert (ev_destroy_object b ∈ ev → _weak_count c = 1) as Hone.
    { rewrite Hdd, (step_delete_weak _ _ _ _ HI Hstep). intros Hin.
      destruct (step_weak_sub _ _ _ _ HI Hstep _ _ Hin) as (c' & Hc' & Hw). congruence. }
    split; [done|]. split; [by rewrite Hdd|].
    split; [by rewrite Hdd, (step_delete_weak _ _ _ _ HI Hstep)|].
    split; [done|].
    split; [apply occurrences_NoDup; by eapply step_NoDup|].
    intros Hsub Hweak.
    destruct (step_ref_sub _ _ _ _ HI Hstep _ _ Hsub) as (c' & Hc' & Hr & Hh & _).
    assert (c' = c) as -> by congruence.
    pose proof (inv_block _ _ _ HI Hc) as (_ & Hwc & _).
    assert (ev_destroy_object b ∉ ev) as Hnot.
    { intros Hin. apply Hone in Hin. unfold ind in Hwc.
      rewrite decide_True in Hwc by done. lia. }
    split; [done|]. split; [done|].
    destruct (blocks (mem s') !! b) as [c2|] eqn:Hc2; [by eauto|].
    exfalso. apply Hnot. rewrite Hdd. by apply Hdg.
Qed.

Lemma object_destroyed_with_block_witness :
  (ev_destroy_object 0%nat ∉ [ev_ref_sub 0%nat 1; ev_weak_sub 0%nat 2]) ∧
  (ev_destroy_object 0%nat ∈
     [ev_weak_sub 0%nat 1; ev_destroy_object 0%nat; ev_delete_block 0%nat] ↔
   ev_weak_sub 0%nat 1 ∈
     [ev_weak_sub 0%nat 1; ev_destroy_object 0%nat; ev_delete_block 0%nat]).
Proof.
  split.
  - destruct (object_destroyed_with_block
                [op_make_arc 0%nat; op_weak_from_arc 0%nat 0%nat] arc_and_weak
                [ev_new_block 0%nat; ev_weak_add 0%nat 1]) as [_ Hstep].
    + vm_compute. reflexivity.
    + vm_compute. reflexivity.
    + destruct (Hstep (op_arc_destroy 0%nat)
                  (mk_state (mk_memory {[0%nat := mk_block 0 1 inline_object]} ∅ 1%nat)
                     ∅ {[0%nat := Some 0%nat]})
                  [ev_ref_sub 0%nat 1; ev_weak_sub 0%nat 2] 0%nat
                  (mk_block 1 2 inline_object))
        as (_ & _ & _ & _ & _ & Hlast).
      * vm_compute. reflexivity.
      * reflexivity.
      * reflexivity.
      * destruct Hlast as (_ & Hnot & _).
        -- apply elem_of_cons. left. reflexivity.
        -- vm_compute. intros Heq. discriminate Heq.
        -- exact Hnot.
  - destruct (object_destroyed_with_block
                [op_make_arc 0%nat; op_weak_from_arc 0%nat 0%nat; op_arc_destroy 0%nat]
                (mk_state (mk_memory {[0%nat := mk_block 0 1 inline_object]} ∅ 1%nat)
                   ∅ {[0%nat := Some 0%nat]})
                [ev_new_block 0%nat; ev_weak_add 0%nat 1; ev_ref_sub 0%nat 1;
                 ev_weak_sub 0%nat 2]) as [_ Hstep].
    + vm_compute. reflexivity.
    + vm_compute. reflexivity.
    + destruct (Hstep (op_weak_destroy 0%nat)
                  (mk_state (mk_memory ∅ ∅ 1%nat) ∅ ∅)
                  [ev_weak_sub 0%nat 1; ev_destroy_object 0%nat; ev_delete_block 0%nat]
                  0%nat (mk_block 0 1 inline_object))
        as (_ & _ & Hiff & _).
      * vm_compute. reflexivity.
      * reflexivity.
      * reflexivity.
      * exact Hiff.
Defined.

(** ** Deallocation of the array buffer *)

(** C3.  Array specialisation.  After any program, every buffer has been
    freed at most once ([delete[]] ran at most once on it); a buffer the
    program allocated is either still held by a block to which an [arc]
    refers, and then has not been freed, or it has been freed exactly once
    and no block holds it.  For the next statement and an array block [b]:
    while [b] holds its buffer [d] some [arc] refers to [b], and the
    statement frees [d] exactly if it contains the decrement that takes
    [_ref_count] of [b] from 1 to 0, whatever the number of weak handles;
    once [b] has dropped its buffer no [arc] refers to [b], and the
    statement that deallocates [b] frees no buffer. *)
Theorem array_buffer_freed_once (p : list op) (s : state) (tr : list event) :
  run p init = Some (s, tr) → Z.of_nat (length p) < size_modulus - 1 →
  (∀ d,
     (occurrences (ev_delete_array d) tr ≤ 1)%nat ∧
     (ev_new_array d ∈ tr →
        (∃ b c n, blocks (mem s) !! b = Some c ∧
                  _payload c = array_buffer (Some d) n ∧
                  holders (arcs s) b ≠ 0%nat ∧
                  occurrences (ev_delete_array d) tr = 0%nat) ∨
        (occurrences (ev_delete_array d) tr = 1%nat ∧
         ∀ b c n, blocks (mem s) !! b = Some c →
                  _payload c ≠ array_buffer (Some d) n))) ∧
  (∀ o s' ev b c data n,
     step o s = Some (s', ev) →
     blocks (mem s) !! b = Some c → _payload c = array_buffer data n →
     match data with
     | Some d =>
         holders (arcs s) b ≠ 0%nat ∧
         (ev_delete_array d ∈ ev ↔ ev_ref_sub b 1 ∈ ev) ∧
         (ev_ref_sub b 1 ∈ ev → _ref_count c = 1) ∧
         (occurrences (ev_delete_array d) ev ≤ 1)%nat
     | None =>
         holders (arcs s) b = 0%nat ∧
         (ev_delete_block b ∈ ev → ∀ d, ev_delete_array d ∉ ev)
     end).
Proof.
  intros Hrun Hbnd.
  assert (Inv s) as HI by (apply reachable_inv; by exists p, tr).
  pose proof (reachable_trace_ok _ _ _ Hrun Hbnd) as Htr.
  split.
  - intros d. split; [apply (tr_array_once _ _ Htr)|].
    intros Hnew.
    destruct (tr_array_new _ _ Htr d Hnew) as [(b & c & n & Hb & Hp)|Hdel].
    + left. exists b, c, n. repeat split; try done.
      * pose proof (inv_block _ _ _ HI Hb) as (_ & _ & _ & _ & _ & _ & Hpc).
        by rewrite Hp in Hpc.
      * apply occurrences_zero. intros Hdel.
        destruct (tr_array_gone _ _ Htr d Hdel) as [_ Hno]. by apply (Hno b c n).
    + right. split.
      * pose proof (occurrences_pos _ _ Hdel).
        pose proof (tr_array_once _ _ Htr d). lia.
      * by apply (tr_array_gone _ _ Htr d).
  - intros o s' ev b c data n Hstep Hc Hp.
    pose proof (inv_block _ _ _ HI Hc) as (_ & _ & _ & _ & _ & _ & Hpc).
    rewrite Hp in Hpc. destruct data as [d|].
    + split; [done|]. split; [|split].
      * rewrite (step_delete_array _ _ _ _ HI Hstep). split.
        -- intros (b' & c' & n' & Hb' & Hp' & Hin).
           assert (b' = b) as ->; [|done].
           apply (inv_unique _ HI b' b c' c d); try done.
           ++ rewrite Hp'. set_solver.
           ++ rewrite Hp. set_solver.
        -- intros Hin. by exists b, c, n.
      * intros Hin.
        destruct (step_ref_sub _ _ _ _ HI Hstep _ _ Hin) as (c' & Hc' & Hr & _).
        congruence.
      * apply occurrences_NoDup. by eapply step_NoDup.
    + split; [done|]. intros Hdel d Hin.
      apply (step_delete_array _ _ _ _ HI Hstep) in Hin as (b' & c' & n' & Hb' & Hp' & Hsub).
      assert (b = b') as <- by (by eapply step_single).
      congruence.
Qed.

Lemma array_buffer_freed_once_witness :
  (ev_delete_array 1%nat ∈ [ev_ref_sub 0%nat 1; ev_delete_array 1%nat; ev_weak_sub 0%nat 2] ↔
   ev_ref_sub 0%nat 1 ∈ [ev_ref_sub 0%nat 1; ev_delete_array 1%nat; ev_weak_sub 0%nat 2]) ∧
  (occurrences (ev_delete_array 1%nat)
     [ev_new_block 0%nat; ev_new_array 1%nat; ev_weak_add 0%nat 1; ev_ref_sub 0%nat 1;
      ev_delete_array 1%nat; ev_weak_sub 0%nat 2; ev_weak_sub 0%nat 1;
      ev_delete_block 0%nat] ≤ 1)%nat.
Proof.
  split.
  - destruct (array_buffer_freed_once
                [op_make_arc_array 0%nat 3; op_weak_from_arc 0%nat 0%nat]
                (mk_state
                   (mk_memory {[0%nat := mk_block 1 2 (array_buffer (Some 1%nat) 3)]}
                      {[1%nat]} 2%nat)
                   {[0%nat := Some 0%nat]} {[0%nat := Some 0%nat]})
                [ev_new_block 0%nat; ev_new_array 1%nat; ev_weak_add 0%nat 1])
      as [_ Hstep].
    + vm_compute. reflexivity.
    + vm_compute. reflexivity.
    + destruct (Hstep (op_arc_destroy 0%nat)
                  (mk_state
                     (mk_memory {[0%nat := mk_block 0 1 (array_buffer None 3)]} ∅ 2%nat)
                     ∅ {[0%nat := Some 0%nat]})
                  [ev_ref_sub 0%nat 1; ev_delete_array 1%nat; ev_weak_sub 0%nat 2]
                  0%nat (mk_block 1 2 (array_buffer (Some 1%nat) 3)) (Some 1%nat) 3)
        as (_ & Hiff & _).
      * vm_compute. reflexivity.
      * reflexivity.
      * reflexivity.
      * exact Hiff.
  - destruct (array_buffer_freed_once
                [op_make_arc_array 0%nat 3; op_weak_from_arc 0%nat 0%nat;
                 op_arc_destroy 0%nat; op_weak_destroy 0%nat]
                (mk_state (mk_memory ∅ ∅ 2%nat) ∅ ∅)
                [ev_new_block 0%nat; ev_new_array 1%nat; ev_weak_add 0%nat 1;
                 ev_ref_sub 0%nat 1; ev_delete_array 1%nat; ev_weak_sub 0%nat 2;
                 ev_weak_sub 0%nat 1; ev_delete_block 0%nat]) as [Hglobal _].
    + vm_compute. reflexivity.
    + vm_compute. reflexivity.
    + destruct (Hglobal 1%nat) as [Hle _]. exact Hle.
Defined.

(** ** Expiry, and promotion racing with the last release *)

Lemma lock_check_pure this m t m' ev :
  lock_check this m = Some (t, m', ev) → m' = m ∧ ev = [].
Proof.
  destruct this as [b|]; simpl.
  - unfold ref_count, bind, load, ret.
    destruct (blocks m !! b); simpl; intros ?; by simplify_eq.
  - unfold ret. intros ?; by simplify_eq.
Qed.

(** Run without interruption, the two phases are [lock()]. *)
Lemma lock_in_two_phases h w s :
  step (op_lock h w) s =
    match lock_begin w s with
    | Some taken => lock_end h w taken s
    | None => None
    end.
Proof.
  simpl. unfold lock_begin, lock_end, observe, exec, lock, bind.
  destruct (weaks s !! w) as [this|]; [|by destruct (arcs s !! h)].
  destruct (lock_check this (mem s)) as [[[t m1] e1]|] eqn:Hchk;
    [|by destruct (arcs s !! h)].
  destruct (lock_check_pure _ _ _ _ _ Hchk) as [-> ->].
  destruct (arcs s !! h); [done|].
  by destruct (lock_construct this t (mem s)) as [[[blk m2] e2]|].
Qed.

(** C5 fails on the code.  Thread A starts [w.lock()] on the weak handle
    [w0] while the only strong handle [h0] is alive, and evaluates the
    condition: [_ref_count] reads 1.  Thread B destroys [h0]: the strong
    count goes from 1 to 0, no strong handle is left, the weak handle
    remains and [expired()] is true.  Thread A continues with
    [arc<T>(_block)], whose [add_ref] increments the count from 0 to 1:
    the count is nonzero again, [expired()] called afterwards is false, and
    a later [lock()] returns a non-empty handle.  When the handle obtained
    that way is destroyed, the block is deallocated although [w0] still
    refers to it, and destroying [w0] is then undefined. *)
Theorem lock_races_with_last_release :
  ∃ s2 s3 s4 s5,
    run [op_make_arc 0%nat; op_weak_from_arc 0%nat 0%nat] init =
      Some (arc_and_weak, [ev_new_block 0%nat; ev_weak_add 0%nat 1]) ∧
    (* A: first phase of lock *)
    lock_begin 0%nat arc_and_weak = Some true ∧
    (* B: the last strong handle goes *)
    step (op_arc_destroy 0%nat) arc_and_weak =
      Some (s2, [ev_ref_sub 0%nat 1; ev_weak_sub 0%nat 2]) ∧
    arcs s2 = ∅ ∧ weaks s2 !! 0%nat = Some (Some 0%nat) ∧
    observe (use_count (Some 0%nat)) s2 = Some 0 ∧
    observe (expired (Some 0%nat)) s2 = Some true ∧
    (* A: second phase of lock *)
    lock_end 1%nat 0%nat true s2 = Some (s3, [ev_ref_add 0%nat 0]) ∧
    arcs s3 !! 1%nat = Some (Some 0%nat) ∧
    observe (use_count (Some 0%nat)) s3 = Some 1 ∧
    observe (expired (Some 0%nat)) s3 = Some false ∧
    (* a later lock succeeds *)
    step (op_lock 2%nat 0%nat) s3 = Some (s4, [ev_ref_add 0%nat 1]) ∧
    arcs s4 !! 2%nat = Some (Some 0%nat) ∧
    (* the weak handle is left dangling *)
    run [op_arc_destroy 2%nat; op_arc_destroy 1%nat] s4 =
      Some (s5, [ev_ref_sub 0%nat 2; ev_ref_sub 0%nat 1; ev_weak_sub 0%nat 1;
                 ev_destroy_object 0%nat; ev_delete_block 0%nat]) ∧
    weaks s5 !! 0%nat = Some (Some 0%nat) ∧
    blocks (mem s5) !! 0%nat = None ∧
    step (op_weak_destroy 0%nat) s5 = None.
Proof.
  eexists _, _, _, _.
  repeat split; vm_compute; reflexivity.
Qed.

(** Without interleaving, that is when every [lock()] runs its two phases
    back to back, a strong count that has reached zero stays zero. *)
Lemma released_ref_zero s m1 e1 b c c1 :
  Inv s → released s m1 e1 →
  blocks (mem s) !! b = Some c → _ref_count c = 0 →
  blocks m1 !! b = Some c1 → _ref_count c1 = 0.
Proof.
  intros HI Hrel Hc Hz Hc1.
  pose proof (inv_block _ _ _ HI Hc) as (Hr & _).
  destruct Hrel as [|b0 c0 Hb0 Hh Hr0|b0 c0 Hb0 Hh Hr0 Hw|b0 c0 Hb0 Hh Hr0 Hw
                   |b0 c0 Hb0 Hh Hw|b0 c0 Hb0 Hh Hw Hz0]; simpl in *;
    [by simplify_eq|..];
    (destruct (decide (b = b0)) as [->|Hne];
     [simplify_eq; try lia;
      try rewrite lookup_insert_eq in Hc1; try rewrite lookup_delete_eq in Hc1;
      by simplify_eq
     |try rewrite lookup_insert_ne in Hc1 by done;
      try rewrite lookup_delete_ne in Hc1 by done; by simplify_eq]).
Qed.

Lemma acquired_ref_zero m1 m' e2 b c1 c' :
  acquired m1 m' e2 → blocks m1 !! next m1 = None →
  blocks m1 !! b = Some c1 → _ref_count c1 = 0 →
  blocks m' !! b = Some c' → _ref_count c' = 0.
Proof.
  intros Hacq Hfresh Hc1 Hz Hc'.
  destruct Hacq as [| |n|b0 c0 Hb0 Hr0|b0 c0 Hb0]; simpl in *.
  - by simplify_eq.
  - rewrite lookup_insert_ne in Hc' by congruence. by simplify_eq.
  - rewrite lookup_insert_ne in Hc' by congruence. by simplify_eq.
  - destruct (decide (b = b0)) as [->|Hne]; [congruence|].
    rewrite lookup_insert_ne in Hc' by done. by simplify_eq.
  - destruct (decide (b = b0)) as [->|Hne].
    + rewrite lookup_insert_eq in Hc'. by simplify_eq.
    + rewrite lookup_insert_ne in Hc' by done. by simplify_eq.
Qed.

Lemma step_ref_zero o s s' ev b :
  Inv s → step o s = Some (s', ev) →
  (b < next (mem s))%nat →
  (∀ c, blocks (mem s) !! b = Some c → _ref_count c = 0) →
  (b < next (mem s'))%nat ∧
  (∀ c', blocks (mem s') !! b = Some c' → _ref_count c' = 0).
Proof.
  intros HI Hstep Hlt Hz.
  pose proof (step_next _ _ _ _ HI Hstep) as Hnext. split; [lia|].
  intros c' Hc'.
  destruct (blocks (mem s) !! b) as [c|] eqn:Hc.
  - destruct (step_core _ _ _ _ HI Hstep) as (m1 & e1 & e2 & -> & Hrel & Hacq).
    destruct (blocks m1 !! b) as [c1|] eqn:Hc1.
    + eapply acquired_ref_zero; [done|by eapply released_fresh|done| |done].
      eapply released_ref_zero; [done|done|done| |done]. by apply Hz.
    + pose proof (acquired_gone _ _ _ _ Hacq Hc1) as Hnone.
      rewrite (released_next _ _ _ Hrel) in Hnone. rewrite Hnone in Hc' by done. done.
  - by rewrite (step_gone _ _ _ _ HI Hstep _ Hc Hlt) in Hc'.
Qed.

Lemma run_ref_zero p s s' ev b :
  Inv s → run p s = Some (s', ev) →
  Z.of_nat (handles s + length p) < size_modulus - 1 →
  (b < next (mem s))%nat →
  (∀ c, blocks (mem s) !! b = Some c → _ref_count c = 0) →
  ∀ c', blocks (mem s') !! b = Some c' → _ref_count c' = 0.
Proof.
  revert s ev. induction p as [|o p IH]; intros s ev HI Hrun Hbnd Hlt Hz.
  - simpl in Hrun. by simplify_eq.
  - rewrite run_cons in Hrun.
    destruct (step o s) as [[s1 e1]|] eqn:Hstep; [|done].
    destruct (run p s1) as [[s2 e2]|] eqn:Hrest; [|done]. simplify_eq.
    pose proof (step_handles _ _ _ _ Hstep) as Hsz. simpl in Hbnd.
    assert (Inv s1) as HI1.
    { eapply step_inv; [done..|]. unfold bounded. fold (handles s1). lia. }
    destruct (step_ref_zero _ _ _ _ b HI Hstep Hlt Hz) as [Hlt1 Hz1].
    apply (IH s1 e2 HI1 Hrest); [lia|done..].
Qed.

(** C5 in the absence of interleaving: once the strong count of the block
    of a weak handle is zero, then after any further statements
    [expired()] on a weak handle of that block is true and [lock()]
    returns an empty handle and changes nothing. *)
Lemma expired_for_good_when_sequential (p : list op) (s s' : state) (ev : list event)
    (b w : nat) (c : control_block) :
  Inv s → blocks (mem s) !! b = Some c → _ref_count c = 0 →
  run p s = Some (s', ev) →
  Z.of_nat (handles s + length p) < size_modulus - 1 →
  weaks s' !! w = Some (Some b) →
  observe (use_count (Some b)) s' = Some 0 ∧
  observe (expired (Some b)) s' = Some true ∧
  lock (Some b) (mem s') = Some (None, mem s', []) ∧
  ∀ h, arcs s' !! h = None →
       step (op_lock h w) s' =
         Some (mk_state (mem s') (<[h := None]> (arcs s')) (weaks s'), []).
Proof.
  intros HI Hc Hz Hrun Hbnd Hw.
  destruct (run_inv _ _ _ _ HI Hrun Hbnd) as [HI' _].
  destruct (inv_weak_live _ _ _ HI' Hw) as [c' Hc'].
  assert (_ref_count c' = 0) as Hz'.
  { eapply (run_ref_zero p s s' ev b); try done.
    - by eapply inv_fresh_blocks.
    - intros c0 Hc0. congruence. }
  assert (lock (Some b) (mem s') = Some (None, mem s', [])) as Hlock.
  { rewrite (lock_Some _ _ _ Hc'). by rewrite Hz'. }
  repeat split.
  - unfold observe. simpl. by rewrite (ref_count_Some _ _ _ Hc'), Hz'.
  - unfold observe, expired, use_count, bind. rewrite (ref_count_Some _ _ _ Hc'), Hz'.
    done.
  - done.
  - intros h Hh. simpl. rewrite Hh, Hw. unfold exec. by rewrite Hlock.
Qed.

(** ** Safety: statements that respect lifetimes are defined *)

Lemma arc_destroy_defined s h this :
  Inv s → arcs s !! h = Some this → is_Some (arc_destroy this (mem s)).
Proof.
  intros HI Hh. destruct this as [b|]; [|by eexists].
  destruct (inv_arc_live _ _ _ HI Hh) as [c Hc].
  pose proof (holders_pos _ _ _ Hh) as Hpos. simpl.
  rewrite (release_ref_inv _ _ _ HI Hc) by lia.
  repeat case_decide; by eexists.
Qed.

Lemma weak_destroy_defined s w this :
  Inv s → weaks s !! w = Some this → is_Some (weak_destroy this (mem s)).
Proof.
  intros HI Hw. destruct this as [b|]; [|by eexists].
  destruct (inv_weak_live _ _ _ HI Hw) as [c Hc]. simpl.
  rewrite (release_weak_ref_inv _ _ _ HI Hc).
  case_decide; by eexists.
Qed.

Lemma arc_copy_defined s h this :
  Inv s → arcs s !! h = Some this → is_Some (arc_copy this (mem s)).
Proof.
  intros HI Hh. destruct this as [b|]; [|by eexists].
  destruct (inv_arc_live _ _ _ HI Hh) as [c Hc].
  rewrite (arc_copy_Some _ _ _ Hc). by eexists.
Qed.

Lemma weak_copy_defined s this :
  (∀ b, this = Some b → is_Some (blocks (mem s) !! b)) →
  is_Some (weak_copy this (mem s)).
Proof.
  intros Hlive. destruct this as [b|]; [|by eexists].
  destruct (Hlive b eq_refl) as [c Hc].
  rewrite (weak_copy_Some _ _ _ Hc). by eexists.
Qed.

Lemma exec_defined {A} (c : M A) s k : is_Some (c (mem s)) → is_Some (exec c s k).
Proof. intros [[[a m] ev] Hc]. unfold exec. rewrite Hc. by eexists. Qed.

Lemma step_defined_basic o s :
  Inv s → op_ok o s → is_release o = true ∨ is_acquire o = true → is_Some (step o s).
Proof.
  intros HI Hok Hkind.
  destruct o; simpl in *; try (by destruct Hkind);
    repeat match goal with
    | H : _ ∧ _ |- _ => destruct H
    | H : is_Some (_ !! _) |- _ => destruct H as [? H]
    end;
    repeat match goal with H : _ !! _ = _ |- _ => rewrite H end;
    try (by eexists); apply exec_defined.
  - rewrite arc_make_array_eq. by eexists.
  - by eapply arc_copy_defined.
  - by eapply arc_destroy_defined.
  - apply weak_copy_defined. intros b ->. by eapply inv_arc_live.
  - apply weak_copy_defined. intros b ->. by eapply inv_weak_live.
  - by eapply weak_destroy_defined.
  - destruct x as [b|]; [|by eexists].
    match goal with H : weaks s !! _ = Some (Some b) |- _ =>
      destruct (inv_weak_live _ _ _ HI H) as [c Hc] end.
    rewrite (lock_Some _ _ _ Hc). destruct (0 <? _ref_count c); by eexists.
Qed.

(** In a state that satisfies the counting invariant, a statement that
    respects the lifetimes of the handle objects is defined in this
    semantics: the control-block methods it calls find their block
    allocated and the buffer they free live. *)
Theorem step_defined o s : Inv s → op_ok o s → is_Some (step o s).
Proof.
  intros HI Hok.
  assert (∀ o1 o2 s, Inv s → op_ok o1 s → is_release o1 = true →
            (∀ s1 e1, step o1 s = Some (s1, e1) → op_ok o2 s1) →
            is_acquire o2 = true → is_Some (run [o1; o2] s)) as Htwo.
  { intros o1 o2 s0 HI0 Hok1 Hr1 Hok2 Ha2.
    destruct (step_defined_basic o1 s0 HI0 Hok1) as [[s1 e1] H1]; [by left|].
    assert (Inv s1) as HI1.
    { destruct o1; try done;
        [by eapply step_inv_arc_destroy|by eapply step_inv_weak_destroy]. }
    destruct (step_defined_basic o2 s1 HI1 (Hok2 _ _ H1)) as [[s2 e2] H2]; [by right|].
    simpl. rewrite H1, H2. by eexists. }
  destruct o; try (apply step_defined_basic; [done|done|simpl; by eauto]).
  - (* arc_assign *)
    destruct Hok as [[this Hd] [other Hs]].
    destruct (decide (dst = src)) as [->|Hne].
    { rewrite step_arc_assign_self, Hs. by eexists. }
    rewrite step_arc_assign_ne by done. apply Htwo; try done.
    + simpl. eauto.
    + intros s1 e1 H1. simpl in H1. rewrite Hd in H1.
      apply exec_Some in H1 as (? & ? & _ & ->). simpl.
      rewrite lookup_delete_eq, lookup_delete_ne by done. eauto.
  - (* arc_move_assign *)
    destruct Hok as [[this Hd] [other Hs]].
    destruct (decide (dst = src)) as [->|Hne].
    { rewrite step_arc_move_assign_self, Hs. by eexists. }
    rewrite step_arc_move_assign_ne by done. apply Htwo; try done.
    + simpl. eauto.
    + intros s1 e1 H1. simpl in H1. rewrite Hd in H1.
      apply exec_Some in H1 as (? & ? & _ & ->). simpl.
      rewrite lookup_delete_eq, lookup_delete_ne by done. eauto.
  - (* weak_assign *)
    destruct Hok as [[this Hd] [other Hs]].
    destruct (decide (dst = src)) as [->|Hne].
    { rewrite step_weak_assign_self, Hs. by eexists. }
    rewrite step_weak_assign_ne by done. apply Htwo; try done.
    + simpl. eauto.
    + intros s1 e1 H1. simpl in H1. rewrite Hd in H1.
      apply exec_Some in H1 as (? & ? & _ & ->). simpl.
      rewrite lookup_delete_eq, lookup_delete_ne by done. eauto.
  - (* weak_move_assign *)
    destruct Hok as [[this Hd] [other Hs]].
    destruct (decide (dst = src)) as [->|Hne].
    { rewrite step_weak_move_assign_self, Hs. by eexists. }
    rewrite step_weak_move_assign_ne by done. apply Htwo; try done.
    + simpl. eauto.
    + intros s1 e1 H1. simpl in H1. rewrite Hd in H1.
      apply exec_Some in H1 as (? & ? & _ & ->). simpl.
      rewrite lookup_delete_eq, lookup_delete_ne by done. eauto.
Qed.

(** * Further properties of the handles *)

(** ** What the counters count *)

Lemma reachable_bounded s : reachable s → Z.of_nat (handles s) < size_modulus - 1.
Proof.
  intros (p & tr & Hrun & Hbnd).
  destruct (run_inv p init s tr inv_init Hrun) as [_ Hle].
  - unfold handles. simpl. rewrite !map_size_empty. simpl. lia.
  - unfold handles in Hle at 2. simpl in Hle. rewrite !map_size_empty in Hle.
    simpl in Hle. lia.
Qed.

Lemma inv_counts_le_handles s b c :
  Inv s → blocks (mem s) !! b = Some c →
  0 ≤ _ref_count c ≤ Z.of_nat (handles s) ∧ 1 ≤ _weak_count c ≤ Z.of_nat (handles s).
Proof.
  intros HI Hc.
  pose proof (inv_block _ _ _ HI Hc) as (Hr & Hw & Hw1 & _).
  pose proof (holders_le_size (arcs s) b). pose proof (holders_le_size (weaks s) b).
  unfold handles, ind in *. case_decide; lia.
Qed.

(** X1.  In every state a program reaches, the counters of every allocated
    control block count the handle objects that are alive: [_ref_count] is
    the number of [arc] objects whose [_block] is this block, and
    [_weak_count] is the number of such [weak_arc] objects, plus one as
    long as there is at least one such [arc].  A block stays allocated
    only while some handle refers to it, and no handle refers to a block
    that is not allocated. *)
Theorem counters_count_handles (s : state) (b : nat) :
  reachable s →
  match blocks (mem s) !! b with
  | Some c =>
      _ref_count c = Z.of_nat (holders (arcs s) b) ∧
      _weak_count c =
        Z.of_nat (holders (weaks s) b) +
        (if decide (holders (arcs s) b = 0%nat) then 0 else 1) ∧
      (holders (arcs s) b ≠ 0%nat ∨ holders (weaks s) b ≠ 0%nat)
  | None =>
      (∀ h, arcs s !! h ≠ Some (Some b)) ∧ (∀ w, weaks s !! w ≠ Some (Some b))
  end.
Proof.
  intros Hreach. pose proof (reachable_inv _ Hreach) as HI.
  destruct (blocks (mem s) !! b) as [c|] eqn:Hc.
  - pose proof (inv_block _ _ _ HI Hc) as (Hr & Hw & Hw1 & _).
    unfold ind in Hw. split; [done|]. split.
    + repeat case_decide; lia.
    + repeat case_decide; lia.
  - pose proof (inv_blocks _ HI b) as Hb. unfold block_ok in Hb. rewrite Hc in Hb.
    destruct Hb as [Ha Hw]. split.
    + intros h Hh. apply holders_pos in Hh. lia.
    + intros w Hh. apply holders_pos in Hh. lia.
Qed.

Lemma counters_count_handles_witness :
  match blocks (mem two_arcs_two_weaks) !! 0%nat with
  | Some c =>
      _ref_count c = Z.of_nat (holders (arcs two_arcs_two_weaks) 0%nat) ∧
      _weak_count c =
        Z.of_nat (holders (weaks two_arcs_two_weaks) 0%nat) +
        (if decide (holders (arcs two_arcs_two_weaks) 0%nat = 0%nat) then 0 else 1) ∧
      (holders (arcs two_arcs_two_weaks) 0%nat ≠ 0%nat ∨
       holders (weaks two_arcs_two_weaks) 0%nat ≠ 0%nat)
  | None =>
      (∀ h, arcs two_arcs_two_weaks !! h ≠ Some (Some 0%nat)) ∧
      (∀ w, weaks two_arcs_two_weaks !! w ≠ Some (Some 0%nat))
  end.
Proof.
  apply (counters_count_handles two_arcs_two_weaks 0%nat).
  exists [op_make_arc 0%nat; op_arc_copy 1%nat 0%nat; op_weak_from_arc 0%nat 0%nat;
          op_weak_default 1%nat],
         [ev_new_block 0%nat; ev_ref_add 0%nat 1; ev_weak_add 0%nat 1].
  split; vm_compute; reflexivity.
Defined.

(** X2.  In every state a program reaches, [use_count()] called through
    any live handle, strong or weak, returns the number of [arc] objects
    that currently refer to the handle's block, and 0 for a null
    handle. *)
Theorem use_count_is_number_of_arcs (s : state) (h : nat) (this : option nat) :
  reachable s →
  arcs s !! h = Some this ∨ weaks s !! h = Some this →
  observe (use_count this) s =
    Some (match this with
          | Some b => Z.of_nat (holders (arcs s) b)
          | None => 0
          end).
Proof.
  intros Hreach Hh. pose proof (reachable_inv _ Hreach) as HI.
  destruct this as [b|]; [|done].
  assert (is_Some (blocks (mem s) !! b)) as [c Hc].
  { destruct Hh; [by eapply inv_arc_live|by eapply inv_weak_live]. }
  pose proof (inv_block _ _ _ HI Hc) as (Hr & _).
  unfold observe. simpl. by rewrite (ref_count_Some _ _ _ Hc), Hr.
Qed.

Lemma use_count_is_number_of_arcs_witness :
  observe (use_count (Some 0%nat)) two_arcs_two_weaks =
    Some (Z.of_nat (holders (arcs two_arcs_two_weaks) 0%nat)).
Proof.
  apply (use_count_is_number_of_arcs two_arcs_two_weaks 0%nat (Some 0%nat)).
  - exists [op_make_arc 0%nat; op_arc_copy 1%nat 0%nat; op_weak_from_arc 0%nat 0%nat;
            op_weak_default 1%nat],
           [ev_new_block 0%nat; ev_ref_add 0%nat 1; ev_weak_add 0%nat 1].
    split; vm_compute; reflexivity.
  - right. reflexivity.
Defined.

(** X3.  In every state a program reaches, [unique()] on a non-null [arc]
    is true exactly when no other [arc] object refers to the same block;
    weak handles do not matter.  On a null handle it is false. *)
Theorem unique_iff_sole_owner (s : state) (h b : nat) :
  reachable s → arcs s !! h = Some (Some b) →
  ∃ u, observe (unique (Some b)) s = Some u ∧
       (u = true ↔ ∀ h', arcs s !! h' = Some (Some b) → h' = h) ∧
       observe (unique None) s = Some false.
Proof.
  intros Hreach Hh. pose proof (reachable_inv _ Hreach) as HI.
  destruct (inv_arc_live _ _ _ HI Hh) as [c Hc].
  pose proof (inv_block _ _ _ HI Hc) as (Hr & _).
  exists (_ref_count c =? 1). split.
  { unfold observe, unique, use_count, bind. by rewrite (ref_count_Some _ _ _ Hc). }
  split; [|done].
  rewrite <- (holders_sole _ _ _ Hh). rewrite Z.eqb_eq. lia.
Qed.

Lemma unique_iff_sole_owner_witness :
  observe (unique (Some 0%nat)) one_arc = Some true ∧
  observe (unique (Some 0%nat)) two_arcs = Some false.
Proof.
  split.
  - destruct (unique_iff_sole_owner one_arc 0%nat 0%nat) as (u & Hu & Hiff & _).
    + exists [op_make_arc 0%nat], [ev_new_block 0%nat]. split; vm_compute; reflexivity.
    + reflexivity.
    + rewrite Hu. f_equal. apply Hiff. intros h' Hh'.
      simpl in Hh'. apply lookup_singleton_Some in Hh' as [Heq _]. symmetry. exact Heq.
  - destruct (unique_iff_sole_owner two_arcs 0%nat 0%nat) as (u & Hu & Hiff & _).
    + exists [op_make_arc 0%nat; op_arc_copy 1%nat 0%nat],
             [ev_new_block 0%nat; ev_ref_add 0%nat 1].
      split; vm_compute; reflexivity.
    + reflexivity.
    + rewrite Hu. f_equal. destruct u; [|reflexivity].
      destruct Hiff as [Hiff _]. specialize (Hiff eq_refl 1%nat eq_refl). discriminate Hiff.
Defined.

(** ** Expiry and promotion *)

(** X4.  In every state a program reaches, for a live weak handle [w]
    (the block it refers to may have lost all its strong handles):
    [expired()] and [lock()] are defined; [expired()] is true exactly when
    no [arc] object refers to the block (always, for a null handle); and
    [lock()], run without interruption, returns an empty handle and
    changes nothing exactly when [expired()] is true, and otherwise
    returns a non-empty handle on the same block and raises [use_count()]
    by one. *)
Theorem lock_succeeds_iff_not_expired (s : state) (h w : nat) (this : option nat) :
  reachable s → weaks s !! w = Some this → arcs s !! h = None →
  ∃ e blk s' ev,
    observe (expired this) s = Some e ∧
    step (op_lock h w) s = Some (s', ev) ∧
    arcs s' !! h = Some blk ∧
    (e = true ↔
       match this with Some b => holders (arcs s) b = 0%nat | None => True end) ∧
    (e = true → blk = None ∧ mem s' = mem s ∧ ev = []) ∧
    (e = false →
       blk = this ∧ to_bool blk = true ∧
       ∃ k, observe (use_count this) s = Some k ∧
            observe (use_count this) s' = Some (k + 1)).
Proof.
  intros Hreach Hw Hh. pose proof (reachable_inv _ Hreach) as HI.
  pose proof (reachable_bounded _ Hreach) as Hbnd.
  destruct this as [b|].
  - destruct (inv_weak_live _ _ _ HI Hw) as [c Hc].
    pose proof (inv_block _ _ _ HI Hc) as (Hr & _).
    pose proof (inv_counts_le_handles _ _ _ HI Hc) as [Hrle _].
    assert (observe (expired (Some b)) s = Some (_ref_count c =? 0)) as He.
    { unfold observe, expired, use_count, bind. by rewrite (ref_count_Some _ _ _ Hc). }
    simpl step. rewrite Hh, Hw. unfold exec. rewrite (lock_Some _ _ _ Hc).
    destruct (0 <? _ref_count c) eqn:Hpos.
    + apply Z.ltb_lt in Hpos.
      eexists _, _, _, _. split; [exact He|]. split; [done|]. simpl.
      rewrite lookup_insert_eq. split; [done|].
      split; [rewrite Z.eqb_eq; lia|].
      split; [rewrite Z.eqb_eq; lia|].
      intros _. split; [done|]. split; [done|].
      exists (_ref_count c). unfold observe. simpl.
      rewrite (ref_count_Some _ _ _ Hc).
      erewrite ref_count_Some by apply upd_lookup. simpl.
      rewrite wrap_small by lia. done.
    + apply Z.ltb_ge in Hpos.
      eexists _, _, _, _. split; [exact He|]. split; [done|]. simpl.
      rewrite lookup_insert_eq. split; [done|].
      split; [rewrite Z.eqb_eq; lia|].
      split; [done|].
      intros Hf. apply Z.eqb_neq in Hf. lia.
  - simpl step. rewrite Hh, Hw. unfold exec. rewrite lock_null.
    eexists true, _, _, _. split; [done|]. split; [done|]. simpl.
    rewrite lookup_insert_eq. repeat split; try done.
Qed.

Lemma lock_succeeds_iff_not_expired_witness :
  ∃ e blk s' ev,
    observe (expired (Some 0%nat)) arc_and_weak = Some e ∧
    step (op_lock 1%nat 0%nat) arc_and_weak = Some (s', ev) ∧
    arcs s' !! 1%nat = Some blk ∧
    (e = true ↔ holders (arcs arc_and_weak) 0%nat = 0%nat).
Proof.
  destruct (lock_succeeds_iff_not_expired arc_and_weak 1%nat 0%nat (Some 0%nat))
    as (e & blk & s' & ev & He & Hstep & Hblk & Hiff & _).
  - exists [op_make_arc 0%nat; op_weak_from_arc 0%nat 0%nat],
           [ev_new_block 0%nat; ev_weak_add 0%nat 1].
    split; vm_compute; reflexivity.
  - reflexivity.
  - reflexivity.
  - exists e, blk, s', ev. exact (conj He (conj Hstep (conj Hblk Hiff))).
Defined.

(** ** Copy assignment *)

Lemma block_eta c : mk_block (_ref_count c) (_weak_count c) (_payload c) = c.
Proof. by destruct c. Qed.

Lemma upd_id b c m : blocks m !! b = Some c → upd b c m = m.
Proof. intros Hc. unfold upd. rewrite insert_id by done. by destruct m. Qed.

Lemma upd_twice b c c' m : upd b c (upd b c' m) = upd b c m.
Proof. unfold upd. simpl. by rewrite insert_insert_eq. Qed.

(** ** Copy assignment *)

(** X5.  Copy assignment [dst = src] of [arc] objects, in every state a
    sequential program reaches.  Assignment of an object to itself changes
    nothing.  Between distinct objects it is the destruction of [dst]
    followed by copy construction from [src] in its place, [src] being
    read after the release.  When [dst] does not hold the last strong
    reference to its block (it is null, or another [arc] shares the
    block), the assignment is defined, retargets [dst] and changes no
    other handle object and no buffer; it produces only counter updates;
    the strong counter of the block of [src] goes up by one, that of the
    block [dst] held goes down by one (so nothing changes when the two
    coincide), and no other counter, no payload and no other block
    changes. *)
Theorem arc_copy_assignment (s : state) (dst src : nat) (this other : option nat) :
  reachable s → arcs s !! dst = Some this → arcs s !! src = Some other →
  (dst = src → step (op_arc_assign dst src) s = Some (s, [])) ∧
  (dst ≠ src →
     step (op_arc_assign dst src) s = run [op_arc_destroy dst; op_arc_copy dst src] s) ∧
  (dst ≠ src →
   (∀ b, this = Some b → ∃ h', h' ≠ dst ∧ arcs s !! h' = Some (Some b)) →
   ∃ s' ev,
     step (op_arc_assign dst src) s = Some (s', ev) ∧
     arcs s' = <[dst := other]> (arcs s) ∧ weaks s' = weaks s ∧
     buffers (mem s') = buffers (mem s) ∧
     (∀ e, e ∈ ev → counter_event e = true) ∧
     (this = other → mem s' = mem s) ∧
     (∀ b, blocks (mem s') !! b =
        match blocks (mem s) !! b with
        | Some c =>
            Some (mk_block
                    (_ref_count c + (if decide (other = Some b) then 1 else 0)
                                  - (if decide (this = Some b) then 1 else 0))
                    (_weak_count c) (_payload c))
        | None => None
        end)).
Proof.
  intros Hreach Hdst Hsrc. pose proof (reachable_inv _ Hreach) as HI.
  pose proof (reachable_bounded _ Hreach) as Hbnd.
  split; [intros ->; by rewrite step_arc_assign_self, Hsrc|].
  split; [apply step_arc_assign_ne|].
  intros Hne Hshared.
  assert (∀ b c, blocks (mem s) !! b = Some c → c = mk_block (_ref_count c + 0 - 0) (_weak_count c) (_payload c)) as Heta.
  { intros b c _. destruct c. simpl. f_equal. lia. }
  (* the release *)
  assert (∃ m1 e1,
            arc_destroy this (mem s) = Some (tt, m1, e1) ∧
            buffers m1 = buffers (mem s) ∧ next m1 = next (mem s) ∧
            (∀ e, e ∈ e1 → counter_event e = true) ∧
            m1 = match this with
                 | Some b =>
                     match blocks (mem s) !! b with
                     | Some c =>
                         upd b (mk_block (_ref_count c - 1) (_weak_count c) (_payload c)) (mem s)
                     | None => mem s
                     end
                 | None => mem s
                 end) as (m1 & e1 & Hrel & Hbuf1 & Hnext1 & Hev1 & Hm1).
  { destruct this as [b|].
    - destruct (Hshared b eq_refl) as (h' & Hne' & Hh').
      destruct (inv_arc_live _ _ _ HI Hdst) as [c Hc].
      pose proof (inv_block _ _ _ HI Hc) as (Hr & _).
      pose proof (holders_pos _ _ _ Hdst) as Hpos.
      assert (_ref_count c ≠ 1) as Hmany.
      { intros Hone. apply Hne'. apply (proj1 (holders_sole _ _ _ Hdst)); [lia|done]. }
      simpl. rewrite (release_ref_inv _ _ _ HI Hc) by lia. rewrite decide_False by done.
      do 2 eexists. split; [done|]. split; [done|]. split; [done|]. split.
      + intros e He. set_unfold. naive_solver.
      + by rewrite Hc.
    - exists (mem s), []. repeat split; try done. intros e He. by apply elem_of_nil in He. }
  simpl. unfold arc_assign. rewrite Hdst, bool_decide_eq_false_2 by done.
  rewrite Hrel. simpl. rewrite Hsrc.
  destruct other as [b2|].
  - destruct (inv_arc_live _ _ _ HI Hsrc) as [c2 Hc2].
    pose proof (inv_block _ _ _ HI Hc2) as (Hr2 & _).
    pose proof (holders_pos _ _ _ Hsrc) as Hpos2.
    pose proof (inv_counts_le_handles _ _ _ HI Hc2) as [Hle2 _].
    destruct this as [b0|].
    + destruct (inv_arc_live _ _ _ HI Hdst) as [c0 Hc0]. rewrite Hc0 in Hm1.
      destruct (decide (b0 = b2)) as [->|Hb].
      * assert (c0 = c2) as -> by congruence. subst m1.
        rewrite (add_ref_Some _ b2 _ (upd_lookup _ _ _)). simpl.
        rewrite upd_twice. replace (_ref_count c2 - 1 + 1) with (_ref_count c2) by lia.
        rewrite wrap_small by lia. rewrite block_eta, (upd_id _ _ _ Hc2).
        do 2 eexists. split; [done|]. simpl.
        split; [done|]. split; [done|]. split; [done|]. split.
        { intros e He. set_unfold. naive_solver. }
        split; [done|].
        intros b. destruct (blocks (mem s) !! b) as [c|] eqn:Hc; [|done].
        destruct (decide (b = b2)) as [->|Hb2];
          repeat case_decide; try congruence;
          f_equal; destruct c; simpl; f_equal; lia.
      * assert (blocks m1 !! b2 = Some c2) as Hc2'.
        { rewrite Hm1. simpl. by rewrite lookup_insert_ne. }
        rewrite (add_ref_Some _ _ _ Hc2'). simpl. rewrite wrap_small by lia.
        do 2 eexists. split; [done|]. simpl.
        split; [done|]. split; [done|]. split; [done|]. split.
        { intros e He. set_unfold. naive_solver. }
        split; [by intros ?; simplify_eq|].
        intros b. rewrite Hm1. simpl.
        destruct (decide (b = b2)) as [->|Hb2].
        { rewrite lookup_insert_eq, Hc2. repeat case_decide; try congruence. f_equal. f_equal. lia. }
        rewrite lookup_insert_ne by done.
        destruct (decide (b = b0)) as [->|Hb0].
        { rewrite lookup_insert_eq, Hc0. repeat case_decide; try congruence. f_equal. f_equal. lia. }
        rewrite lookup_insert_ne by done.
        destruct (blocks (mem s) !! b) as [c|] eqn:Hc; [|done].
        repeat case_decide; try congruence. f_equal. by apply (Heta b).
    + subst m1. rewrite (add_ref_Some _ _ _ Hc2). simpl. rewrite wrap_small by lia.
      do 2 eexists. split; [done|]. simpl.
      split; [done|]. split; [done|]. split; [done|]. split.
      { intros e He. set_unfold. naive_solver. }
      split; [done|].
      intros b. destruct (decide (b = b2)) as [->|Hb2].
      { rewrite lookup_insert_eq, Hc2. repeat case_decide; try congruence. f_equal. f_equal. lia. }
      rewrite lookup_insert_ne by done.
      destruct (blocks (mem s) !! b) as [c|] eqn:Hc; [|done].
      repeat case_decide; try congruence. f_equal. by apply (Heta b).
  - unfold ret. simpl. rewrite app_nil_r.
    do 2 eexists. split; [done|]. simpl.
    split; [done|]. split; [done|]. split; [done|]. split; [done|].
    split.
    { intros ->. done. }
    intros b. rewrite Hm1. destruct this as [b0|].
    + destruct (inv_arc_live _ _ _ HI Hdst) as [c0 Hc0]. rewrite Hc0. simpl.
      destruct (decide (b = b0)) as [->|Hb0].
      { rewrite lookup_insert_eq, Hc0. repeat case_decide; try congruence. f_equal. f_equal. lia. }
      rewrite lookup_insert_ne by done.
      destruct (blocks (mem s) !! b) as [c|] eqn:Hc; [|done].
      repeat case_decide; try congruence. f_equal. by apply (Heta b).
    + destruct (blocks (mem s) !! b) as [c|] eqn:Hc; [|done].
      repeat case_decide; try congruence. f_equal. by apply (Heta b).
Qed.

Lemma arc_copy_assignment_witness :
  ∃ s' ev, step (op_arc_assign 1%nat 0%nat) two_arcs = Some (s', ev) ∧
           arcs s' = <[1%nat := Some 0%nat]> (arcs two_arcs) ∧ mem s' = mem two_arcs.
Proof.
  destruct (arc_copy_assignment two_arcs 1%nat 0%nat (Some 0%nat) (Some 0%nat))
    as (_ & _ & Hshared).
  - exists [op_make_arc 0%nat; op_arc_copy 1%nat 0%nat],
      [ev_new_block 0%nat; ev_ref_add 0%nat 1].
    split; vm_compute; reflexivity.
  - reflexivity.
  - reflexivity.
  - destruct Hshared as (s' & ev & Hstep & Harcs & _ & _ & _ & Hmem & _).
    + lia.
    + intros b Hb. injection Hb as <-. exists 0%nat. split; [lia|reflexivity].
    + exists s', ev. split; [exact Hstep|]. split; [exact Harcs|]. apply Hmem. reflexivity.
Defined.

(** X6.  Copy assignment [dst = src] of [weak_arc] objects, in every state
    a sequential program reaches.  Assignment of an object to itself
    changes nothing.  Between distinct objects it is the destruction of
    [dst] followed by copy construction from [src] in its place, [src]
    being read after the release.  When [dst] does not hold the last
    reference of any kind to its block (it is null, or an [arc] or another
    [weak_arc] refers to the block), the assignment is defined, retargets
    [dst] and changes no other handle object and no buffer; it produces
    only counter updates; the weak counter of the block of [src] goes up
    by one, that of the block [dst] held goes down by one (so nothing
    changes when the two coincide), and no strong counter, no payload and
    no other block changes. *)
Theorem weak_copy_assignment (s : state) (dst src : nat) (this other : option nat) :
  reachable s → weaks s !! dst = Some this → weaks s !! src = Some other →
  (dst = src → step (op_weak_assign dst src) s = Some (s, [])) ∧
  (dst ≠ src →
     step (op_weak_assign dst src) s = run [op_weak_destroy dst; op_weak_copy dst src] s) ∧
  (dst ≠ src →
   (∀ b, this = Some b →
      (∃ h, arcs s !! h = Some (Some b)) ∨
      (∃ w', w' ≠ dst ∧ weaks s !! w' = Some (Some b))) →
   ∃ s' ev,
     step (op_weak_assign dst src) s = Some (s', ev) ∧
     weaks s' = <[dst := other]> (weaks s) ∧ arcs s' = arcs s ∧
     buffers (mem s') = buffers (mem s) ∧
     (∀ e, e ∈ ev → counter_event e = true) ∧
     (this = other → mem s' = mem s) ∧
     (∀ b, blocks (mem s') !! b =
        match blocks (mem s) !! b with
        | Some c =>
            Some (mk_block (_ref_count c)
                    (_weak_count c + (if decide (other = Some b) then 1 else 0)
                                   - (if decide (this = Some b) then 1 else 0))
                    (_payload c))
        | None => None
        end)).
Proof.
  intros Hreach Hdst Hsrc. pose proof (reachable_inv _ Hreach) as HI.
  pose proof (reachable_bounded _ Hreach) as Hbnd.
  split; [intros ->; by rewrite step_weak_assign_self, Hsrc|].
  split; [apply step_weak_assign_ne|].
  intros Hne Hshared.
  assert (∀ b c, blocks (mem s) !! b = Some c →
            c = mk_block (_ref_count c) (_weak_count c + 0 - 0) (_payload c)) as Heta.
  { intros b c _. destruct c. simpl. f_equal. lia. }
  (* the release *)
  assert (∃ m1 e1,
            weak_destroy this (mem s) = Some (tt, m1, e1) ∧
            buffers m1 = buffers (mem s) ∧
            (∀ e, e ∈ e1 → counter_event e = true) ∧
            m1 = match this with
                 | Some b =>
                     match blocks (mem s) !! b with
                     | Some c =>
                         upd b (mk_block (_ref_count c) (_weak_count c - 1) (_payload c)) (mem s)
                     | None => mem s
                     end
                 | None => mem s
                 end) as (m1 & e1 & Hrel & Hbuf1 & Hev1 & Hm1).
  { destruct this as [b|].
    - destruct (inv_weak_live _ _ _ HI Hdst) as [c Hc].
      pose proof (inv_block _ _ _ HI Hc) as (_ & Hw & _).
      pose proof (holders_pos _ _ _ Hdst) as Hpos.
      assert (_weak_count c ≠ 1) as Hmany.
      { intros Hone. destruct (Hshared b eq_refl) as [[h Hh]|(w' & Hne' & Hw')].
        - apply holders_pos in Hh. unfold ind in Hw. rewrite decide_True in Hw by lia. lia.
        - apply Hne'. apply (proj1 (holders_sole _ _ _ Hdst)); [|done].
          unfold ind in Hw. case_decide; lia. }
      simpl. rewrite (release_weak_ref_inv _ _ _ HI Hc). rewrite decide_False by done.
      do 2 eexists. split; [done|]. split; [done|]. split.
      + intros e He. set_unfold. naive_solver.
      + by rewrite Hc.
    - exists (mem s), []. repeat split; try done. intros e He. by apply elem_of_nil in He. }
  simpl. unfold weak_assign. rewrite Hdst, bool_decide_eq_false_2 by done.
  rewrite Hrel. simpl. rewrite Hsrc.
  destruct other as [b2|].
  - destruct (inv_weak_live _ _ _ HI Hsrc) as [c2 Hc2].
    pose proof (inv_counts_le_handles _ _ _ HI Hc2) as [_ Hle2].
    destruct this as [b0|].
    + destruct (inv_weak_live _ _ _ HI Hdst) as [c0 Hc0]. rewrite Hc0 in Hm1.
      destruct (decide (b0 = b2)) as [->|Hb].
      * assert (c0 = c2) as -> by congruence. subst m1.
        rewrite (add_weak_ref_Some _ b2 _ (upd_lookup _ _ _)). simpl.
        rewrite upd_twice. replace (_weak_count c2 - 1 + 1) with (_weak_count c2) by lia.
        rewrite wrap_small by lia. rewrite block_eta, (upd_id _ _ _ Hc2).
        do 2 eexists. split; [done|]. simpl.
        split; [done|]. split; [done|]. split; [done|]. split.
        { intros e He. set_unfold. naive_solver. }
        split; [done|].
        intros b. destruct (blocks (mem s) !! b) as [c|] eqn:Hc; [|done].
        destruct (decide (b = b2)) as [->|Hb2];
          repeat case_decide; try congruence;
          f_equal; destruct c; simpl; f_equal; lia.
      * assert (blocks m1 !! b2 = Some c2) as Hc2'.
        { rewrite Hm1. simpl. by rewrite lookup_insert_ne. }
        rewrite (add_weak_ref_Some _ _ _ Hc2'). simpl. rewrite wrap_small by lia.
        do 2 eexists. split; [done|]. simpl.
        split; [done|]. split; [done|]. split; [done|]. split.
        { intros e He. set_unfold. naive_solver. }
        split; [by intros ?; simplify_eq|].
        intros b. rewrite Hm1. simpl.
        destruct (decide (b = b2)) as [->|Hb2].
        { rewrite lookup_insert_eq, Hc2. repeat case_decide; try congruence.
          f_equal. f_equal. lia. }
        rewrite lookup_insert_ne by done.
        destruct (decide (b = b0)) as [->|Hb0].
        { rewrite lookup_insert_eq, Hc0. repeat case_decide; try congruence.
          f_equal. f_equal. lia. }
        rewrite lookup_insert_ne by done.
        destruct (blocks (mem s) !! b) as [c|] eqn:Hc; [|done].
        repeat case_decide; try congruence. f_equal. by apply (Heta b).
    + subst m1. rewrite (add_weak_ref_Some _ _ _ Hc2). simpl. rewrite wrap_small by lia.
      do 2 eexists. split; [done|]. simpl.
      split; [done|]. split; [done|]. split; [done|]. split.
      { intros e He. set_unfold. naive_solver. }
      split; [done|].
      intros b. destruct (decide (b = b2)) as [->|Hb2].
      { rewrite lookup_insert_eq, Hc2. repeat case_decide; try congruence.
        f_equal. f_equal. lia. }
      rewrite lookup_insert_ne by done.
      destruct (blocks (mem s) !! b) as [c|] eqn:Hc; [|done].
      repeat case_decide; try congruence. f_equal. by apply (Heta b).
  - unfold ret. simpl. rewrite app_nil_r.
    do 2 eexists. split; [done|]. simpl.
    split; [done|]. split; [done|]. split; [done|]. split; [done|].
    split.
    { intros ->. done. }
    intros b. rewrite Hm1. destruct this as [b0|].
    + destruct (inv_weak_live _ _ _ HI Hdst) as [c0 Hc0]. rewrite Hc0. simpl.
      destruct (decide (b = b0)) as [->|Hb0].
      { rewrite lookup_insert_eq, Hc0. repeat case_decide; try congruence.
        f_equal. f_equal. lia. }
      rewrite lookup_insert_ne by done.
      destruct (blocks (mem s) !! b) as [c|] eqn:Hc; [|done].
      repeat case_decide; try congruence. f_equal. by apply (Heta b).
    + destruct (blocks (mem s) !! b) as [c|] eqn:Hc; [|done].
      repeat case_decide; try congruence. f_equal. by apply (Heta b).
Qed.

Lemma weak_copy_assignment_witness :
  ∃ s' ev, step (op_weak_assign 1%nat 0%nat) two_arcs_two_weaks = Some (s', ev) ∧
           weaks s' = <[1%nat := Some 0%nat]> (weaks two_arcs_two_weaks) ∧
           blocks (mem s') !! 0%nat = Some (mk_block 2 (2 + 1 - 0) inline_object).
Proof.
  destruct (weak_copy_assignment two_arcs_two_weaks 1%nat 0%nat None (Some 0%nat))
    as (_ & _ & Hshared).
  - exists [op_make_arc 0%nat; op_arc_copy 1%nat 0%nat; op_weak_from_arc 0%nat 0%nat;
            op_weak_default 1%nat],
      [ev_new_block 0%nat; ev_ref_add 0%nat 1; ev_weak_add 0%nat 1].
    split; vm_compute; reflexivity.
  - reflexivity.
  - reflexivity.
  - destruct Hshared as (s' & ev & Hstep & Hweaks & _ & _ & _ & _ & Hblocks).
    + lia.
    + intros b Hb. discriminate Hb.
    + exists s', ev. split; [exact Hstep|]. split; [exact Hweaks|].
      rewrite (Hblocks 0%nat). reflexivity.
Defined.

(** ** Comparison *)

Lemma equal_array_eval t1 t2 m p q :
  get_array t1 m = Some (p, m, []) → get_array t2 m = Some (q, m, []) →
  equal_array t1 t2 m = Some (bool_decide (p = q), m, []).
Proof.
  intros Hp Hq. unfold equal_array. unfold bind at 1. rewrite Hp.
  unfold bind at 1. by rewrite Hq.
Qed.

(** X7.  [operator==] compares identity.  In every state a program
    reaches, two live [arc] handles compare equal exactly when they are
    both null or refer to the same control block.  For [arc<T>] this is
    the address of the inline object; for [arc<T[]>], whose [get()] reads
    [_data], it holds because two blocks never hold the same buffer and a
    block to which an [arc] refers always holds one. *)
Theorem equality_is_identity (s : state) (h1 h2 : nat) (t1 t2 : option nat) :
  reachable s → arcs s !! h1 = Some t1 → arcs s !! h2 = Some t2 →
  equal_object t1 t2 = bool_decide (t1 = t2) ∧
  ((∀ b c, t1 = Some b ∨ t2 = Some b → blocks (mem s) !! b = Some c →
           _payload c ≠ inline_object) →
   observe (equal_array t1 t2) s = Some (bool_decide (t1 = t2))).
Proof.
  intros Hreach H1 H2. pose proof (reachable_inv _ Hreach) as HI. split.
  { unfold equal_object. apply bool_decide_ext.
    destruct t1 as [b1|], t2 as [b2|]; simpl; split; intros ?; by simplify_eq. }
  intros Harr.
  assert (∀ h b, arcs s !! h = Some (Some b) → t1 = Some b ∨ t2 = Some b →
            ∃ c d n, blocks (mem s) !! b = Some c ∧ _payload c = array_buffer (Some d) n ∧
                     get_array (Some b) (mem s) = Some (array_at d, mem s, []))
    as Hget.
  { intros h b Hh Ht. destruct (inv_arc_live _ _ _ HI Hh) as [c Hc].
    pose proof (inv_block _ _ _ HI Hc) as (_ & _ & _ & _ & _ & _ & Hp).
    pose proof (holders_pos _ _ _ Hh) as Hpos.
    specialize (Harr b c Ht Hc).
    destruct (_payload c) as [|[d|] n] eqn:Hpc; [done| |lia].
    exists c, d, n. repeat split; try done.
    unfold get_array. rewrite (bind_load _ _ _ _ Hc). by rewrite Hpc. }
  unfold observe.
  destruct t1 as [b1|], t2 as [b2|].
  - destruct (Hget h1 b1 H1) as (c1 & d1 & n1 & Hc1 & Hp1 & Hg1); [by left|].
    destruct (Hget h2 b2 H2) as (c2 & d2 & n2 & Hc2 & Hp2 & Hg2); [by right|].
    rewrite (equal_array_eval _ _ _ _ _ Hg1 Hg2). f_equal. apply bool_decide_ext. split.
    + intros Heq. simplify_eq. f_equal.
      apply (inv_unique _ HI b1 b2 c1 c2 d2); try done.
      * rewrite Hp1. set_solver.
      * rewrite Hp2. set_solver.
    + intros Heq. simplify_eq. congruence.
  - destruct (Hget h1 b1 H1) as (c1 & d1 & n1 & Hc1 & Hp1 & Hg1); [by left|].
    by rewrite (equal_array_eval (Some b1) None (mem s) _ nullptr Hg1 eq_refl).
  - destruct (Hget h2 b2 H2) as (c2 & d2 & n2 & Hc2 & Hp2 & Hg2); [by right|].
    by rewrite (equal_array_eval None (Some b2) (mem s) nullptr _ eq_refl Hg2).
  - done.
Qed.

Lemma equality_is_identity_witness :
  observe (equal_array (Some 0%nat) (Some 0%nat)) two_arrays = Some true ∧
  observe (equal_array (Some 0%nat) (Some 2%nat)) two_arrays = Some false.
Proof.
  assert (reachable two_arrays) as Hreach.
  { exists [op_make_arc_array 0%nat 3; op_make_arc_array 1%nat 2; op_arc_copy 2%nat 0%nat],
      [ev_new_block 0%nat; ev_new_array 1%nat; ev_new_block 2%nat; ev_new_array 3%nat;
       ev_ref_add 0%nat 1].
    split; vm_compute; reflexivity. }
  assert (∀ t1 t2 b c, t1 = Some b ∨ t2 = Some b → blocks (mem two_arrays) !! b = Some c →
            _payload c ≠ inline_object) as Harr.
  { intros t1 t2 b c _ Hc. simpl in Hc.
    apply lookup_insert_Some in Hc as [[_ <-]|[_ Hc]]; [done|].
    apply lookup_singleton_Some in Hc as [_ <-]. done. }
  split.
  - apply (equality_is_identity two_arrays 0%nat 2%nat (Some 0%nat) (Some 0%nat) Hreach);
      [reflexivity | reflexivity | apply Harr].
  - apply (equality_is_identity two_arrays 0%nat 1%nat (Some 0%nat) (Some 2%nat) Hreach);
      [reflexivity | reflexivity | apply Harr].
Defined.

(** ** Safety and liveness of the payload *)

(** X8.  A living handle never dangles.  In every state a sequential
    program reaches, every statement that constructs a handle from
    nothing or from a living handle (default construction, copy and move
    construction of [arc] and [weak_arc], [weak_arc] from an [arc], and
    [lock()]) is defined: the control block it reads or increments is
    allocated.  Such a statement produces at most one event, an increment
    of a counter; it allocates and deallocates nothing, frees no buffer
    and changes no payload. *)
Theorem sharing_a_handle_is_defined (s : state) (o : op) :
  reachable s → op_ok o s → is_acquire o = true → (∀ h, ¬ is_make o h) →
  ∃ s' ev,
    step o s = Some (s', ev) ∧
    (ev = [] ∨ ∃ b k, ev = [ev_ref_add b k] ∨ ev = [ev_weak_add b k]) ∧
    buffers (mem s') = buffers (mem s) ∧
    (∀ b, match blocks (mem s) !! b, blocks (mem s') !! b with
          | Some c, Some c' => _payload c' = _payload c
          | None, None => True
          | _, _ => False
          end).
Proof.
  intros Hreach Hok Hacq Hnomake. pose proof (reachable_inv _ Hreach) as HI.
  assert (∀ m, ∀ b, match blocks m !! b, blocks m !! b with
                    | Some c, Some c' => _payload c' = _payload c
                    | None, None => True
                    | _, _ => False
                    end) as Hsame.
  { intros m b. by destruct (blocks m !! b). }
  assert (∀ b0 c0 r w, blocks (mem s) !! b0 = Some c0 →
            ∀ b, match blocks (mem s) !! b,
                       blocks (upd b0 (mk_block r w (_payload c0)) (mem s)) !! b with
                 | Some c, Some c' => _payload c' = _payload c
                 | None, None => True
                 | _, _ => False
                 end) as Hupd.
  { intros b0 c0 r w Hc0 b. simpl. destruct (decide (b = b0)) as [->|Hne].
    - by rewrite lookup_insert_eq, Hc0.
    - rewrite lookup_insert_ne by done. by destruct (blocks (mem s) !! b). }
  destruct o; try done; simpl in Hok.
  - exists (mk_state (mem s) (<[h := arc_default]> (arcs s)) (weaks s)), [].
    simpl. rewrite Hok. repeat split; try done; [by left|apply Hsame].
  - exfalso. apply (Hnomake h). by left.
  - exfalso. apply (Hnomake h). right. by exists n.
  - destruct Hok as [Hh [[b|] Hsrc]]; simpl; rewrite Hh, Hsrc.
    + destruct (inv_arc_live _ _ _ HI Hsrc) as [c Hc]. unfold exec.
      rewrite (arc_copy_Some _ _ _ Hc). do 2 eexists. split; [done|]. simpl.
      split; [right; eauto|]. split; [done|]. by apply Hupd.
    + do 2 eexists. split; [done|]. simpl. repeat split; [by left|apply Hsame].
  - destruct Hok as [Hh [other Hsrc]]; simpl; rewrite Hh, Hsrc.
    do 2 eexists. split; [done|]. simpl. repeat split; [by left|apply Hsame].
  - exists (mk_state (mem s) (arcs s) (<[w := weak_default]> (weaks s))), [].
    simpl. rewrite Hok. repeat split; try done; [by left|apply Hsame].
  - destruct Hok as [Hh [[b|] Hsrc]]; simpl; rewrite Hh, Hsrc.
    + destruct (inv_arc_live _ _ _ HI Hsrc) as [c Hc]. unfold exec.
      rewrite (weak_copy_Some _ _ _ Hc). do 2 eexists. split; [done|]. simpl.
      split; [right; eauto|]. split; [done|]. by apply Hupd.
    + do 2 eexists. split; [done|]. simpl. repeat split; [by left|apply Hsame].
  - destruct Hok as [Hh [[b|] Hsrc]]; simpl; rewrite Hh, Hsrc.
    + destruct (inv_weak_live _ _ _ HI Hsrc) as [c Hc]. unfold exec.
      rewrite (weak_copy_Some _ _ _ Hc). do 2 eexists. split; [done|]. simpl.
      split; [right; eauto|]. split; [done|]. by apply Hupd.
    + do 2 eexists. split; [done|]. simpl. repeat split; [by left|apply Hsame].
  - destruct Hok as [Hh [other Hsrc]]; simpl; rewrite Hh, Hsrc.
    do 2 eexists. split; [done|]. simpl. repeat split; [by left|apply Hsame].
  - destruct Hok as [Hh [[b|] Hsrc]]; simpl; rewrite Hh, Hsrc; unfold exec.
    + destruct (inv_weak_live _ _ _ HI Hsrc) as [c Hc].
      rewrite (lock_Some _ _ _ Hc). destruct (0 <? _ref_count c).
      * do 2 eexists. split; [done|]. simpl.
        split; [right; eauto|]. split; [done|]. by apply Hupd.
      * do 2 eexists. split; [done|]. simpl. repeat split; [by left|apply Hsame].
    + rewrite lock_null. do 2 eexists. split; [done|]. simpl.
      repeat split; [by left|apply Hsame].
Qed.

Lemma sharing_a_handle_is_defined_witness :
  ∃ s' ev, step (op_lock 2%nat 0%nat) two_arcs_two_weaks = Some (s', ev) ∧
           buffers (mem s') = buffers (mem two_arcs_two_weaks).
Proof.
  destruct (sharing_a_handle_is_defined two_arcs_two_weaks (op_lock 2%nat 0%nat))
    as (s' & ev & Hstep & _ & Hbuf & _).
  - exists [op_make_arc 0%nat; op_arc_copy 1%nat 0%nat; op_weak_from_arc 0%nat 0%nat;
            op_weak_default 1%nat],
      [ev_new_block 0%nat; ev_ref_add 0%nat 1; ev_weak_add 0%nat 1].
    split; vm_compute; reflexivity.
  - split; [reflexivity|]. exists (Some 0%nat). reflexivity.
  - reflexivity.
  - intros h [Hm|[n Hm]]; discriminate Hm.
  - exists s', ev. split; [exact Hstep|exact Hbuf].
Defined.

(** X9.  The payload lives as long as an [arc] refers to it.  After any
    program, for every living [arc] object with a non-null [_block]: the
    control block is allocated and has never been deallocated; for
    [arc<T>], [operator*] and [operator->] are defined and the destructor
    of the object has not run; for [arc<T[]>], [_data] is a live buffer on
    which [delete[]] has not run, [get()] returns it, and [operator[]] is
    defined at every index below the size the buffer was created with. *)
Theorem payload_alive_while_owned (p : list op) (s : state) (tr : list event) (h b : nat) :
  run p init = Some (s, tr) → Z.of_nat (length p) < size_modulus - 1 →
  arcs s !! h = Some (Some b) →
  ∃ c, blocks (mem s) !! b = Some c ∧
    (ev_delete_block b ∉ tr) ∧
    match _payload c with
    | inline_object =>
        deref (Some b) (mem s) = Some (object_of b, mem s, []) ∧
        arrow (Some b) (mem s) = Some (object_of b, mem s, []) ∧
        (ev_destroy_object b ∉ tr)
    | array_buffer data n =>
        ∃ d, data = Some d ∧ d ∈ buffers (mem s) ∧ (ev_delete_array d ∉ tr) ∧
          get_array (Some b) (mem s) = Some (array_at d, mem s, []) ∧
          ∀ i, 0 ≤ i < n → index (Some b) i (mem s) = Some ((d, i), mem s, [])
    end.
Proof.
  intros Hrun Hbnd Hh.
  assert (Inv s) as HI by (apply reachable_inv; by exists p, tr).
  pose proof (reachable_trace_ok _ _ _ Hrun Hbnd) as Htr.
  destruct (inv_arc_live _ _ _ HI Hh) as [c Hc]. exists c. split; [done|].
  assert (ev_delete_block b ∉ tr) as Hlive.
  { intros Hdel. destruct (tr_block_gone _ _ Htr b Hdel) as [Hnone _]. congruence. }
  split; [done|].
  pose proof (inv_block _ _ _ HI Hc) as (_ & _ & _ & _ & _ & Hown & Hp).
  pose proof (holders_pos _ _ _ Hh) as Hpos.
  destruct (_payload c) as [|[d|] n] eqn:Hpc.
  - repeat split.
    + unfold deref. by rewrite (bind_load _ _ _ _ Hc).
    + unfold arrow. by rewrite (bind_load _ _ _ _ Hc).
    + intros Hd. by apply Hlive, (tr_object_gone _ _ Htr).
  - exists d. repeat split.
    + simpl in Hown. set_solver.
    + intros Hd. destruct (tr_array_gone _ _ Htr d Hd) as [_ Hno].
      by apply (Hno b c n).
    + unfold get_array. rewrite (bind_load _ _ _ _ Hc). by rewrite Hpc.
    + intros i Hi. unfold index. rewrite (bind_load _ _ _ _ Hc). rewrite Hpc.
      assert ((0 <=? i) && (i <? n) = true) as ->; [|done].
      apply andb_true_iff. split; [apply Z.leb_le|apply Z.ltb_lt]; lia.
  - lia.
Qed.

Lemma payload_alive_while_owned_witness :
  index (Some 2%nat) 1 (mem two_arrays) = Some ((3%nat, 1), mem two_arrays, []).
Proof.
  destruct (payload_alive_while_owned
              [op_make_arc_array 0%nat 3; op_make_arc_array 1%nat 2; op_arc_copy 2%nat 0%nat]
              two_arrays
              [ev_new_block 0%nat; ev_new_array 1%nat; ev_new_block 2%nat; ev_new_array 3%nat;
               ev_ref_add 0%nat 1]
              1%nat 2%nat) as (c & Hc & _ & Hp).
  - vm_compute. reflexivity.
  - vm_compute. reflexivity.
  - reflexivity.
  - simpl in Hc. rewrite lookup_insert_eq in Hc. injection Hc as <-. simpl in Hp.
    destruct Hp as (d & Hd & _ & _ & _ & Hidx). injection Hd as <-.
    apply Hidx. lia.
Defined.

(** ** No leaks *)

Lemma released_buffers_owned s m1 e1 :
  buffers_owned (mem s) → released s m1 e1 → buffers_owned m1.
Proof.
  intros Hown Hrel d Hd.
  destruct Hrel as [|b0 c0 Hb0 Hh Hr|b0 c0 Hb0 Hh Hr Hw|b0 c0 Hb0 Hh Hr Hw
                   |b0 c0 Hb0 Hh Hw|b0 c0 Hb0 Hh Hw Hz]; simpl in *.
  - by apply Hown.
  - destruct (Hown d Hd) as (b & c & n & Hc & Hp).
    destruct (decide (b = b0)) as [->|Hne].
    + exists b0, (mk_block (_ref_count c0 - 1) (_weak_count c0) (_payload c0)), n.
      rewrite lookup_insert_eq. simplify_eq. done.
    + exists b, c, n. by rewrite lookup_insert_ne.
  - apply elem_of_difference in Hd as [Hd Hnot].
    destruct (Hown d Hd) as (b & c & n & Hc & Hp).
    destruct (decide (b = b0)) as [->|Hne].
    + simplify_eq. rewrite Hp in Hnot. set_solver.
    + exists b, c, n. by rewrite lookup_insert_ne.
  - apply elem_of_difference in Hd as [Hd Hnot].
    destruct (Hown d Hd) as (b & c & n & Hc & Hp).
    destruct (decide (b = b0)) as [->|Hne].
    + simplify_eq. rewrite Hp in Hnot. set_solver.
    + exists b, c, n. by rewrite lookup_delete_ne.
  - destruct (Hown d Hd) as (b & c & n & Hc & Hp).
    destruct (decide (b = b0)) as [->|Hne].
    + exists b0, (mk_block (_ref_count c0) (_weak_count c0 - 1) (_payload c0)), n.
      rewrite lookup_insert_eq. simplify_eq. done.
    + exists b, c, n. by rewrite lookup_insert_ne.
  - apply elem_of_difference in Hd as [Hd Hnot].
    destruct (Hown d Hd) as (b & c & n & Hc & Hp).
    destruct (decide (b = b0)) as [->|Hne].
    + simplify_eq. rewrite Hp in Hnot. set_solver.
    + exists b, c, n. by rewrite lookup_delete_ne.
Qed.

Lemma acquired_buffers_owned m1 m' e2 :
  blocks m1 !! next m1 = None → buffers_owned m1 → acquired m1 m' e2 → buffers_owned m'.
Proof.
  intros Hfresh Hown Hacq d Hd.
  assert (d ∈ buffers m1 →
          ∃ b c n, blocks m' !! b = Some c ∧ _payload c = array_buffer (Some d) n) as Hold.
  { intros Hd1. destruct (Hown d Hd1) as (b & c & n & Hc & Hp).
    destruct (acquired_keeps _ _ _ _ _ Hacq Hfresh Hc) as (c' & Hc' & Hp').
    exists b, c', n. split; [done|]. congruence. }
  destruct Hacq as [| |n|b0 c0 Hb0 Hr0|b0 c0 Hb0]; simpl in *; try by apply Hold.
  apply elem_of_union in Hd as [Hd|Hd]; [|by apply Hold].
  apply elem_of_singleton in Hd as ->.
  exists (next m1), (mk_block 1 1 (array_buffer (Some (S (next m1))) n)), n.
  by rewrite lookup_insert_eq.
Qed.

Lemma step_buffers_owned o s s' ev :
  Inv s → buffers_owned (mem s) → step o s = Some (s', ev) → buffers_owned (mem s').
Proof.
  intros HI Hown Hstep.
  destruct (step_core _ _ _ _ HI Hstep) as (m1 & e1 & e2 & _ & Hrel & Hacq).
  apply (acquired_buffers_owned m1 (mem s') e2); [|by eapply released_buffers_owned|done].
  by eapply released_fresh.
Qed.

Lemma run_buffers_owned p s s' ev :
  Inv s → buffers_owned (mem s) → run p s = Some (s', ev) →
  Z.of_nat (handles s + length p) < size_modulus - 1 →
  buffers_owned (mem s').
Proof.
  revert s ev. induction p as [|o p IH]; intros s ev HI Hown Hrun Hbnd.
  - simpl in Hrun. by simplify_eq.
  - rewrite run_cons in Hrun.
    destruct (step o s) as [[s1 e1]|] eqn:Hstep; [|done].
    destruct (run p s1) as [[s2 e2]|] eqn:Hrest; [|done]. simplify_eq.
    pose proof (step_handles _ _ _ _ Hstep) as Hsz. simpl in Hbnd.
    assert (Inv s1) as HI1.
    { eapply step_inv; [done..|]. unfold bounded. fold (handles s1). lia. }
    apply (IH s1 e2 HI1); [|done|lia].
    by apply (step_buffers_owned o s s1 e1).
Qed.

(** X10.  Nothing leaks.  In every state a program reaches, every
    allocated control block is referred to by a living [arc] or [weak_arc]
    object, and every live buffer is the [_data] of a control block to
    which a living [arc] refers.  So once all handle objects have been
    destroyed, no control block and no buffer is left allocated. *)
Theorem nothing_leaks (s : state) :
  reachable s →
  (∀ b c, blocks (mem s) !! b = Some c →
     ∃ h, arcs s !! h = Some (Some b) ∨ weaks s !! h = Some (Some b)) ∧
  (∀ d, d ∈ buffers (mem s) →
     ∃ b c n h, blocks (mem s) !! b = Some c ∧ _payload c = array_buffer (Some d) n ∧
                arcs s !! h = Some (Some b)) ∧
  (arcs s = ∅ → weaks s = ∅ → blocks (mem s) = ∅ ∧ buffers (mem s) = ∅).
Proof.
  intros Hreach. pose proof (reachable_inv _ Hreach) as HI.
  assert (buffers_owned (mem s)) as Hown.
  { destruct Hreach as (p & tr & Hrun & Hbnd).
    apply (run_buffers_owned p init s tr); [apply inv_init| |done|].
    - intros d Hd. simpl in Hd. set_solver.
    - unfold handles. simpl. rewrite !map_size_empty. simpl. lia. }
  assert (∀ b c, blocks (mem s) !! b = Some c →
            ∃ h, arcs s !! h = Some (Some b) ∨ weaks s !! h = Some (Some b)) as Hblocks.
  { intros b c Hc.
    destruct (decide (holders (arcs s) b = 0%nat)) as [Ha|Ha].
    - destruct (decide (holders (weaks s) b = 0%nat)) as [Hw|Hw].
      + rewrite (inv_no_handles_no_block _ _ HI Ha Hw) in Hc. done.
      + destruct (holders_exists _ _ Hw) as [h Hh]. eauto.
    - destruct (holders_exists _ _ Ha) as [h Hh]. eauto. }
  assert (∀ d, d ∈ buffers (mem s) →
     ∃ b c n h, blocks (mem s) !! b = Some c ∧ _payload c = array_buffer (Some d) n ∧
                arcs s !! h = Some (Some b)) as Hbuffers.
  { intros d Hd. destruct (Hown d Hd) as (b & c & n & Hc & Hp).
    pose proof (inv_block _ _ _ HI Hc) as (_ & _ & _ & _ & _ & _ & Hh).
    rewrite Hp in Hh. destruct (holders_exists _ _ Hh) as [h Hh'].
    by exists b, c, n, h. }
  split; [done|]. split; [done|].
  intros Ha Hw. split.
  - apply map_empty. intros b. destruct (blocks (mem s) !! b) as [c|] eqn:Hc; [|done].
    destruct (Hblocks b c Hc) as [h [Hh|Hh]].
    + rewrite Ha in Hh. by rewrite lookup_empty in Hh.
    + rewrite Hw in Hh. by rewrite lookup_empty in Hh.
  - apply set_eq. intros d. split; [|set_solver].
    intros Hd. destruct (Hbuffers d Hd) as (b & c & n & h & _ & _ & Hh).
    rewrite Ha in Hh. by rewrite lookup_empty in Hh.
Qed.

Lemma nothing_leaks_witness :
  blocks (mem (mk_state (mk_memory ∅ ∅ 4%nat) ∅ ∅)) = ∅ ∧
  buffers (mem (mk_state (mk_memory ∅ ∅ 4%nat) ∅ ∅)) = ∅.
Proof.
  destruct (nothing_leaks (mk_state (mk_memory ∅ ∅ 4%nat) ∅ ∅)) as (_ & _ & Hend).
  - exists [op_make_arc_array 0%nat 3; op_make_arc_array 1%nat 2; op_weak_from_arc 0%nat 1%nat;
            op_arc_destroy 1%nat; op_arc_destroy 0%nat; op_weak_destroy 0%nat],
      [ev_new_block 0%nat; ev_new_array 1%nat; ev_new_block 2%nat; ev_new_array 3%nat;
       ev_weak_add 2%nat 1; ev_ref_sub 2%nat 1; ev_delete_array 3%nat; ev_weak_sub 2%nat 2;
       ev_ref_sub 0%nat 1; ev_delete_array 1%nat; ev_weak_sub 0%nat 1; ev_delete_block 0%nat;
       ev_weak_sub 2%nat 1; ev_delete_block 2%nat].
    split; vm_compute; reflexivity.
  - apply Hend; reflexivity.
Defined.

(** ** Weak handles do not own the payload *)

Lemma strong_side_kept_refl s s' :
  arcs s' = arcs s → mem s' = mem s → strong_side_kept s s' [].
Proof.
  intros Ha Hm. unfold strong_side_kept. rewrite Ha, Hm.
  repeat split; try done.
  - intros e He. by apply elem_of_nil in He.
  - by intros ?%elem_of_nil.
  - by intros ?%elem_of_nil.
  - eauto.
Qed.

Lemma strong_side_kept_trans s s1 s' e1 e2 :
  strong_side_kept s s1 e1 → strong_side_kept s1 s' e2 → strong_side_kept s s' (e1 ++ e2).
Proof.
  intros (Ha1 & Hb1 & He1 & Hk1) (Ha2 & Hb2 & He2 & Hk2).
  split; [congruence|]. split; [congruence|]. split.
  - intros e [?|?]%elem_of_app; eauto.
  - intros b c Hc Hh.
    destruct (Hk1 b c Hc Hh) as (Hd1 & Hf1 & c1 & Hc1 & Hr1 & Hp1).
    rewrite <- Ha1 in Hh.
    destruct (Hk2 b c1 Hc1 Hh) as (Hd2 & Hf2 & c2 & Hc2 & Hr2 & Hp2).
    split; [|split].
    + intros [?|?]%elem_of_app; done.
    + intros [?|?]%elem_of_app; done.
    + exists c2. split; [done|]. split; congruence.
Qed.

Lemma strong_side_kept_weak_destroy s w s' ev :
  Inv s → step (op_weak_destroy w) s = Some (s', ev) → strong_side_kept s s' ev.
Proof.
  intros HI Hstep. simpl in Hstep.
  destruct (weaks s !! w) as [[b|]|] eqn:Hw; [| |done].
  - apply exec_Some in Hstep as ([] & m & Hrel & ->). simpl in Hrel.
    destruct (inv_weak_live _ _ _ HI Hw) as [c Hc].
    pose proof (holders_pos _ _ _ Hw) as Hpos.
    pose proof (inv_block _ _ _ HI Hc) as (Hrc & Hwc & Hw1 & Hrlt & Hwlt & Hbuf & Hp).
    rewrite (release_weak_ref_inv _ _ _ HI Hc) in Hrel.
    destruct (decide (_weak_count c = 1)) as [Hone|Hone]; simplify_eq.
    + assert (holders (arcs s) b = 0%nat) as Hz.
      { unfold ind in Hwc. case_decide; lia. }
      assert (owned_buffer (_payload c) = ∅) as Hempty.
      { destruct (_payload c) as [|[d|] n]; simpl; [done| |done]. done. }
      split; [done|]. split; [simpl; rewrite Hempty; set_solver|]. split.
      * intros e He. destruct (_payload c) as [|[d|] n]; simpl in He;
          set_unfold; naive_solver.
      * intros b' c' Hc' Hh'. assert (b' ≠ b) as Hne by (intros ->; done).
        split; [|split].
        -- destruct (_payload c) as [|[d|] n]; simpl; set_unfold; naive_solver.
        -- destruct (_payload c) as [|[d|] n]; simpl; set_unfold; naive_solver.
        -- exists c'. simpl. by rewrite lookup_delete_ne.
    + split; [done|]. split; [done|]. split.
      * intros e He. set_unfold. naive_solver.
      * intros b' c' Hc' Hh'. split; [set_unfold; naive_solver|].
        split; [set_unfold; naive_solver|]. simpl.
        destruct (decide (b' = b)) as [->|Hne].
        -- rewrite lookup_insert_eq. simplify_eq. eauto.
        -- rewrite lookup_insert_ne by done. eauto.
  - apply exec_Some in Hstep as ([] & m & Hrel & ->).
    unfold weak_destroy, ret in Hrel. simplify_eq. by apply strong_side_kept_refl.
Qed.

Lemma strong_side_kept_weak_copy s s' other ev (k : option nat → memory → state) :
  (∀ blk m, arcs (k blk m) = arcs s ∧ mem (k blk m) = m) →
  exec (weak_copy other) s k = Some (s', ev) → strong_side_kept s s' ev.
Proof.
  intros Hk Hstep. apply exec_Some in Hstep as (blk & m & Hc & ->).
  destruct (Hk blk m) as [Ha Hm]. unfold strong_side_kept. rewrite Ha, Hm. clear Hk Ha Hm.
  destruct other as [b|].
  - destruct (blocks (mem s) !! b) as [c|] eqn:Hb;
      [rewrite (weak_copy_Some _ _ _ Hb) in Hc | by rewrite weak_copy_undefined in Hc].
    simplify_eq. split; [done|]. split; [done|]. split.
    + intros e He. set_unfold. naive_solver.
    + intros b' c' Hc' Hh'. split; [set_unfold; naive_solver|].
      split; [set_unfold; naive_solver|]. simpl.
      destruct (decide (b' = b)) as [->|Hne].
      * rewrite lookup_insert_eq. simplify_eq. eauto.
      * rewrite lookup_insert_ne by done. eauto.
  - unfold weak_copy, ret in Hc. simplify_eq.
    by destruct (strong_side_kept_refl s s eq_refl eq_refl) as (_ & _ & ? & ?).
Qed.

Lemma strong_side_kept_basic o s s' ev :
  Inv s → is_weak_op o = true → is_release o = true ∨ is_acquire o = true →
  step o s = Some (s', ev) → strong_side_kept s s' ev.
Proof.
  intros HI Hweak Hkind Hstep.
  destruct o; try done; try (by destruct Hkind); simpl in Hstep.
  - destruct (weaks s !! w); [done|]. simplify_eq. by apply strong_side_kept_refl.
  - destruct (weaks s !! w); [done|]. destruct (arcs s !! src) as [shared|]; [|done].
    eapply strong_side_kept_weak_copy; [|exact Hstep]. by intros.
  - destruct (weaks s !! w); [done|]. destruct (weaks s !! src) as [other|]; [|done].
    eapply strong_side_kept_weak_copy; [|exact Hstep]. by intros.
  - destruct (weaks s !! w); [done|]. destruct (weaks s !! src) as [other|]; [|done].
    simpl in Hstep. simplify_eq. by apply strong_side_kept_refl.
  - by eapply strong_side_kept_weak_destroy.
Qed.

Lemma strong_side_kept_step o s s' ev :
  Inv s → is_weak_op o = true → step o s = Some (s', ev) → strong_side_kept s s' ev.
Proof.
  intros HI Hweak Hstep.
  assert (∀ dst src o2, dst ≠ src → is_weak_op o2 = true → is_acquire o2 = true →
            run [op_weak_destroy dst; o2] s = Some (s', ev) → strong_side_kept s s' ev)
    as Htwo.
  { intros dst src o2 Hne Hw2 Ha2 Hrun.
    apply run_two in Hrun as (s1 & e1 & e2 & H1 & H2 & ->).
    pose proof (step_inv_weak_destroy _ _ _ _ HI H1) as HI1.
    apply (strong_side_kept_trans s s1 s').
    - by apply (strong_side_kept_basic (op_weak_destroy dst)); [|done|left|].
    - by apply (strong_side_kept_basic o2); [|done|right|]. }
  destruct o; try done;
    try (apply (strong_side_kept_basic _ _ _ _ HI Hweak); [|done]; simpl; by eauto).
  - destruct (decide (dst = src)) as [->|Hne].
    + rewrite step_weak_assign_self in Hstep.
      destruct (weaks s !! src); [|done]. simplify_eq. by apply strong_side_kept_refl.
    + rewrite step_weak_assign_ne in Hstep by done.
      exact (Htwo dst src (op_weak_copy dst src) Hne eq_refl eq_refl Hstep).
  - destruct (decide (dst = src)) as [->|Hne].
    + rewrite step_weak_move_assign_self in Hstep.
      destruct (weaks s !! src); [|done]. simplify_eq. by apply strong_side_kept_refl.
    + rewrite step_weak_move_assign_ne in Hstep by done.
      exact (Htwo dst src (op_weak_move dst src) Hne eq_refl eq_refl Hstep).
Qed.

Lemma weak_counters_only_refl s s' :
  arcs s' = arcs s → mem s' = mem s → weak_counters_only s s' [].
Proof.
  intros Ha Hm. unfold weak_counters_only. rewrite Ha, Hm.
  split; [done|]. split; [done|]. split.
  - intros e He. by apply elem_of_nil in He.
  - intros b. by destruct (blocks (mem s) !! b).
Qed.

Lemma weak_counters_only_trans s s1 s' e1 e2 :
  weak_counters_only s s1 e1 → weak_counters_only s1 s' e2 →
  weak_counters_only s s' (e1 ++ e2).
Proof.
  intros (Ha1 & Hb1 & He1 & Hk1) (Ha2 & Hb2 & He2 & Hk2).
  split; [congruence|]. split; [congruence|]. split.
  - intros e [?|?]%elem_of_app; eauto.
  - intros b. specialize (Hk1 b). specialize (Hk2 b).
    destruct (blocks (mem s) !! b), (blocks (mem s1) !! b), (blocks (mem s') !! b);
      try done. split; destruct Hk1, Hk2; congruence.
Qed.

Lemma weak_counters_only_upd s s' b c w ev :
  arcs s' = arcs s → blocks (mem s) !! b = Some c →
  mem s' = upd b (mk_block (_ref_count c) w (_payload c)) (mem s) →
  (∀ e, e ∈ ev → ∃ b k, e = ev_weak_add b k ∨ e = ev_weak_sub b k) →
  weak_counters_only s s' ev.
Proof.
  intros Ha Hc Hm Hev. unfold weak_counters_only. rewrite Ha, Hm.
  split; [done|]. split; [done|]. split; [done|].
  intros b'. simpl. destruct (decide (b' = b)) as [->|Hne].
  - by rewrite lookup_insert_eq, Hc.
  - rewrite lookup_insert_ne by done. by destruct (blocks (mem s) !! b').
Qed.

Lemma weak_counters_only_basic o s s' ev :
  Inv s → is_weak_op o = true → is_release o = true ∨ is_acquire o = true →
  step o s = Some (s', ev) → (∀ b, ev_delete_block b ∉ ev) →
  weak_counters_only s s' ev.
Proof.
  intros HI Hweak Hkind Hstep Hkeep.
  assert (∀ other (k : option nat → memory → state),
            (∀ blk m, arcs (k blk m) = arcs s ∧ mem (k blk m) = m) →
            exec (weak_copy other) s k = Some (s', ev) → weak_counters_only s s' ev)
    as Hcopy.
  { intros other k Hk Hexec. apply exec_Some in Hexec as (blk & m & Hc & ->).
    destruct (Hk blk m) as [Ha Hm]. destruct other as [b|].
    - destruct (blocks (mem s) !! b) as [c|] eqn:Hb;
        [rewrite (weak_copy_Some _ _ _ Hb) in Hc | by rewrite weak_copy_undefined in Hc].
      simplify_eq. eapply weak_counters_only_upd; [done|done|by rewrite Hm|].
      intros e He. set_unfold. naive_solver.
    - unfold weak_copy, ret in Hc. simplify_eq. apply weak_counters_only_refl; [done|].
      by rewrite Hm. }
  destruct o; try done; try (by destruct Hkind); simpl in Hstep.
  - destruct (weaks s !! w); [done|]. simplify_eq. by apply weak_counters_only_refl.
  - destruct (weaks s !! w); [done|]. destruct (arcs s !! src) as [shared|]; [|done].
    eapply Hcopy; [|exact Hstep]. by intros.
  - destruct (weaks s !! w); [done|]. destruct (weaks s !! src) as [other|]; [|done].
    eapply Hcopy; [|exact Hstep]. by intros.
  - destruct (weaks s !! w); [done|]. destruct (weaks s !! src) as [other|]; [|done].
    simpl in Hstep. simplify_eq. by apply weak_counters_only_refl.
  - destruct (weaks s !! w) as [[b|]|] eqn:Hw; [| |done].
    + apply exec_Some in Hstep as ([] & m & Hrel & ->). simpl in Hrel.
      destruct (inv_weak_live _ _ _ HI Hw) as [c Hc].
      rewrite (release_weak_ref_inv _ _ _ HI Hc) in Hrel.
      destruct (decide (_weak_count c = 1)) as [Hone|Hone]; simplify_eq.
      * exfalso. apply (Hkeep b). set_unfold. naive_solver.
      * eapply weak_counters_only_upd; [done|done|done|].
        intros e He. set_unfold. naive_solver.
    + apply exec_Some in Hstep as ([] & m & Hrel & ->).
      unfold weak_destroy, ret in Hrel. simplify_eq. by apply weak_counters_only_refl.
Qed.

Lemma weak_counters_only_step o s s' ev :
  Inv s → is_weak_op o = true → step o s = Some (s', ev) →
  (∀ b, ev_delete_block b ∉ ev) → weak_counters_only s s' ev.
Proof.
  intros HI Hweak Hstep Hkeep.
  assert (∀ dst src o2, dst ≠ src → is_weak_op o2 = true → is_acquire o2 = true →
            run [op_weak_destroy dst; o2] s = Some (s', ev) → weak_counters_only s s' ev)
    as Htwo.
  { intros dst src o2 Hne Hw2 Ha2 Hrun.
    apply run_two in Hrun as (s1 & e1 & e2 & H1 & H2 & ->).
    pose proof (step_inv_weak_destroy _ _ _ _ HI H1) as HI1.
    apply (weak_counters_only_trans s s1 s').
    - apply (weak_counters_only_basic (op_weak_destroy dst)); [done|done|by left|done|].
      intros b Hb. apply (Hkeep b). apply elem_of_app. by left.
    - apply (weak_counters_only_basic o2); [done|done|by right|done|].
      intros b Hb. apply (Hkeep b). apply elem_of_app. by right. }
  destruct o; try done;
    try (apply (weak_counters_only_basic _ _ _ _ HI Hweak); [|done|done]; simpl; by eauto).
  - destruct (decide (dst = src)) as [->|Hne].
    + rewrite step_weak_assign_self in Hstep.
      destruct (weaks s !! src); [|done]. simplify_eq. by apply weak_counters_only_refl.
    + rewrite step_weak_assign_ne in Hstep by done.
      exact (Htwo dst src (op_weak_copy dst src) Hne eq_refl eq_refl Hstep).
  - destruct (decide (dst = src)) as [->|Hne].
    + rewrite step_weak_move_assign_self in Hstep.
      destruct (weaks s !! src); [|done]. simplify_eq. by apply weak_counters_only_refl.
    + rewrite step_weak_move_assign_ne in Hstep by done.
      exact (Htwo dst src (op_weak_move dst src) Hne eq_refl eq_refl Hstep).
Qed.

(** X11.  A [weak_arc] does not own the payload.  In every state a
    sequential program reaches, for a statement on [weak_arc] objects
    (construction, also from an [arc], copy, move, assignment,
    destruction): a control block to which a living [arc] object refers
    is not deallocated by it, that block's payload is not destroyed, and
    its payload descriptor ([_data] and [_size], or the inline object) is
    as it was.  And unless the statement deallocates a block (which only
    the destruction or overwriting of the last handle of a block does),
    it changes nothing but weak counters: the [arc] objects, the buffers,
    the set of allocated blocks, the strong counter and payload of every
    block, and hence the [use_count()] of every [arc], stay as they
    are. *)
Theorem weak_handles_do_not_own (s s' : state) (o : op) (ev : list event) :
  reachable s → is_weak_op o = true → step o s = Some (s', ev) →
  (∀ h b, arcs s !! h = Some (Some b) →
     (ev_destroy_object b ∉ ev) ∧ (ev_delete_block b ∉ ev) ∧
     ∃ c c', blocks (mem s) !! b = Some c ∧ blocks (mem s') !! b = Some c' ∧
             _payload c' = _payload c) ∧
  ((∀ b, ev_delete_block b ∉ ev) →
     arcs s' = arcs s ∧ buffers (mem s') = buffers (mem s) ∧
     (∀ e, e ∈ ev → ∃ b k, e = ev_weak_add b k ∨ e = ev_weak_sub b k) ∧
     (∀ b, match blocks (mem s) !! b, blocks (mem s') !! b with
           | Some c, Some c' => _ref_count c' = _ref_count c ∧ _payload c' = _payload c
           | None, None => True
           | _, _ => False
           end) ∧
     (∀ h this, arcs s !! h = Some this →
        observe (use_count this) s' = observe (use_count this) s)).
Proof.
  intros Hreach Hweak Hstep. pose proof (reachable_inv _ Hreach) as HI. split.
  - destruct (strong_side_kept_step _ _ _ _ HI Hweak Hstep) as (_ & _ & _ & Hk).
    intros h b Hh. destruct (inv_arc_live _ _ _ HI Hh) as [c Hc].
    pose proof (holders_pos _ _ _ Hh) as Hpos.
    destruct (Hk b c Hc) as (Hd & Hf & c' & Hc' & _ & Hp); [lia|].
    split; [done|]. split; [done|]. by exists c, c'.
  - intros Hkeep.
    destruct (weak_counters_only_step _ _ _ _ HI Hweak Hstep Hkeep) as (Ha & Hb & He & Hk).
    split; [done|]. split; [done|]. split; [done|]. split; [done|].
    intros h [b|] Hh; [|done].
    destruct (inv_arc_live _ _ _ HI Hh) as [c Hc]. specialize (Hk b). rewrite Hc in Hk.
    destruct (blocks (mem s') !! b) as [c'|] eqn:Hc'; [|done]. destruct Hk as [Hr _].
    unfold observe. simpl.
    by rewrite (ref_count_Some _ _ _ Hc), (ref_count_Some _ _ _ Hc'), Hr.
Qed.

Lemma weak_handles_do_not_own_witness :
  observe (use_count (Some 0%nat))
    (mk_state (mk_memory {[0%nat := mk_block 2 1 inline_object]} ∅ 1%nat)
       (<[1%nat := Some 0%nat]> {[0%nat := Some 0%nat]}) {[1%nat := None]}) =
  observe (use_count (Some 0%nat)) two_arcs_two_weaks.
Proof.
  destruct (weak_handles_do_not_own two_arcs_two_weaks
              (mk_state (mk_memory {[0%nat := mk_block 2 1 inline_object]} ∅ 1%nat)
                 (<[1%nat := Some 0%nat]> {[0%nat := Some 0%nat]}) {[1%nat := None]})
              (op_weak_destroy 0%nat) [ev_weak_sub 0%nat 2])
    as (_ & Hquiet).
  - exists [op_make_arc 0%nat; op_arc_copy 1%nat 0%nat; op_weak_from_arc 0%nat 0%nat;
            op_weak_default 1%nat],
      [ev_new_block 0%nat; ev_ref_add 0%nat 1; ev_weak_add 0%nat 1].
    split; vm_compute; reflexivity.
  - reflexivity.
  - vm_compute. reflexivity.
  - destruct Hquiet as (_ & _ & _ & _ & Huse).
    + intros b Hb. apply list_elem_of_singleton in Hb. discriminate Hb.
    + apply (Huse 0%nat (Some 0%nat)). reflexivity.
Defined.

(** ** Temporary handles *)

Lemma exec_eq {A} (c : M A) s (k : A → memory → state) a m ev :
  c (mem s) = Some (a, m, ev) → exec c s k = Some (k a m, ev).
Proof. intros Hc. unfold exec. by rewrite Hc. Qed.

Lemma run_two_steps o1 o2 s s1 s2 e1 e2 :
  step o1 s = Some (s1, e1) → step o2 s1 = Some (s2, e2) →
  run [o1; o2] s = Some (s2, e1 ++ e2).
Proof. intros H1 H2. simpl. rewrite H1, H2. by rewrite app_nil_r. Qed.

Lemma arc_copy_then_destroy b c m :
  blocks m !! b = Some c → 1 ≤ _ref_count c → _ref_count c + 1 < size_modulus →
  arc_copy (Some b) m =
    Some (Some b, upd b (mk_block (_ref_count c + 1) (_weak_count c) (_payload c)) m,
          [ev_ref_add b (_ref_count c)]) ∧
  arc_destroy (Some b) (upd b (mk_block (_ref_count c + 1) (_weak_count c) (_payload c)) m) =
    Some (tt, m, [ev_ref_sub b (_ref_count c + 1)]).
Proof.
  intros Hc Hpos Hlt. split.
  - rewrite (arc_copy_Some _ _ _ Hc). by rewrite wrap_small by lia.
  - simpl. erewrite release_ref_keep; [|apply upd_lookup|simpl; lia]. simpl.
    rewrite upd_twice. replace (_ref_count c + 1 - 1) with (_ref_count c) by lia.
    rewrite wrap_small by lia. by rewrite block_eta, upd_id.
Qed.

Lemma weak_copy_then_destroy b c m :
  blocks m !! b = Some c → 1 ≤ _weak_count c → _weak_count c + 1 < size_modulus →
  weak_copy (Some b) m =
    Some (Some b, upd b (mk_block (_ref_count c) (_weak_count c + 1) (_payload c)) m,
          [ev_weak_add b (_weak_count c)]) ∧
  weak_destroy (Some b) (upd b (mk_block (_ref_count c) (_weak_count c + 1) (_payload c)) m) =
    Some (tt, m, [ev_weak_sub b (_weak_count c + 1)]).
Proof.
  intros Hc Hpos Hlt. split.
  - rewrite (weak_copy_Some _ _ _ Hc). by rewrite wrap_small by lia.
  - simpl. erewrite release_weak_ref_keep; [|apply upd_lookup|simpl; lia]. simpl.
    rewrite upd_twice. replace (_weak_count c + 1 - 1) with (_weak_count c) by lia.
    rewrite wrap_small by lia. by rewrite block_eta, upd_id.
Qed.

Lemma temporary_arc s h blk m1 e2 :
  arcs s !! h = None →
  arc_destroy blk m1 = Some (tt, mem s, e2) →
  step (op_arc_destroy h) (mk_state m1 (<[h := blk]> (arcs s)) (weaks s)) = Some (s, e2).
Proof.
  intros Hh Hd. simpl. rewrite lookup_insert_eq.
  unfold exec. simpl. rewrite Hd. simpl.
  by rewrite delete_insert_id, state_eta.
Qed.

Lemma temporary_weak s w blk m1 e2 :
  weaks s !! w = None →
  weak_destroy blk m1 = Some (tt, mem s, e2) →
  step (op_weak_destroy w) (mk_state m1 (arcs s) (<[w := blk]> (weaks s))) = Some (s, e2).
Proof.
  intros Hw Hd. simpl. rewrite lookup_insert_eq.
  unfold exec. simpl. rewrite Hd. simpl.
  by rewrite delete_insert_id, state_eta.
Qed.

Lemma temporary_strong s h b c :
  Inv s → Z.of_nat (handles s) < size_modulus - 1 → arcs s !! h = None →
  blocks (mem s) !! b = Some c → 1 ≤ _ref_count c →
  ∃ e1 e2,
    arc_copy (Some b) (mem s) =
      Some (Some b,
            upd b (mk_block (_ref_count c + 1) (_weak_count c) (_payload c)) (mem s), e1) ∧
    step (op_arc_destroy h)
      (mk_state (upd b (mk_block (_ref_count c + 1) (_weak_count c) (_payload c)) (mem s))
         (<[h := Some b]> (arcs s)) (weaks s)) = Some (s, e2) ∧
    e1 = [ev_ref_add b (_ref_count c)] ∧
    ∀ e, e ∈ e1 ++ e2 → counter_event e = true.
Proof.
  intros HI Hbnd Hh Hc Hpos.
  pose proof (inv_counts_le_handles _ _ _ HI Hc) as [Hr _].
  destruct (arc_copy_then_destroy b c (mem s) Hc) as [H1 H2]; [lia..|].
  do 2 eexists. split; [exact H1|]. split; [by apply temporary_arc|]. split; [done|].
  intros e He. set_unfold. naive_solver.
Qed.

Lemma temporary_weak_ref s w b c :
  Inv s → Z.of_nat (handles s) < size_modulus - 1 → weaks s !! w = None →
  blocks (mem s) !! b = Some c →
  ∃ e1 e2,
    weak_copy (Some b) (mem s) =
      Some (Some b,
            upd b (mk_block (_ref_count c) (_weak_count c + 1) (_payload c)) (mem s), e1) ∧
    step (op_weak_destroy w)
      (mk_state (upd b (mk_block (_ref_count c) (_weak_count c + 1) (_payload c)) (mem s))
         (arcs s) (<[w := Some b]> (weaks s))) = Some (s, e2) ∧
    ∀ e, e ∈ e1 ++ e2 → counter_event e = true.
Proof.
  intros HI Hbnd Hw Hc.
  pose proof (inv_counts_le_handles _ _ _ HI Hc) as [_ Hwc].
  destruct (weak_copy_then_destroy b c (mem s) Hc) as [H1 H2]; [lia..|].
  do 2 eexists. split; [exact H1|]. split; [by apply temporary_weak|].
  intros e He. set_unfold. naive_solver.
Qed.

(** X12.  A temporary handle leaves no trace in the state.  In every
    state a sequential program reaches, constructing a handle from a
    living handle and destroying it again restores the state exactly
    (every counter, every payload and every handle object), and produces
    only counter updates: nothing is destroyed or deallocated.  This
    holds, each on its own, for a copy of any living [arc], for a
    [weak_arc] made from any living [arc], for a copy of any living
    [weak_arc], and for the [arc] that [lock()] on any living [weak_arc]
    returns, whether that weak handle has expired or not. *)
Theorem temporary_handle_restores_state (s : state) :
  reachable s →
  (∀ h src this, arcs s !! h = None → arcs s !! src = Some this →
     ∃ ev, run [op_arc_copy h src; op_arc_destroy h] s = Some (s, ev) ∧
           ∀ e, e ∈ ev → counter_event e = true) ∧
  (∀ w src this, weaks s !! w = None → arcs s !! src = Some this →
     ∃ ev, run [op_weak_from_arc w src; op_weak_destroy w] s = Some (s, ev) ∧
           ∀ e, e ∈ ev → counter_event e = true) ∧
  (∀ w src this, weaks s !! w = None → weaks s !! src = Some this →
     ∃ ev, run [op_weak_copy w src; op_weak_destroy w] s = Some (s, ev) ∧
           ∀ e, e ∈ ev → counter_event e = true) ∧
  (∀ h src this, arcs s !! h = None → weaks s !! src = Some this →
     ∃ ev, run [op_lock h src; op_arc_destroy h] s = Some (s, ev) ∧
           ∀ e, e ∈ ev → counter_event e = true).
Proof.
  intros Hreach. pose proof (reachable_inv _ Hreach) as HI.
  pose proof (reachable_bounded _ Hreach) as Hbnd.
  split; [|split; [|split]].
  - intros h src [b|] Hh Hsrc.
    + destruct (inv_arc_live _ _ _ HI Hsrc) as [c Hc].
      pose proof (inv_block _ _ _ HI Hc) as (Hr & _).
      pose proof (holders_pos _ _ _ Hsrc) as Hpos.
      destruct (temporary_strong s h b c HI Hbnd Hh Hc) as (e1 & e2 & H1 & H2 & _ & Hev);
        [lia|].
      exists (e1 ++ e2). split; [|done].
      eapply run_two_steps; [|exact H2]. simpl. rewrite Hh, Hsrc.
      exact (exec_eq _ _ _ _ _ _ H1).
    + exists ([] ++ []). split; [|by intros e ?%elem_of_nil].
      eapply run_two_steps; [|by apply (temporary_arc s h None)].
      simpl. by rewrite Hh, Hsrc.
  - intros w src [b|] Hw Hsrc.
    + destruct (inv_arc_live _ _ _ HI Hsrc) as [c Hc].
      destruct (temporary_weak_ref s w b c HI Hbnd Hw Hc) as (e1 & e2 & H1 & H2 & Hev).
      exists (e1 ++ e2). split; [|done].
      eapply run_two_steps; [|exact H2]. simpl. rewrite Hw, Hsrc.
      exact (exec_eq _ _ _ _ _ _ H1).
    + exists ([] ++ []). split; [|by intros e ?%elem_of_nil].
      eapply run_two_steps; [|by apply (temporary_weak s w None)].
      simpl. by rewrite Hw, Hsrc.
  - intros w src [b|] Hw Hsrc.
    + destruct (inv_weak_live _ _ _ HI Hsrc) as [c Hc].
      destruct (temporary_weak_ref s w b c HI Hbnd Hw Hc) as (e1 & e2 & H1 & H2 & Hev).
      exists (e1 ++ e2). split; [|done].
      eapply run_two_steps; [|exact H2]. simpl. rewrite Hw, Hsrc.
      exact (exec_eq _ _ _ _ _ _ H1).
    + exists ([] ++ []). split; [|by intros e ?%elem_of_nil].
      eapply run_two_steps; [|by apply (temporary_weak s w None)].
      simpl. by rewrite Hw, Hsrc.
  - intros h src [b|] Hh Hsrc.
    + destruct (inv_weak_live _ _ _ HI Hsrc) as [c Hc].
      pose proof (lock_Some _ _ _ Hc) as Hlock.
      destruct (0 <? _ref_count c) eqn:Hpos.
      * apply Z.ltb_lt in Hpos.
        destruct (temporary_strong s h b c HI Hbnd Hh Hc) as (e1 & e2 & H1 & H2 & -> & Hev);
          [lia|].
        pose proof (inv_counts_le_handles _ _ _ HI Hc) as [Hr _].
        rewrite wrap_small in Hlock by lia.
        exists ([ev_ref_add b (_ref_count c)] ++ e2). split; [|done].
        eapply run_two_steps; [|exact H2]. simpl. rewrite Hh, Hsrc.
        exact (exec_eq _ _ _ _ _ _ Hlock).
      * exists ([] ++ []). split; [|by intros e ?%elem_of_nil].
        eapply run_two_steps; [|by apply (temporary_arc s h None)].
        simpl. rewrite Hh, Hsrc. exact (exec_eq _ _ _ _ _ _ Hlock).
    + exists ([] ++ []). split; [|by intros e ?%elem_of_nil].
      eapply run_two_steps; [|by apply (temporary_arc s h None)].
      simpl. by rewrite Hh, Hsrc.
Qed.

Lemma temporary_handle_restores_state_witness :
  (∃ ev, run [op_arc_copy 1%nat 0%nat; op_arc_destroy 1%nat] one_arc = Some (one_arc, ev) ∧
         ∀ e, e ∈ ev → counter_event e = true) ∧
  (∃ ev, run [op_lock 2%nat 0%nat; op_arc_destroy 2%nat] two_arcs_two_weaks =
           Some (two_arcs_two_weaks, ev) ∧
         ∀ e, e ∈ ev → counter_event e = true).
Proof.
  split.
  - destruct (temporary_handle_restores_state one_arc) as (Hcopy & _).
    + exists [op_make_arc 0%nat], [ev_new_block 0%nat]. split; vm_compute; reflexivity.
    + apply (Hcopy 1%nat 0%nat (Some 0%nat)); reflexivity.
  - destruct (temporary_handle_restores_state two_arcs_two_weaks) as (_ & _ & _ & Hlock).
    + exists [op_make_arc 0%nat; op_arc_copy 1%nat 0%nat; op_weak_from_arc 0%nat 0%nat;
              op_weak_default 1%nat],
        [ev_new_block 0%nat; ev_ref_add 0%nat 1; ev_weak_add 0%nat 1].
      split; vm_compute; reflexivity.
    + apply (Hlock 2%nat 0%nat (Some 0%nat)); reflexivity.
Defined.

(** ** Construction with [make_arc] *)

Lemma fresh_block_unshared s :
  Inv s →
  blocks (mem s) !! next (mem s) = None ∧
  (∀ h', arcs s !! h' ≠ Some (Some (next (mem s)))) ∧
  (∀ w, weaks s !! w ≠ Some (Some (next (mem s)))) ∧
  (∀ h' this c, arcs s !! h' = Some this ∨ weaks s !! h' = Some this →
     observe (use_count this) (mk_state (mk_memory (<[next (mem s) := c]> (blocks (mem s)))
                                            (buffers (mem s)) (S (next (mem s))))
                                 (arcs s) (weaks s)) =
     observe (use_count this) s).
Proof.
  intros HI. destruct (inv_next_unused _ HI) as (Hnone & Ha & Hw).
  split; [done|]. split; [|split].
  - intros h' Hh'. apply holders_pos in Hh'. lia.
  - intros w Hw'. apply holders_pos in Hw'. lia.
  - intros h' [b'|] c Hh'; [|done].
    assert (b' ≠ next (mem s)) as Hne.
    { intros ->. destruct Hh' as [Hh'|Hh']; apply holders_pos in Hh'; lia. }
    unfold observe, use_count, ref_count, bind, load. simpl.
    rewrite lookup_insert_ne by done. by destruct (blocks (mem s) !! b').
Qed.

(** X13.  [make_arc<T>(args...)] returns what the constructor selected
    for the pack returns.  With an empty pack that is [arc()]: the result
    is a null handle, and nothing is allocated or touched.  With a pack
    from which [T] is constructed, in a state a sequential program has
    reached: one control block is allocated, at an address that was not
    allocated and to which no living [arc] or [weak_arc] refers, and the
    header touches no other block and no buffer (what the constructor of
    [T] does with its arguments is the client's); as the new object [h] the
    result is non-null, [get()] is the address of the object in that
    block, [use_count()] is 1 and [unique()] is true, and the
    [use_count()] of every other handle is what it was.  With one living
    [arc<T>] for which the copy constructor is selected the result shares
    that handle's block, and behind the move constructor it takes the
    block over without any counter operation. *)
Theorem make_arc_by_pack :
  (∀ m, make_arc pack_empty m = Some (None, m, []) ∧ to_bool None = false) ∧
  (∀ s, reachable s →
     ∃ b m',
       make_arc pack_object (mem s) = Some (Some b, m', [ev_new_block b]) ∧
       blocks (mem s) !! b = None ∧
       (∀ h', arcs s !! h' ≠ Some (Some b)) ∧ (∀ w, weaks s !! w ≠ Some (Some b)) ∧
       blocks m' = <[b := mk_block 1 1 inline_object]> (blocks (mem s)) ∧
       buffers m' = buffers (mem s) ∧
       to_bool (Some b) = true ∧ get_object (Some b) = object_of b ∧
       ∀ h, arcs s !! h = None →
         let s' := mk_state m' (<[h := Some b]> (arcs s)) (weaks s) in
         step (op_make_arc h) s = Some (s', [ev_new_block b]) ∧
         observe (use_count (Some b)) s' = Some 1 ∧
         observe (unique (Some b)) s' = Some true ∧
         ∀ h' this, arcs s !! h' = Some this ∨ weaks s !! h' = Some this →
           observe (use_count this) s' = observe (use_count this) s) ∧
  (∀ s src other, reachable s → arcs s !! src = Some other →
     make_arc (pack_arc other) (mem s) = arc_copy other (mem s) ∧
     (∃ m ev, make_arc (pack_arc other) (mem s) = Some (other, m, ev) ∧
              (ev = [] ∨ ∃ b k, ev = [ev_ref_add b k])) ∧
     make_arc (pack_arc_rvalue other) (mem s) = Some (other, mem s, []) ∧
     (arc_move other).2 = None).
Proof.
  split; [done|]. split.
  - intros s Hreach. pose proof (reachable_inv _ Hreach) as HI.
    destruct (fresh_block_unshared _ HI) as (Hnone & Ha & Hw & Huse).
    exists (next (mem s)),
      (mk_memory (<[next (mem s) := mk_block 1 1 inline_object]> (blocks (mem s)))
         (buffers (mem s)) (S (next (mem s)))).
    do 8 (split; [done|]).
    intros h Hh. simpl. split; [by rewrite Hh|]. split; [|split].
    + unfold observe, use_count, ref_count, bind, load. simpl. by rewrite lookup_insert_eq.
    + unfold observe, unique, use_count, ref_count, bind, load. simpl.
      by rewrite lookup_insert_eq.
    + intros h' this Hh'. apply (Huse h' this _ Hh').
  - intros s src other Hreach Hsrc. pose proof (reachable_inv _ Hreach) as HI.
    split; [done|]. split; [|done].
    destruct other as [b|]; unfold make_arc.
    + destruct (inv_arc_live _ _ _ HI Hsrc) as [c Hc]. rewrite (arc_copy_Some _ _ _ Hc).
      do 2 eexists. split; [done|]. right. eauto.
    + do 2 eexists. split; [done|]. by left.
Qed.

Lemma make_arc_by_pack_witness :
  make_arc pack_empty (mem two_arcs_two_weaks) = Some (None, mem two_arcs_two_weaks, []) ∧
  ∃ b s', step (op_make_arc 2%nat) two_arcs_two_weaks = Some (s', [ev_new_block b]) ∧
          observe (unique (Some b)) s' = Some true ∧
          observe (use_count (Some 0%nat)) s' = Some 2.
Proof.
  destruct make_arc_by_pack as (Hempty & Hobject & _).
  split; [apply (Hempty (mem two_arcs_two_weaks))|].
  destruct (Hobject two_arcs_two_weaks) as (b & m' & _ & _ & _ & _ & _ & _ & _ & _ & Hstep).
  - exists [op_make_arc 0%nat; op_arc_copy 1%nat 0%nat; op_weak_from_arc 0%nat 0%nat;
            op_weak_default 1%nat],
      [ev_new_block 0%nat; ev_ref_add 0%nat 1; ev_weak_add 0%nat 1].
    split; vm_compute; reflexivity.
  - destruct (Hstep 2%nat) as (Hs & _ & Huniq & Huse); [reflexivity|].
    eexists b, _. split; [exact Hs|]. split; [exact Huniq|].
    rewrite (Huse 0%nat (Some 0%nat)); [reflexivity|]. left. reflexivity.
Defined.

(** X14.  [make_arc<T[]>(n)] in a state a program has reached, the result
    becoming the new object [h]: it allocates one control block and one
    buffer, both new (the block was not allocated and no living handle
    refers to it; the buffer was not live and is the [_data] of no other
    block), and touches nothing else.  [get()] on the new handle returns
    the buffer, [operator[]] is defined exactly at the indices below [n],
    [use_count()] is 1 and [unique()] is true, and the [use_count()] of
    every other handle is what it was. *)
Theorem make_arc_array_owns_a_new_buffer (s : state) (h : nat) (n : Z) :
  reachable s → arcs s !! h = None →
  ∃ b d s',
    make_arc_array n (mem s) = Some (Some b, mem s', [ev_new_block b; ev_new_array d]) ∧
    step (op_make_arc_array h n) s = Some (s', [ev_new_block b; ev_new_array d]) ∧
    arcs s' = <[h := Some b]> (arcs s) ∧ weaks s' = weaks s ∧
    blocks (mem s) !! b = None ∧
    (∀ h', arcs s !! h' ≠ Some (Some b)) ∧ (∀ w, weaks s !! w ≠ Some (Some b)) ∧
    (d ∉ buffers (mem s)) ∧
    (∀ b' c n', blocks (mem s) !! b' = Some c → _payload c ≠ array_buffer (Some d) n') ∧
    blocks (mem s') = <[b := mk_block 1 1 (array_buffer (Some d) n)]> (blocks (mem s)) ∧
    buffers (mem s') = {[d]} ∪ buffers (mem s) ∧
    to_bool (Some b) = true ∧
    observe (get_array (Some b)) s' = Some (array_at d) ∧
    (∀ i, observe (index (Some b) i) s' = if (0 <=? i) && (i <? n) then Some (d, i) else None) ∧
    observe (use_count (Some b)) s' = Some 1 ∧
    observe (unique (Some b)) s' = Some true ∧
    ∀ h' this, arcs s !! h' = Some this ∨ weaks s !! h' = Some this →
      observe (use_count this) s' = observe (use_count this) s.
Proof.
  intros Hreach Hh. pose proof (reachable_inv _ Hreach) as HI.
  destruct (fresh_block_unshared _ HI) as (Hnone & Ha & Hw & Huse).
  assert (S (next (mem s)) ∉ buffers (mem s)) as Hd.
  { intros Hd. apply (inv_fresh_buffers _ HI) in Hd. lia. }
  exists (next (mem s)), (S (next (mem s))),
    (mk_state
       (mk_memory
          (<[next (mem s) := mk_block 1 1 (array_buffer (Some (S (next (mem s)))) n)]>
             (blocks (mem s)))
          ({[S (next (mem s))]} ∪ buffers (mem s)) (S (S (next (mem s)))))
       (<[h := Some (next (mem s))]> (arcs s)) (weaks s)).
  split; [apply arc_make_array_eq|].
  split; [simpl; rewrite Hh; unfold exec; by rewrite arc_make_array_eq|].
  do 6 (split; [done|]).
  split.
  { intros b' c n' Hc Hp. apply Hd. apply (inv_block _ _ _ HI) in Hc as (_ & _ & _ & _ & _ & Hown & _).
    rewrite Hp in Hown. set_solver. }
  do 3 (split; [done|]).
  split; [|split; [|split; [|split]]].
  - unfold observe, get_array, bind, load. simpl. by rewrite lookup_insert_eq.
  - intros i. unfold observe, index, bind, load. simpl. rewrite lookup_insert_eq. simpl.
    by destruct ((0 <=? i) && (i <? n)).
  - unfold observe, use_count, ref_count, bind, load. simpl. by rewrite lookup_insert_eq.
  - unfold observe, unique, use_count, ref_count, bind, load. simpl.
    by rewrite lookup_insert_eq.
  - intros h' [b'|] Hh'; [|done].
    assert (b' ≠ next (mem s)) as Hne.
    { intros ->. destruct Hh' as [Hh'|Hh']; [by apply Ha in Hh'|by apply Hw in Hh']. }
    unfold observe, use_count, ref_count, bind, load. simpl.
    rewrite lookup_insert_ne by done. by destruct (blocks (mem s) !! b').
Qed.

Lemma make_arc_array_owns_a_new_buffer_witness :
  ∃ b d s', step (op_make_arc_array 3%nat 5) two_arrays =
              Some (s', [ev_new_block b; ev_new_array d]) ∧
            observe (index (Some b) 4) s' = Some (d, 4) ∧
            observe (index (Some b) 5) s' = None.
Proof.
  destruct (make_arc_array_owns_a_new_buffer two_arrays 3%nat 5)
    as (b & d & s' & _ & Hstep & _ & _ & _ & _ & _ & _ & _ & _ & _ & _ & _ & Hidx & _).
  - exists [op_make_arc_array 0%nat 3; op_make_arc_array 1%nat 2; op_arc_copy 2%nat 0%nat],
      [ev_new_block 0%nat; ev_new_array 1%nat; ev_new_block 2%nat; ev_new_array 3%nat;
       ev_ref_add 0%nat 1].
    split; vm_compute; reflexivity.
  - reflexivity.
  - exists b, d, s'. split; [exact Hstep|]. split.
    + exact (Hidx 4).
    + exact (Hidx 5).
Defined.

(** ** Expiry *)

(** X15.  Once expired, always expired.  In a state a program has
    reached, let [expired()] be true on a [weak_arc] that refers to the
    block [b].  After any further statement (the handle objects still fit
    in the address space afterwards), on every [weak_arc] that refers to
    [b]: [expired()] is true, [use_count()] is 0, [lock()] returns a null
    handle and changes nothing; and no [arc] refers to [b]. *)
Theorem expired_stays_expired (s s' : state) (o : op) (ev : list event) (w w' b : nat) :
  reachable s → weaks s !! w = Some (Some b) →
  observe (expired (Some b)) s = Some true →
  step o s = Some (s', ev) → bounded s' →
  weaks s' !! w' = Some (Some b) →
  observe (expired (Some b)) s' = Some true ∧
  observe (use_count (Some b)) s' = Some 0 ∧
  lock (Some b) (mem s') = Some (None, mem s', []) ∧
  ∀ h, arcs s' !! h ≠ Some (Some b).
Proof.
  intros Hreach Hw Hexp Hstep Hbnd Hw'. pose proof (reachable_inv _ Hreach) as HI.
  destruct (inv_weak_live _ _ _ HI Hw) as [c Hc].
  assert (_ref_count c = 0) as Hz.
  { unfold observe, expired, use_count, bind in Hexp.
    rewrite (ref_count_Some _ _ _ Hc) in Hexp. simpl in Hexp.
    apply Z.eqb_eq. by simplify_eq. }
  pose proof (step_inv _ _ _ _ HI Hstep Hbnd) as HI'.
  destruct (inv_weak_live _ _ _ HI' Hw') as [c' Hc'].
  assert (_ref_count c' = 0) as Hz'.
  { destruct (step_ref_zero o s s' ev b HI Hstep) as [_ Hzero].
    - by eapply inv_fresh_blocks.
    - intros c0 Hc0. congruence.
    - by apply Hzero. }
  split; [|split; [|split]].
  - unfold observe, expired, use_count, bind. rewrite (ref_count_Some _ _ _ Hc'), Hz'. done.
  - unfold observe. simpl. by rewrite (ref_count_Some _ _ _ Hc'), Hz'.
  - rewrite (lock_Some _ _ _ Hc'). by rewrite Hz'.
  - intros h Hh. pose proof (inv_block _ _ _ HI' Hc') as (Hr & _).
    apply holders_pos in Hh. lia.
Qed.

Lemma expired_stays_expired_witness :
  lock (Some 0%nat) (mk_memory {[0%nat := mk_block 0 2 inline_object]} ∅ 1%nat) =
    Some (None, mk_memory {[0%nat := mk_block 0 2 inline_object]} ∅ 1%nat, []).
Proof.
  destruct (expired_stays_expired
              (mk_state (mk_memory {[0%nat := mk_block 0 1 inline_object]} ∅ 1%nat)
                 ∅ {[0%nat := Some 0%nat]})
              (mk_state (mk_memory {[0%nat := mk_block 0 2 inline_object]} ∅ 1%nat)
                 ∅ (<[1%nat := Some 0%nat]> {[0%nat := Some 0%nat]}))
              (op_weak_copy 1%nat 0%nat) [ev_weak_add 0%nat 1] 0%nat 1%nat 0%nat)
    as (_ & _ & Hlock & _).
  - exists [op_make_arc 0%nat; op_weak_from_arc 0%nat 0%nat; op_arc_destroy 0%nat],
      [ev_new_block 0%nat; ev_weak_add 0%nat 1; ev_ref_sub 0%nat 1; ev_weak_sub 0%nat 2].
    split; vm_compute; reflexivity.
  - reflexivity.
  - vm_compute. reflexivity.
  - vm_compute. reflexivity.
  - vm_compute. reflexivity.
  - reflexivity.
  - exact Hlock.
Defined.

(** ** Destruction, handle by handle *)

(** X16.  [~arc()] on a non-null handle [h] of block [b], in every state a
    sequential program reaches.  While another [arc] refers to [b] it
    only takes one off the strong counter of [b]: nothing else in the
    memory changes and only [h] goes away.  When [h] is the last [arc] of
    an [arc<T>] block to which a [weak_arc] still refers, it takes the
    strong counter to 0 and one off the weak counter, and that is all: the
    block stays allocated and the payload is not destroyed.  In general,
    when [h] is the last [arc] of [b], whatever else the statement does:
    an array buffer is freed in this very statement, whether or not weak
    handles remain; if a [weak_arc] still refers to [b] the block stays
    allocated with strong count 0 and is not destroyed; if none does, the
    block is deallocated and an inline payload destroyed. *)
Theorem arc_destruction (s : state) (h b : nat) :
  reachable s → arcs s !! h = Some (Some b) →
  ∃ c,
    blocks (mem s) !! b = Some c ∧
    ((∃ h', h' ≠ h ∧ arcs s !! h' = Some (Some b)) →
       step (op_arc_destroy h) s =
         Some (mk_state
                 (upd b (mk_block (_ref_count c - 1) (_weak_count c) (_payload c)) (mem s))
                 (delete h (arcs s)) (weaks s),
               [ev_ref_sub b (_ref_count c)])) ∧
    ((∀ h', arcs s !! h' = Some (Some b) → h' = h) →
     _payload c = inline_object → (∃ w, weaks s !! w = Some (Some b)) →
       step (op_arc_destroy h) s =
         Some (mk_state (upd b (mk_block 0 (_weak_count c - 1) inline_object) (mem s))
                 (delete h (arcs s)) (weaks s),
               [ev_ref_sub b 1; ev_weak_sub b (_weak_count c)])) ∧
    ((∀ h', arcs s !! h' = Some (Some b) → h' = h) →
     ∀ s' ev, step (op_arc_destroy h) s = Some (s', ev) →
       ev_ref_sub b 1 ∈ ev ∧
       (∀ d n, _payload c = array_buffer (Some d) n →
          ev_delete_array d ∈ ev ∧ d ∉ buffers (mem s')) ∧
       ((∃ w, weaks s !! w = Some (Some b)) →
          (ev_delete_block b ∉ ev) ∧ (ev_destroy_object b ∉ ev) ∧
          ∃ c', blocks (mem s') !! b = Some c' ∧
                _ref_count c' = 0 ∧ _weak_count c' = _weak_count c - 1) ∧
       ((∀ w, weaks s !! w ≠ Some (Some b)) →
          blocks (mem s') !! b = None ∧ ev_delete_block b ∈ ev ∧
          (_payload c = inline_object → ev_destroy_object b ∈ ev))).
Proof.
  intros Hreach Hh. pose proof (reachable_inv _ Hreach) as HI.
  destruct (inv_arc_live _ _ _ HI Hh) as [c Hc]. exists c. split; [done|].
  pose proof (inv_block _ _ _ HI Hc) as (Hr & Hw & Hw1 & _).
  pose proof (holders_pos _ _ _ Hh) as Hpos.
  pose proof (holders_sole _ _ _ Hh) as Hsole.
  assert (ind (holders (arcs s) b ≠ 0%nat) = 1%nat) as Hind.
  { unfold ind. rewrite decide_True by lia. done. }
  rewrite Hind in Hw.
  pose proof (release_ref_inv _ _ _ HI Hc ltac:(lia)) as Hrel.
  assert (step (op_arc_destroy h) s =
          match release_ref b (mem s) with
          | Some (_, m, ev0) => Some (mk_state m (delete h (arcs s)) (weaks s), ev0)
          | None => None
          end) as Hstep.
  { simpl. rewrite Hh. unfold exec. simpl.
    by destruct (release_ref b (mem s)) as [[[[] m] ev0]|]. }
  rewrite Hstep, Hrel. clear Hstep Hrel.
  destruct (decide (_ref_count c = 1)) as [Hone|Hmany].
  - assert (∀ h', arcs s !! h' = Some (Some b) → h' = h) as Hlast.
    { apply Hsole. lia. }
    destruct (decide (_weak_count c = 1)) as [Hnow|Hnow].
    + assert (holders (weaks s) b = 0%nat) as Hnoweak by lia.
      split; [|split].
      * intros (h' & Hne & Hh'). by apply Hlast in Hh'.
      * intros _ _ [w Hw']. apply holders_pos in Hw'. lia.
      * intros _ s' ev Heq. simplify_eq. simpl. split; [set_unfold; naive_solver|].
        split; [|split].
        -- intros d n Hp. rewrite Hp. simpl. set_unfold. naive_solver.
        -- intros [w Hw']. apply holders_pos in Hw'. lia.
        -- intros _. rewrite lookup_delete_eq. split; [done|].
           split; [set_unfold; naive_solver|].
           intros Hp. rewrite Hp. simpl. set_unfold. naive_solver.
    + split; [|split].
      * intros (h' & Hne & Hh'). by apply Hlast in Hh'.
      * intros _ Hp _. rewrite Hp. simpl. unfold upd.
        by rewrite difference_empty_L.
      * intros _ s' ev Heq. simplify_eq. simpl. split; [set_unfold; naive_solver|].
        split; [|split].
        -- intros d n Hp. rewrite Hp. simpl. set_unfold. naive_solver.
        -- intros _. rewrite lookup_insert_eq.
           split; [destruct (_payload c) as [|[d|] n]; simpl; set_unfold; naive_solver|].
           split; [destruct (_payload c) as [|[d|] n]; simpl; set_unfold; naive_solver|].
           eexists. split; [done|]. simpl. split; [done|]. lia.
        -- intros Hnone. destruct (holders_exists (weaks s) b) as [w Hw']; [lia|].
           by apply Hnone in Hw'.
  - split; [done|]. split.
    + intros Hlast. apply Hsole in Hlast. lia.
    + intros Hlast. apply Hsole in Hlast. lia.
Qed.

Lemma arc_destruction_witness :
  step (op_arc_destroy 1%nat) two_arcs_two_weaks =
    Some (mk_state (upd 0%nat (mk_block (2 - 1) 2 inline_object) (mem two_arcs_two_weaks))
            (delete 1%nat (arcs two_arcs_two_weaks)) (weaks two_arcs_two_weaks),
          [ev_ref_sub 0%nat 2]).
Proof.
  destruct (arc_destruction two_arcs_two_weaks 1%nat 0%nat) as (c & Hc & Hother & _).
  - exists [op_make_arc 0%nat; op_arc_copy 1%nat 0%nat; op_weak_from_arc 0%nat 0%nat;
            op_weak_default 1%nat],
      [ev_new_block 0%nat; ev_ref_add 0%nat 1; ev_weak_add 0%nat 1].
    split; vm_compute; reflexivity.
  - reflexivity.
  - simpl in Hc. rewrite lookup_singleton_eq in Hc. injection Hc as <-.
    apply Hother. exists 0%nat. split; [lia|reflexivity].
Defined.

(** X17.  [~weak_arc()] on a non-null handle [w] of block [b], in every
    state a sequential program reaches.  While any other handle, strong
    or weak, refers to [b], it only takes one off the weak counter of
    [b]: nothing else in the memory changes and only [w] goes away.  When
    [w] is the last handle of [b], the strong counter of [b] is 0, its
    weak counter is 1 and, for [arc<T[]>], its [_data] is already null
    (the buffer went with the last [arc]); whatever else the statement
    does, the block is deallocated in it, and for [arc<T>] the destructor
    of the payload runs only now (it did not run when the last [arc] went
    away). *)
Theorem weak_destruction (s : state) (w b : nat) :
  reachable s → weaks s !! w = Some (Some b) →
  ∃ c,
    blocks (mem s) !! b = Some c ∧
    ((∃ h, arcs s !! h = Some (Some b)) ∨
     (∃ w', w' ≠ w ∧ weaks s !! w' = Some (Some b)) →
       step (op_weak_destroy w) s =
         Some (mk_state
                 (upd b (mk_block (_ref_count c) (_weak_count c - 1) (_payload c)) (mem s))
                 (arcs s) (delete w (weaks s)),
               [ev_weak_sub b (_weak_count c)])) ∧
    ((∀ h, arcs s !! h ≠ Some (Some b)) →
     (∀ w', weaks s !! w' = Some (Some b) → w' = w) →
       _ref_count c = 0 ∧ _weak_count c = 1 ∧
       (∀ d n, _payload c ≠ array_buffer (Some d) n) ∧
       ∀ s' ev, step (op_weak_destroy w) s = Some (s', ev) →
         blocks (mem s') !! b = None ∧
         ev_weak_sub b 1 ∈ ev ∧ ev_delete_block b ∈ ev ∧
         (_payload c = inline_object → ev_destroy_object b ∈ ev)).
Proof.
  intros Hreach Hwk. pose proof (reachable_inv _ Hreach) as HI.
  destruct (inv_weak_live _ _ _ HI Hwk) as [c Hc]. exists c. split; [done|].
  pose proof (inv_block _ _ _ HI Hc) as (Hr & Hw & Hw1 & _ & _ & _ & Hp).
  pose proof (holders_pos _ _ _ Hwk) as Hpos.
  pose proof (holders_sole _ _ _ Hwk) as Hsole.
  pose proof (release_weak_ref_inv _ _ _ HI Hc) as Hrel.
  assert (step (op_weak_destroy w) s =
          match release_weak_ref b (mem s) with
          | Some (_, m, ev0) => Some (mk_state m (arcs s) (delete w (weaks s)), ev0)
          | None => None
          end) as Hstep.
  { simpl. rewrite Hwk. unfold exec. simpl.
    by destruct (release_weak_ref b (mem s)) as [[[[] m] ev0]|]. }
  rewrite Hstep, Hrel. clear Hstep Hrel.
  destruct (decide (_weak_count c = 1)) as [Hone|Hmany].
  - assert (holders (arcs s) b = 0%nat ∧ holders (weaks s) b = 1%nat) as [Hza Hzw].
    { unfold ind in Hw. case_decide; lia. }
    split.
    + intros [[h Hh]|(w' & Hne & Hw')].
      * apply holders_pos in Hh. lia.
      * by apply (proj1 Hsole Hzw) in Hw'.
    + intros _ _. split; [lia|]. split; [done|]. split.
      * intros d n Hpc. rewrite Hpc in Hp. done.
      * intros s' ev Heq. simplify_eq. simpl. rewrite lookup_delete_eq.
        split; [done|]. split; [set_unfold; naive_solver|].
        split; [set_unfold; naive_solver|].
        intros Hpc. rewrite Hpc. simpl. set_unfold. naive_solver.
  - split; [done|].
    intros Harcs Hlast. apply Hsole in Hlast.
    assert (holders (arcs s) b = 0%nat) as Hza.
    { destruct (decide (holders (arcs s) b = 0%nat)) as [|Hne]; [done|].
      destruct (holders_exists _ _ Hne) as [h Hh]. by apply Harcs in Hh. }
    unfold ind in Hw. rewrite decide_False in Hw by lia. lia.
Qed.

Lemma weak_destruction_witness :
  step (op_weak_destroy 0%nat) two_arcs_two_weaks =
    Some (mk_state (upd 0%nat (mk_block 2 (2 - 1) inline_object) (mem two_arcs_two_weaks))
            (arcs two_arcs_two_weaks) (delete 0%nat (weaks two_arcs_two_weaks)),
          [ev_weak_sub 0%nat 2]).
Proof.
  destruct (weak_destruction two_arcs_two_weaks 0%nat 0%nat) as (c & Hc & Hother & _).
  - exists [op_make_arc 0%nat; op_arc_copy 1%nat 0%nat; op_weak_from_arc 0%nat 0%nat;
            op_weak_default 1%nat],
      [ev_new_block 0%nat; ev_ref_add 0%nat 1; ev_weak_add 0%nat 1].
    split; vm_compute; reflexivity.
  - reflexivity.
  - simpl in Hc. rewrite lookup_singleton_eq in Hc. injection Hc as <-.
    apply Hother. left. exists 0%nat. reflexivity.
Defined.
